(** * The Claude Code subsystem of demon: parser, project registry,
      permission store and executor

    A shallow embedding of [src/claude-code/{parser,projects,permissions,
    executor}.ts], followed by the properties of the specification that
    concern them; and of what surrounds them, the conversation store
    ([memory/conversations.ts]), the Telegram input
    ([inputs/telegram.ts]), the MCP servers ([mcp/client.ts]) and the
    worker ([worker/{agent,tools}.ts]), with further properties of the
    code.

    Conventions.
    - A JavaScript string is a list of code units; the embedding covers the
      code units below 256 ([ascii]), a range closed under every string
      operation the sources use.
    - JavaScript numbers that carry indices and lengths are [Z] (so that the
      [-1] of [lastIndexOf] is a number like any other).
    - [Map<string, T>] is a [gmap]. The own properties of a
      [Record<string, T>] object are a [gmap] too, or an association list
      for the project table, whose order is observable through
      [listProjects]; reads and [in] go through [JsObject], which puts
      [Object.prototype] behind the own properties.
    - A call that may throw gives an [outcome]; where it also changes
      state, the state it leaves comes with it.
    - What lives outside the repository (the values of a tool input,
      [minimatch], [RegExp] on stored patterns, [JSON]) is the interface
      [Host]. *)

From Stdlib Require Import ZArith Ascii String List Lia Bool.
From stdpp Require Import gmap strings list.

Open Scope Z_scope.

(** ** JavaScript strings *)

Module JsString.

Definition jsstring : Type := list ascii.

(** String literals of the sources. *)
Definition txt (s : string) : jsstring := list_ascii_of_string s.

Definition NL : ascii := "010"%char.

Definition code (c : ascii) : Z := Z.of_nat (nat_of_ascii c).

(** [s.length] *)
Definition jslength (s : jsstring) : Z := Z.of_nat (length s).

(** The relative index of [slice]: negative counts from the end, and the
    result is clamped to [0, len]. *)
Definition relIndex (len k : Z) : Z :=
  if k <? 0 then Z.max (len + k) 0 else Z.min k len.

(** [s.slice(from, to)] *)
Definition slice (s : jsstring) (from to : Z) : jsstring :=
  let len := jslength s in
  let a := relIndex len from in
  let b := relIndex len to in
  firstn (Z.to_nat (b - a)) (skipn (Z.to_nat a) s).

(** [s.slice(from)] *)
Definition sliceFrom (s : jsstring) (from : Z) : jsstring :=
  slice s from (jslength s).

(** [s.lastIndexOf(c, pos)] for a one-character search string: the greatest
    index [i <= pos] with [s[i] = c], or [-1]. [scan] walks the string from
    index [i], remembering the best index seen so far. *)
Fixpoint lastIndexOf_scan (s : jsstring) (c : ascii) (pos i best : Z) : Z :=
  match s with
  | [] => best
  | x :: s' =>
      if pos <? i then best
      else lastIndexOf_scan s' c pos (i + 1)
             (if Ascii.eqb x c then i else best)
  end.

Definition lastIndexOf (s : jsstring) (c : ascii) (pos : Z) : Z :=
  lastIndexOf_scan s c pos 0 (-1).

(** [s[i]], [None] for [undefined]. *)
Definition charAt (s : jsstring) (i : Z) : option ascii :=
  if i <? 0 then None else nth_error s (Z.to_nat i).

(** [s.split(c)] for a one-character separator: never the empty array. *)
Fixpoint split (c : ascii) (s : jsstring) : list jsstring :=
  match s with
  | [] => [[]]
  | x :: s' =>
      if Ascii.eqb x c then [] :: split c s'
      else match split c s' with
           | [] => [[x]]
           | seg :: segs => (x :: seg) :: segs
           end
  end.

(** [parts.join(sep)] *)
Fixpoint join (sep : jsstring) (parts : list jsstring) : jsstring :=
  match parts with
  | [] => []
  | [p] => p
  | p :: ps => p ++ sep ++ join sep ps
  end.

(** [s.includes(c)] for a one-character search string. *)
Definition includes (s : jsstring) (c : ascii) : bool :=
  existsb (Ascii.eqb c) s.

(** [\s], and what [trim] strips, among the code units below 256:
    TAB, LF, VT, FF, CR, SPACE and NBSP. *)
Definition isWhiteSpace (c : ascii) : bool :=
  let n := code c in
  ((9 <=? n) && (n <=? 13)) || (n =? 32) || (n =? 160).

Fixpoint trimStart (s : jsstring) : jsstring :=
  match s with
  | c :: s' => if isWhiteSpace c then trimStart s' else s
  | [] => []
  end.

Definition trimEnd (s : jsstring) : jsstring := rev (trimStart (rev s)).

(** [s.trim()] *)
Definition trim (s : jsstring) : jsstring := trimEnd (trimStart s).

(** [toLowerCase] on one code unit below 256: the letters A-Z and the
    Latin-1 capitals (192-222 without the multiplication sign 215). *)
Definition lowerChar (c : ascii) : ascii :=
  let n := code c in
  if ((65 <=? n) && (n <=? 90))
     || ((192 <=? n) && (n <=? 222) && negb (n =? 215))
  then ascii_of_nat (Z.to_nat (n + 32)) else c.

(** [s.toLowerCase()] *)
Definition toLowerCase (s : jsstring) : jsstring := map lowerChar s.

(** [`${n}`] for a non-negative integer: its decimal digits. *)
Definition digit (d : Z) : ascii := ascii_of_nat (Z.to_nat (48 + d)).

Fixpoint decimal_acc (fuel : nat) (n : Z) (acc : jsstring) : jsstring :=
  let acc' := digit (n mod 10) :: acc in
  match fuel with
  | O => acc'
  | S fuel' => if n / 10 =? 0 then acc' else decimal_acc fuel' (n / 10) acc'
  end.

Definition decimal (n : Z) : jsstring := decimal_acc (Z.to_nat n) n [].

(** [s.startsWith(p)] *)
Fixpoint startsWith (p s : jsstring) : bool :=
  match p, s with
  | [], _ => true
  | a :: p', b :: s' => Ascii.eqb a b && startsWith p' s'
  | _ :: _, [] => false
  end.

End JsString.
Import JsString.


(** The result of a call that may raise: [Returned v], or [Thrown e] for an
    exception with message [e]. *)
Inductive outcome (A : Type) : Type :=
  | Returned (v : A)
  | Thrown (e : jsstring).
Arguments Returned {A} v.
Arguments Thrown {A} e.

(** ** Plain objects used as tables

    [config.projects] and the permission memory are plain objects, made by
    an object literal or by [JSON.parse]: their prototype is
    [Object.prototype]. A read [obj[name]] and the test [name in obj] see
    the own properties first and the members of [Object.prototype] behind
    them; [delete], [Object.entries] and [JSON.stringify] see the own
    properties only. The own properties are modelled by a finite map or an
    association list and the prototype is added here. *)

Module JsObject.

(** The property names of [Object.prototype]. *)
Definition inheritedNames : list jsstring :=
  [ txt "constructor"; txt "__defineGetter__"; txt "__defineSetter__";
    txt "hasOwnProperty"; txt "__lookupGetter__"; txt "__lookupSetter__";
    txt "isPrototypeOf"; txt "propertyIsEnumerable"; txt "toString";
    txt "valueOf"; txt "__proto__"; txt "toLocaleString" ].

Definition inherited (name : jsstring) : bool :=
  bool_decide (name ∈ inheritedNames).

(** What [obj[name]] gives: the own value; or a member of
    [Object.prototype], a function or ([__proto__]) the prototype itself,
    which is truthy, is no string and has no property [allowed] or
    [denied]; or [undefined]. *)
Inductive Read (A : Type) : Type :=
  | Own (v : A)
  | Inherited
  | Undefined.
Arguments Own {A} v.
Arguments Inherited {A}.
Arguments Undefined {A}.

(** [obj[name]], from the own property [own] of that name, if any. *)
Definition get {A : Type} (own : option A) (name : jsstring) : Read A :=
  match own with
  | Some v => Own v
  | None => if inherited name then Inherited else Undefined
  end.

(** [name in obj]. *)
Definition has {A : Type} (own : option A) (name : jsstring) : bool :=
  match own with
  | Some _ => true
  | None => inherited name
  end.

End JsObject.
Import JsObject.

(** ** Data model ([types.ts]) *)

Record ClaudeCodeConfig := {
  allowedUserId : jsstring;
  projects : list (jsstring * jsstring)  (* own properties, name -> path, in
                                            the order of Object.entries *)
}.

Record PermissionRule := {
  tool : jsstring;
  pattern : option jsstring;          (* glob pattern for files *)
  command : option jsstring;          (* exact command for Bash *)
  commandPattern : option jsstring    (* regex pattern for Bash commands *)
}.

Record ProjectPermissions := {
  allowed : list PermissionRule;
  denied : list PermissionRule
}.

Abbreviation PermissionMemory := (gmap jsstring ProjectPermissions).

Record ClaudeCodePermissionResponse := {
  resp_requestId : jsstring;
  resp_chatId : jsstring;
  approved : bool;
  rememberChoice : bool
}.

Record ClaudeCodeResponse := {
  requestId : jsstring;
  chatId : jsstring;
  text : jsstring;
  sessionId : option jsstring;
  isPartial : option bool
}.

#[global] Instance PermissionRule_eq_dec : EqDecision PermissionRule.
Proof. solve_decision. Defined.

(** ** The world outside the repository *)

Class Host := {
  (** the [unknown] values held by a tool input *)
  JsValue : Type;
  (** truthiness, as tested by [if (v)] and [&&] *)
  ToBoolean : JsValue -> bool;
  (** [String(v)] *)
  ToString : JsValue -> jsstring;
  (** [minimatch(path, pattern)] *)
  minimatch : jsstring -> jsstring -> bool;
  (** [new RegExp(pattern).test(s)] for a stored command pattern; [None]
      is the [SyntaxError] of a pattern that does not compile *)
  RegExp_test : jsstring -> jsstring -> option bool;
  (** [JSON.stringify(v, null, 2)] and [JSON.parse], at the two types the
      stores use; [None] is a [SyntaxError] *)
  JSON_stringify_config : ClaudeCodeConfig -> jsstring;
  JSON_parse_config : jsstring -> option ClaudeCodeConfig;
  JSON_stringify_memory : PermissionMemory -> jsstring;
  JSON_parse_memory : jsstring -> option PermissionMemory
}.

(** [Record<string, unknown>]: the input of a tool invocation. *)
Abbreviation ToolInput := (gmap jsstring JsValue).

(** ** The file system, as far as [fs] is used *)

Module Fs.

Record FileSystem := {
  files : gmap jsstring jsstring;
  dirs : gset jsstring
}.

Definition existsSync (fs : FileSystem) (p : jsstring) : bool :=
  bool_decide (is_Some (files fs !! p)) || bool_decide (p ∈ dirs fs).

Definition writeFileSync (fs : FileSystem) (p data : jsstring) : FileSystem :=
  {| files := <[p := data]> (files fs); dirs := dirs fs |}.

Definition mkdirSync (fs : FileSystem) (p : jsstring) : FileSystem :=
  {| files := files fs; dirs := {[p]} ∪ dirs fs |}.

Definition readFileSync (fs : FileSystem) (p : jsstring) : outcome jsstring :=
  match files fs !! p with
  | Some data => Returned data
  | None => Thrown (txt "ENOENT")
  end.

(** [dirname] of [path], for a relative path without trailing slash. *)
Definition dirname (p : jsstring) : jsstring :=
  match removelast (split "/" p) with
  | [] => txt "."
  | segs => join (txt "/") segs
  end.

Definition ensureDataDir (fs : FileSystem) (path : jsstring) : FileSystem :=
  let dir := dirname path in
  if negb (existsSync fs dir) then mkdirSync fs dir else fs.

End Fs.
Import Fs.

(** ** Project registry ([projects.ts]) *)

Module ProjectManager.
Section WithHost.
Context `{Host}.


Definition defaultConfig : ClaudeCodeConfig :=
  {| allowedUserId := txt ""; projects := [] |}.


End WithHost.

Definition isAuthorizedUser (config : ClaudeCodeConfig) (userId : jsstring) : bool :=
  bool_decide (allowedUserId config = userId).

(** The own property [key] of [config.projects]. *)
Definition ownProject (config : ClaudeCodeConfig) (key : jsstring) : option jsstring :=
  snd <$> List.find (fun e => bool_decide (fst e = key)) (projects config).

Definition getProject (config : ClaudeCodeConfig) (name : jsstring) : Read jsstring :=
  let key := toLowerCase name in
  JsObject.get (ownProject config key) key.

Definition listProjects (config : ClaudeCodeConfig) : list (jsstring * jsstring) :=
  map (fun e => (fst e, snd e)) (projects config).

Definition projectExists (config : ClaudeCodeConfig) (name : jsstring) : bool :=
  let key := toLowerCase name in
  JsObject.has (ownProject config key) key.

End ProjectManager.

(** ** Command parser ([parser.ts]) *)

Module Parser.

(** *** The regular expressions of the parser

    Every pattern of [parseClaudeCodeCommand] is anchored at both ends and is
    a sequence of quantified character classes, some of them captured. The
    matcher is the backtracking one of the language: a greedy quantifier
    first takes as much as it can and gives characters back one at a time. *)

Inductive CharClass :=
  | Lit (c : ascii)            (* a literal character *)
  | Space                      (* \s *)
  | NonSpace                   (* \S *)
  | Dot                        (* . *)
  | OneOf (cs : list ascii).   (* [...] *)

Inductive Quant := Once | OneOrMore | ZeroOrMore.

Record Term := { capture : bool; cls : CharClass; quant : Quant }.

Record RegExp := {
  source : list Term;    (* between ^ and $ *)
  ignoreCase : bool;     (* flag i *)
  dotAll : bool          (* flag s *)
}.

(** Case folding of flag [i] on the code units below 256. *)
Definition canonicalize (c : ascii) : ascii :=
  let n := code c in
  if ((97 <=? n) && (n <=? 122))
     || ((224 <=? n) && (n <=? 254) && negb (n =? 247))
  then ascii_of_nat (Z.to_nat (n - 32)) else c.

Definition sameChar (re : RegExp) (a b : ascii) : bool :=
  if ignoreCase re then Ascii.eqb (canonicalize a) (canonicalize b)
  else Ascii.eqb a b.

Definition isLineTerminator (c : ascii) : bool :=
  (code c =? 10) || (code c =? 13).

Definition classMatches (re : RegExp) (k : CharClass) (c : ascii) : bool :=
  match k with
  | Lit a => sameChar re a c
  | Space => isWhiteSpace c
  | NonSpace => negb (isWhiteSpace c)
  | Dot => dotAll re || negb (isLineTerminator c)
  | OneOf cs => existsb (fun a => sameChar re a c) cs
  end.

(** Captures are collected most recent first. *)
Definition record (cap : bool) (taken : jsstring) (caps : list jsstring) :=
  if cap then rev taken :: caps else caps.

(** [greedy] consumes one more character of the class and then prefers to
    go on; when going on fails, the rest of the pattern [k] is tried on
    what is left. [taken] is what the term has consumed, in reverse. *)
Fixpoint greedy (re : RegExp) (t : Term)
    (k : jsstring -> list jsstring -> option (list jsstring))
    (s taken : jsstring) (caps : list jsstring) : option (list jsstring) :=
  match s with
  | [] => None
  | c :: s' =>
      if classMatches re (cls t) c then
        match greedy re t k s' (c :: taken) caps with
        | Some r => Some r
        | None => k s' (record (capture t) (c :: taken) caps)
        end
      else None
  end.

Fixpoint matchTerms (re : RegExp) (ts : list Term)
    (s : jsstring) (caps : list jsstring) : option (list jsstring) :=
  match ts with
  | [] => match s with [] => Some (rev caps) | _ :: _ => None end
  | t :: ts' =>
      match quant t with
      | Once =>
          match s with
          | c :: s' =>
              if classMatches re (cls t) c
              then matchTerms re ts' s' (record (capture t) [c] caps)
              else None
          | [] => None
          end
      | OneOrMore => greedy re t (matchTerms re ts') s [] caps
      | ZeroOrMore =>
          match greedy re t (matchTerms re ts') s [] caps with
          | Some r => Some r
          | None => matchTerms re ts' s (record (capture t) [] caps)
          end
      end
  end.

(** [s.match(re)]: [None] for [null], otherwise the match array, the whole
    match first and then the groups. *)
Definition jsmatch (s : jsstring) (re : RegExp) : option (list jsstring) :=
  match matchTerms re (source re) s [] with
  | Some groups => Some (s :: groups)
  | None => None
  end.

Definition lit (s : string) : list Term :=
  map (fun c => {| capture := false; cls := Lit c; quant := Once |}) (txt s).
Definition some (k : CharClass) : Term :=
  {| capture := false; cls := k; quant := OneOrMore |}.
Definition any (k : CharClass) : Term :=
  {| capture := false; cls := k; quant := ZeroOrMore |}.
Definition one (k : CharClass) : Term :=
  {| capture := false; cls := k; quant := Once |}.
Definition group (k : CharClass) : Term :=
  {| capture := true; cls := k; quant := OneOrMore |}.

(** [/^cc\s+(.+)$/is] *)
Definition ccRe : RegExp :=
  {| source := lit "cc" ++ [some Space; group Dot];
     ignoreCase := true; dotAll := true |}.
(** [/^\/code-clear\s+(\S+)$/i] *)
Definition clearRe : RegExp :=
  {| source := lit "/code-clear" ++ [some Space; group NonSpace];
     ignoreCase := true; dotAll := false |}.
(** [/^\/code-permissions\s+(\S+)$/i] *)
Definition permRe : RegExp :=
  {| source := lit "/code-permissions" ++ [some Space; group NonSpace];
     ignoreCase := true; dotAll := false |}.
(** [/^\/code\s+(\S+)\s+(.+)$/is] *)
Definition codeRe : RegExp :=
  {| source := lit "/code" ++ [some Space; group NonSpace; some Space; group Dot];
     ignoreCase := true; dotAll := true |}.
(** [/^@(\S+)\s+(.+)$/is] *)
Definition atRe : RegExp :=
  {| source := lit "@" ++ [group NonSpace; some Space; group Dot];
     ignoreCase := true; dotAll := true |}.
(** [/^in\s+(\S+)[,:]\s*(.+)$/is] *)
Definition inRe : RegExp :=
  {| source := lit "in" ++ [some Space; group NonSpace;
                            one (OneOf ["," ; ":"]%char); any Space; group Dot];
     ignoreCase := true; dotAll := true |}.

(** *** Parsed commands *)

Inductive Command :=
  | ClaudeCodeCommand (projectName prompt : jsstring)
  | ListProjectsCommand
  | ClearSessionCommand (projectName : jsstring)
  | ClearPermissionsCommand (projectName : jsstring).

(** [ParsedCommand]: a command or [null]. *)
Definition ParsedCommand := option Command.

(** What one of the recognised forms does: it may return (first
    component) and it may write lines to the console (second component). *)
Definition Form : Type := option (outcome ParsedCommand) * list jsstring.

Definition fallThrough : Form := (None, []).
Definition returns (c : ParsedCommand) : Form := (Some (Returned c), []).
Definition logging (line : jsstring) (f : Form) : Form := (fst f, line :: snd f).

(** [m[i].f()]: a [TypeError] when the group is [undefined]. *)
Definition withGroup (m : list jsstring) (i : nat) (k : jsstring -> Form) : Form :=
  match nth_error m i with
  | Some g => k g
  | None => (Some (Thrown (txt "TypeError")), [])
  end.

(** The forms are tried in order; the first that returns decides. *)
Fixpoint firstReturn (forms : list Form) : outcome ParsedCommand * list jsstring :=
  match forms with
  | [] => (Returned None, [])
  | (Some r, out) :: _ => (r, out)
  | (None, out) :: rest =>
      let '(r, out') := firstReturn rest in (r, out ++ out')
  end.

Definition DQUOTE : ascii := "034"%char.

Definition showBool (b : bool) : jsstring := if b then txt "true" else txt "false".

Import ProjectManager.

Definition ccForm (projectManager : ClaudeCodeConfig) (trimmed : jsstring) : Form :=
  match jsmatch trimmed ccRe with
  | Some ccMatch =>
      match listProjects projectManager with
      | (defaultProject, _) :: _ =>
          logging (txt "[Parser] cc shorthand detected, using default project: "
                   ++ defaultProject)
            (withGroup ccMatch 1 (fun g =>
               returns (Some (ClaudeCodeCommand defaultProject (trim g)))))
      | [] => fallThrough
      end
  | None => fallThrough
  end.

Definition projectsForm (trimmed : jsstring) : Form :=
  if bool_decide (toLowerCase trimmed = txt "/projects")
  then returns (Some ListProjectsCommand) else fallThrough.

Definition clearForm (trimmed : jsstring) : Form :=
  match jsmatch trimmed clearRe with
  | Some clearMatch =>
      withGroup clearMatch 1 (fun g =>
        returns (Some (ClearSessionCommand (toLowerCase g))))
  | None => fallThrough
  end.

Definition permForm (trimmed : jsstring) : Form :=
  match jsmatch trimmed permRe with
  | Some permMatch =>
      withGroup permMatch 1 (fun g =>
        returns (Some (ClearPermissionsCommand (toLowerCase g))))
  | None => fallThrough
  end.

Definition codeForm (projectManager : ClaudeCodeConfig) (trimmed : jsstring) : Form :=
  match jsmatch trimmed codeRe with
  | Some codeMatch =>
      withGroup codeMatch 1 (fun g1 =>
        let projectName := toLowerCase g1 in
        if projectExists projectManager projectName then
          withGroup codeMatch 2 (fun g2 =>
            returns (Some (ClaudeCodeCommand projectName (trim g2))))
        else fallThrough)
  | None => fallThrough
  end.

Definition atForm (projectManager : ClaudeCodeConfig) (trimmed : jsstring) : Form :=
  match jsmatch trimmed atRe with
  | Some atMatch =>
      withGroup atMatch 1 (fun g1 =>
        let projectName := toLowerCase g1 in
        logging (txt "[Parser] @mention detected: project=" ++ [DQUOTE]
                 ++ projectName ++ [DQUOTE] ++ txt ", exists="
                 ++ showBool (projectExists projectManager projectName))
          (if projectExists projectManager projectName then
             withGroup atMatch 2 (fun g2 =>
               returns (Some (ClaudeCodeCommand projectName (trim g2))))
           else fallThrough))
  | None => fallThrough
  end.

Definition inForm (projectManager : ClaudeCodeConfig) (trimmed : jsstring) : Form :=
  match jsmatch trimmed inRe with
  | Some inMatch =>
      withGroup inMatch 1 (fun g1 =>
        let projectName := toLowerCase g1 in
        if projectExists projectManager projectName then
          withGroup inMatch 2 (fun g2 =>
            returns (Some (ClaudeCodeCommand projectName (trim g2))))
        else fallThrough)
  | None => fallThrough
  end.

(** [parseClaudeCodeCommand(text)]: the result and the console output. *)
Definition parseClaudeCodeCommand (projectManager : ClaudeCodeConfig)
    (text : jsstring) : outcome ParsedCommand * list jsstring :=
  let trimmed := trim text in
  firstReturn [ ccForm projectManager trimmed;
                projectsForm trimmed;
                clearForm trimmed;
                permForm trimmed;
                codeForm projectManager trimmed;
                atForm projectManager trimmed;
                inForm projectManager trimmed ].

End Parser.

(** ** Permission store ([permissions.ts]) *)

Module PermissionManager.

(** The three answers of [checkPermission]. *)
Inductive Decision := Allowed | Denied | Ask.

(** The permission manager and the file it flushes to. *)
Record Store := {
  memory : PermissionMemory;
  disk : FileSystem
}.

(** Truthiness of an optional string field: neither [undefined] nor
    empty. *)
Definition truthy (o : option jsstring) : bool :=
  match o with
  | Some (_ :: _) => true
  | _ => false
  end.

#[global] Instance ProjectPermissions_inhabited : Inhabited ProjectPermissions :=
  populate {| allowed := []; denied := [] |}.

Definition PERMISSIONS_PATH : jsstring := txt "./data/claude-code-permissions.json".

(** [this.memory[projectName]]. *)
Definition lookup (memory : PermissionMemory) (projectName : jsstring)
    : Read ProjectPermissions :=
  JsObject.get (memory !! projectName) projectName.

Definition ensureProject (memory : PermissionMemory) (projectName : jsstring)
    : PermissionMemory :=
  match lookup memory projectName with
  | Undefined => <[projectName := {| allowed := []; denied := [] |}]> memory
  | Own _ | Inherited => memory
  end.

Section WithHost.
Context `{Host}.

Definition loadMemory (fs : FileSystem) : outcome PermissionMemory * FileSystem :=
  if negb (existsSync fs PERMISSIONS_PATH) then
    let fs1 := ensureDataDir fs PERMISSIONS_PATH in
    (Returned ∅, writeFileSync fs1 PERMISSIONS_PATH (txt "{}"))
  else
    match readFileSync fs PERMISSIONS_PATH with
    | Thrown e => (Thrown e, fs)
    | Returned data =>
        match JSON_parse_memory data with
        | Some m => (Returned m, fs)
        | None => (Thrown (txt "SyntaxError"), fs)
        end
    end.

Definition save (st : Store) : Store :=
  {| memory := memory st;
     disk := writeFileSync (disk st) PERMISSIONS_PATH
               (JSON_stringify_memory (memory st)) |}.

(** [input.command], when it is there and truthy. *)
Definition commandOf (input : ToolInput) : option JsValue :=
  match input !! txt "command" with
  | Some v => if ToBoolean v then Some v else None
  | None => None
  end.

(** The Bash part of [matchesRule]: whether the exact command or the
    command pattern of the rule accepts the command. The pattern is compiled
    only when the exact command has not accepted. *)
Definition matchesCommand (rule : PermissionRule) (cmd : jsstring) : outcome bool :=
  if truthy (command rule) && bool_decide (command rule = Some cmd) then Returned true
  else
    match commandPattern rule with
    | Some (c :: p) =>
        match RegExp_test (c :: p) cmd with
        | Some b => Returned b
        | None => Thrown (txt "SyntaxError: Invalid regular expression")
        end
    | _ => Returned false
    end.

Definition matchesRule (rule : PermissionRule) (toolName : jsstring)
    (input : ToolInput) : outcome bool :=
  if negb (bool_decide (tool rule = toolName)) then Returned false
  else
    match pattern rule, input !! txt "file_path" with
    | Some (c :: p), Some file_path =>
        (* For file operations, match against file path *)
        Returned (minimatch (ToString file_path) (c :: p))
    | _, _ =>
        (* For Bash commands *)
        let bash :=
          if bool_decide (toolName = txt "Bash") then
            match commandOf input with
            | Some v => matchesCommand rule (ToString v)
            | None => Returned false
            end
          else Returned false in
        match bash with
        | Thrown e => Thrown e
        | Returned true => Returned true
        | Returned false =>
            (* If no pattern specified, match all uses of this tool *)
            Returned (negb (truthy (pattern rule)) && negb (truthy (command rule))
                      && negb (truthy (commandPattern rule)))
        end
    end.

(** One of the loops of [checkPermission]: whether a rule of the list
    matches. The loop leaves at the first match, and an exception of
    [matchesRule] ends it. *)
Fixpoint firstMatch (rules : list PermissionRule) (toolName : jsstring)
    (input : ToolInput) : outcome bool :=
  match rules with
  | [] => Returned false
  | rule :: rest =>
      match matchesRule rule toolName input with
      | Thrown e => Thrown e
      | Returned true => Returned true
      | Returned false => firstMatch rest toolName input
      end
  end.

Definition checkPermission (memory : PermissionMemory)
    (projectName toolName : jsstring) (input : ToolInput) : outcome Decision :=
  match lookup memory projectName with
  | Undefined => Returned Ask
  | Inherited =>
      (* permissions.denied is undefined *)
      Thrown (txt "TypeError: permissions.denied is not iterable")
  | Own permissions =>
      (* Check denied rules first (they take precedence) *)
      match firstMatch (denied permissions) toolName input with
      | Thrown e => Thrown e
      | Returned true => Returned Denied
      | Returned false =>
          (* Check allowed rules *)
          match firstMatch (allowed permissions) toolName input with
          | Thrown e => Thrown e
          | Returned true => Returned Allowed
          | Returned false => Returned Ask
          end
      end
  end.

Definition createRule (toolName : jsstring) (input : ToolInput) : PermissionRule :=
  let pat :=
    match input !! txt "file_path" with
    | Some v =>
        let path := ToString v in
        let parts := split "/" path in
        let file := List.last parts [] in        (* parts.pop() *)
        let parts := removelast parts in
        let ext := if includes file "." then List.last (split "." file) [] else [] in
        match ext with
        | _ :: _ => Some (join (txt "/") parts ++ txt "/**/*." ++ ext)
        | [] => Some path
        end
    | None => None
    end in
  let cmd :=
    if bool_decide (toolName = txt "Bash") then
      match commandOf input with
      | Some v => Some (ToString v)
      | None => None
      end
    else None in
  {| tool := toolName; pattern := pat; command := cmd; commandPattern := None |}.

(** The duplicate test of [remember]. *)
Definition sameRule (rule r : PermissionRule) : bool :=
  bool_decide (tool r = tool rule)
  && bool_decide (pattern r = pattern rule)
  && bool_decide (command r = command rule).

(** [remember]: how the call ends, and the store it leaves. *)
Definition remember (st : Store) (projectName toolName : jsstring)
    (input : ToolInput) (allow : bool) : outcome unit * Store :=
  let memory1 := ensureProject (memory st) projectName in
  let rule := createRule toolName input in
  match lookup memory1 projectName with
  | Own permissions =>
      let list := if allow then allowed permissions else denied permissions in
      (* Avoid duplicates *)
      let exists_ := existsb (sameRule rule) list in
      if negb exists_ then
        let list' := list ++ [rule] in                (* list.push(rule) *)
        let permissions' :=
          if allow then {| allowed := list'; denied := denied permissions |}
          else {| allowed := allowed permissions; denied := list' |} in
        (Returned tt,
         save {| memory := <[projectName := permissions']> memory1; disk := disk st |})
      else (Returned tt, {| memory := memory1; disk := disk st |})
  | Inherited =>
      (* list is undefined *)
      (Thrown (txt "TypeError: Cannot read properties of undefined (reading 'some')"),
       {| memory := memory1; disk := disk st |})
  | Undefined =>
      (* not reached: [ensureProject] has made the entry *)
      (Thrown (txt "TypeError: Cannot read properties of undefined"),
       {| memory := memory1; disk := disk st |})
  end.

(** [delete] removes an own property and leaves the prototype alone. *)
Definition clearProject (st : Store) (projectName : jsstring) : Store :=
  save {| memory := delete projectName (memory st); disk := disk st |}.

Definition getProjectPermissions (st : Store) (projectName : jsstring)
    : Read ProjectPermissions :=
  lookup (memory st) projectName.

End WithHost.
End PermissionManager.

(** ** Executor ([executor.ts]) *)

Module Executor.
Import PermissionManager.

(** *** Chunked delivery *)

Definition MAX_CHUNK_SIZE : Z := 4000.

(** Where one iteration of the splitting loop cuts [remaining]: at the last
    newline up to the budget, unless there is none or it lies in the first
    half. *)
Definition splitIndexOf (remaining : jsstring) : Z :=
  let splitIndex := lastIndexOf remaining NL MAX_CHUNK_SIZE in
  if (splitIndex =? -1) || (splitIndex <? MAX_CHUNK_SIZE / 2)
  then MAX_CHUNK_SIZE else splitIndex.

(** The [while] loop of [sendChunkedResponse]; [chunks] is the array being
    filled. [None] when [fuel] iterations were not enough. *)
Fixpoint splitLoop (fuel : nat) (remaining : jsstring) (chunks : list jsstring)
    : option (list jsstring) :=
  match fuel with
  | O => None
  | S fuel' =>
      if 0 <? jslength remaining then
        if jslength remaining <=? MAX_CHUNK_SIZE then Some (chunks ++ [remaining])
        else
          let splitIndex := splitIndexOf remaining in
          splitLoop fuel' (sliceFrom remaining (splitIndex + 1))
            (chunks ++ [slice remaining 0 splitIndex])
      else Some chunks
  end.

(** The loop started on [text], with one iteration per character and one
    more for the final test. *)
Definition splitChunks (text : jsstring) : option (list jsstring) :=
  splitLoop (S (length text)) text [].

(** [`[Part ${i + 1}/${chunks.length}]\n\n`], or nothing for one chunk. *)
Definition partIndicator (i n : Z) : jsstring :=
  if 1 <? n
  then txt "[Part " ++ decimal (i + 1) ++ txt "/" ++ decimal n ++ txt "]" ++ [NL; NL]
  else [].

(** The event published for [chunks[i]], of [n] chunks. *)
Definition partEvent (requestId chatId : jsstring) (sessionId : option jsstring)
    (n : Z) (i : nat) (chunk : jsstring) : ClaudeCodeResponse :=
  let isLast := Z.of_nat i =? n - 1 in
  {| requestId := requestId;
     chatId := chatId;
     text := partIndicator (Z.of_nat i) n ++ chunk;
     sessionId := if isLast then sessionId else None;
     isPartial := Some (negb isLast) |}.

(** [sendChunkedResponse]: the [claude-code:response] events it publishes,
    in order; [None] when the splitting loop does not come to an end. *)
Definition sendChunkedResponse (requestId chatId text : jsstring)
    (sessionId : option jsstring) : option (list ClaudeCodeResponse) :=
  if jslength text <=? MAX_CHUNK_SIZE then
    Some [ {| requestId := requestId; chatId := chatId; text := text;
              sessionId := sessionId; isPartial := None |} ]
  else
    match splitChunks text with
    | Some chunks =>
        Some (imap (partEvent requestId chatId sessionId (Z.of_nat (length chunks)))
                chunks)
    | None => None
    end.

(** *** Permission negotiation *)

Section WithHost.
Context `{Host}.

(** The answer of [canUseTool] to the agent runtime. *)
Inductive PermissionVerdict :=
  | Allow (updatedInput : ToolInput)
  | Deny (message : jsstring)
  (** the promise of [handlePermission] rejected, with the exception *)
  | Rejected (e : jsstring).

(** What a promise of [handlePermission] is resolved with. *)
Record PermissionResult := { res_approved : bool; res_remember : bool }.

(** [ClaudeCodePermissionRequest], the event published to ask the user. *)
Record ClaudeCodePermissionRequest := {
  perm_requestId : jsstring;
  perm_chatId : jsstring;
  perm_projectName : jsstring;
  perm_toolName : jsstring;
  perm_toolInput : ToolInput;
  perm_description : jsstring
}.

(** A call of [handlePermission] suspended at its [await]: the locals its
    continuation uses, and every invocation of the promise's [resolve], the
    oldest first. The first invocation settles the promise. *)
Record Waiting := {
  w_projectName : jsstring;
  w_toolName : jsstring;
  w_input : ToolInput;
  resolveCalls : list PermissionResult
}.

(** An armed [setTimeout]: the closure holds [permissionId] and the
    [resolve] of promise [t_promise]. *)
Record Timer := {
  t_permissionId : jsstring;
  t_promise : nat;
  t_delay : Z
}.

Record ExecutorState := {
  (** [pendingPermissions]: request id to the promise whose [resolve] is
      stored under it *)
  pendingPermissions : gmap jsstring nat;
  (** the promises created so far, by creation index *)
  promises : list Waiting;
  (** timers armed and not yet fired *)
  timers : list Timer;
  (** the permission manager *)
  store : Store;
  (** [claude-code:permission] events published, latest last *)
  asked : list ClaudeCodePermissionRequest;
  (** verdicts handed back to the agent runtime, latest last, each with the
      promise it came through ([None]: answered from the store) *)
  verdicts : list (option nat * PermissionVerdict)
}.

Definition PERMISSION_TIMEOUT : Z := 5 * 60 * 1000.

(** [`${input.field}`] *)
Definition showField (input : ToolInput) (field : string) : jsstring :=
  match input !! txt field with
  | Some v => ToString v
  | None => txt "undefined"
  end.

Definition formatPermissionDescription (toolName : jsstring) (input : ToolInput)
    : jsstring :=
  if bool_decide (toolName = txt "Edit") then
    txt "Edit file: " ++ showField input "file_path"
  else if bool_decide (toolName = txt "Write") then
    txt "Create/overwrite file: " ++ showField input "file_path"
  else if bool_decide (toolName = txt "Bash") then
    txt "Run command: " ++ slice (showField input "command") 0 100
  else if bool_decide (toolName = txt "Read") then
    txt "Read file: " ++ showField input "file_path"
  else txt "Use tool " ++ toolName.

(** The continuation of [handlePermission] after its [await], for the
    promise [p] resolved with [result]. *)
Definition resume (s : ExecutorState) (p : nat) (w : Waiting)
    (result : PermissionResult) : ExecutorState :=
  let remembered :=
    (* Remember the decision if requested *)
    if res_remember result
    then remember (store s) (w_projectName w) (w_toolName w) (w_input w)
           (res_approved result)
    else (Returned tt, store s) in
  let verdict :=
    match fst remembered with
    | Thrown e => Rejected e
    | Returned _ =>
        if res_approved result then Allow (w_input w)
        else Deny (txt "User denied permission.")
    end in
  {| pendingPermissions := pendingPermissions s;
     promises := promises s;
     timers := timers s;
     store := snd remembered;
     asked := asked s;
     verdicts := verdicts s ++ [(Some p, verdict)] |}.

(** An invocation of the [resolve] of promise [p]. Only the first one
    settles the promise and lets the suspended call go on. *)
Definition resolve (s : ExecutorState) (p : nat) (result : PermissionResult)
    : ExecutorState :=
  match promises s !! p with
  | None => s
  | Some w =>
      let w' := {| w_projectName := w_projectName w; w_toolName := w_toolName w;
                   w_input := w_input w;
                   resolveCalls := resolveCalls w ++ [result] |} in
      let s1 := {| pendingPermissions := pendingPermissions s;
                   promises := <[p := w']> (promises s);
                   timers := timers s;
                   store := store s;
                   asked := asked s;
                   verdicts := verdicts s |} in
      match resolveCalls w with
      | [] => resume s1 p w' result
      | _ :: _ => s1
      end
  end.

Definition setPending (s : ExecutorState) (m : gmap jsstring nat) : ExecutorState :=
  {| pendingPermissions := m; promises := promises s; timers := timers s;
     store := store s; asked := asked s; verdicts := verdicts s |}.

(** The subscriber of [claude-code:permission-response]. *)
Definition onPermissionResponse (s : ExecutorState)
    (response : ClaudeCodePermissionResponse) : ExecutorState :=
  match pendingPermissions s !! resp_requestId response with
  | Some pending =>
      let s1 := resolve s pending
                  {| res_approved := approved response;
                     res_remember := rememberChoice response |} in
      setPending s1 (delete (resp_requestId response) (pendingPermissions s1))
  | None => s
  end.

(** The callback given to [setTimeout]. *)
Definition onTimeout (s : ExecutorState) (t : Timer) : ExecutorState :=
  if bool_decide (is_Some (pendingPermissions s !! t_permissionId t)) then
    let s1 := setPending s (delete (t_permissionId t) (pendingPermissions s)) in
    resolve s1 (t_promise t) {| res_approved := false; res_remember := false |}
  else s.

(** [handlePermission], up to its [await]. [permissionId] is the id drawn
    from the clock and the random generator. *)
Definition handlePermission (s : ExecutorState)
    (permissionId chatId projectName toolName : jsstring) (input : ToolInput)
    : ExecutorState :=
  let answer v :=
    {| pendingPermissions := pendingPermissions s; promises := promises s;
       timers := timers s; store := store s; asked := asked s;
       verdicts := verdicts s ++ [(None, v)] |} in
  (* Check permission memory first *)
  match checkPermission (memory (store s)) projectName toolName input with
  | Thrown e => answer (Rejected e)
  | Returned Allowed => answer (Allow input)
  | Returned Denied => answer (Deny (txt "This action was previously denied."))
  | Returned Ask =>
      (* Need to ask user *)
      let description := formatPermissionDescription toolName input in
      let p := length (promises s) in
      {| pendingPermissions := <[permissionId := p]> (pendingPermissions s);
         promises := promises s ++
           [ {| w_projectName := projectName; w_toolName := toolName;
                w_input := input; resolveCalls := [] |} ];
         timers := timers s ++
           [ {| t_permissionId := permissionId; t_promise := p;
                t_delay := PERMISSION_TIMEOUT |} ];
         store := store s;
         asked := asked s ++
           [ {| perm_requestId := permissionId; perm_chatId := chatId;
                perm_projectName := projectName; perm_toolName := toolName;
                perm_toolInput := input; perm_description := description |} ];
         verdicts := verdicts s |}
  end.

(** What can happen to the executor. *)
Inductive Event :=
  | CanUseTool (permissionId chatId projectName toolName : jsstring)
      (input : ToolInput)
  | PermissionResponse (response : ClaudeCodePermissionResponse)
  | TimeoutFires (promise : nat).

Definition disarm (s : ExecutorState) (p : nat) : ExecutorState :=
  {| pendingPermissions := pendingPermissions s; promises := promises s;
     timers := filter (fun t => t_promise t ≠ p) (timers s);
     store := store s; asked := asked s; verdicts := verdicts s |}.

(** One turn of the event loop. A timer fires only when armed, and once. *)
Definition step (s : ExecutorState) (e : Event) : ExecutorState :=
  match e with
  | CanUseTool permissionId chatId projectName toolName input =>
      handlePermission s permissionId chatId projectName toolName input
  | PermissionResponse response => onPermissionResponse s response
  | TimeoutFires p =>
      match List.find (fun t => bool_decide (t_promise t = p)) (timers s) with
      | Some t => onTimeout (disarm s p) t
      | None => s
      end
  end.

Definition run (s : ExecutorState) (events : list Event) : ExecutorState :=
  fold_left step events s.

(** The executor when the process starts. *)
Definition initial (st : Store) : ExecutorState :=
  {| pendingPermissions := ∅; promises := []; timers := [];
     store := st; asked := []; verdicts := [] |}.

End WithHost.
End Executor.

(** ** Conversation history ([memory/conversations.ts]) *)

Module ConversationStore.

Inductive Role := user | assistant.

(** [MessageParam], with the content (a string or content blocks) left
    open. *)
Record MessageParam (Content : Type) := {
  role : Role;
  content : Content
}.
Arguments role {Content} _.
Arguments content {Content} _.

(** [lastUpdated] is the time of the [Date], in milliseconds. *)
Record ConversationEntry (Content : Type) := {
  messages : list (MessageParam Content);
  lastUpdated : Z
}.
Arguments messages {Content} _.
Arguments lastUpdated {Content} _.

(** Max messages to keep per conversation *)
Definition MAX_MESSAGES : Z := 20.

(** Max age before conversation is cleared (1 hour) *)
Definition MAX_AGE_MS : Z := 60 * 60 * 1000.

Section WithContent.
Context {Content : Type}.

Local Abbreviation Conversations := (gmap jsstring (ConversationEntry Content)).

(** [getHistory(chatId)] at the time [now]: the history, and the map, from
    which a stale conversation is deleted. *)
Definition getHistory (conversations : Conversations) (now : Z) (chatId : jsstring)
    : list (MessageParam Content) * Conversations :=
  match conversations !! chatId with
  | None => ([], conversations)
  | Some entry =>
      if MAX_AGE_MS <? now - lastUpdated entry
      then ([], delete chatId conversations)
      else (messages entry, conversations)
  end.

Definition ensureConversation (conversations : Conversations) (now : Z)
    (chatId : jsstring) : Conversations :=
  match conversations !! chatId with
  | Some _ => conversations
  | None => <[chatId := {| messages := []; lastUpdated := now |}]> conversations
  end.

(** [while (messages.length > 0 && messages[0].role !== "user") messages.shift()] *)
Fixpoint shiftToUser (messages : list (MessageParam Content))
    : list (MessageParam Content) :=
  match messages with
  | [] => []
  | m :: rest =>
      match role m with
      | user => messages
      | assistant => shiftToUser rest
      end
  end.

(** What [truncateIfNeeded] makes of the messages of an entry. *)
Definition truncated (messages : list (MessageParam Content))
    : list (MessageParam Content) :=
  if MAX_MESSAGES <? Z.of_nat (length messages) then
    let toRemove := Z.of_nat (length messages) - MAX_MESSAGES in
    shiftToUser (skipn (Z.to_nat toRemove) messages)     (* slice(toRemove) *)
  else messages.

Definition truncateIfNeeded (conversations : Conversations) (chatId : jsstring)
    : Conversations :=
  match conversations !! chatId with
  | None => conversations
  | Some entry =>
      <[chatId := {| messages := truncated (messages entry);
                     lastUpdated := lastUpdated entry |}]> conversations
  end.

(** [entry.messages.push(m); entry.lastUpdated = new Date()] on the entry
    of [chatId], then the truncation. *)
Definition push (conversations : Conversations) (now : Z) (chatId : jsstring)
    (m : MessageParam Content) : Conversations :=
  match conversations !! chatId with
  | Some entry =>
      truncateIfNeeded
        (<[chatId := {| messages := messages entry ++ [m]; lastUpdated := now |}]>
           conversations) chatId
  | None => conversations
  end.

Definition addUserMessage (conversations : Conversations) (now : Z)
    (chatId : jsstring) (c : Content) : Conversations :=
  push (ensureConversation conversations now chatId) now chatId
    {| role := user; content := c |}.

Definition addAssistantMessage (conversations : Conversations) (now : Z)
    (chatId : jsstring) (c : Content) : Conversations :=
  push (ensureConversation conversations now chatId) now chatId
    {| role := assistant; content := c |}.

Definition setMessages (conversations : Conversations) (now : Z)
    (chatId : jsstring) (ms : list (MessageParam Content)) : Conversations :=
  let conversations := ensureConversation conversations now chatId in
  match conversations !! chatId with
  | Some entry =>
      truncateIfNeeded
        (<[chatId := {| messages := ms; lastUpdated := now |}]> conversations) chatId
  | None => conversations
  end.

Definition clear (conversations : Conversations) (chatId : jsstring) : Conversations :=
  delete chatId conversations.

Definition clearAll (conversations : Conversations) : Conversations := ∅.

End WithContent.
End ConversationStore.

(** ** Requests to the agent runtime ([executor.ts])

    The messages the runtime streams back are read as the executor reads
    them; the permission calls the runtime makes meanwhile are those of
    the negotiation above. Console output is not modelled here. *)

Module Requests.
Import ProjectManager.

(** [ClaudeCodeRequest] *)
Record ClaudeCodeRequest := {
  req_id : jsstring;
  req_chatId : jsstring;
  req_userId : jsstring;
  req_projectName : jsstring;
  req_prompt : jsstring;
  req_sessionId : option jsstring
}.

(** A block of [message.content]: what the executor looks at is whether it
    has a [text], and that text. *)
Inductive ContentBlock :=
  | TextBlock (text : jsstring)
  | OtherBlock.

(** A message of the stream, as far as the executor tells one from
    another. *)
Inductive SDKMessage :=
  | SystemInit (session_id : option jsstring)       (* type system, subtype init *)
  | AssistantMessage (content : option (list ContentBlock))
  | ResultMessage (result : option jsstring)
  | OtherMessage.

(** What [query] yields: messages, and then either the end of the stream
    or an exception with message [e]. *)
Record Stream := {
  yielded : list SDKMessage;
  raised : option jsstring
}.

(** Active sessions per chat+project *)
Abbreviation Sessions := (gmap jsstring jsstring).

(** [`${chatId}:${projectName}`] *)
Definition sessionKey (chatId projectName : jsstring) : jsstring :=
  chatId ++ txt ":" ++ projectName.

Definition getActiveSession (activeSessions : Sessions)
    (chatId projectName : jsstring) : option jsstring :=
  activeSessions !! sessionKey chatId projectName.

Definition clearSession (activeSessions : Sessions)
    (chatId projectName : jsstring) : Sessions :=
  delete (sessionKey chatId projectName) activeSessions.

(** Truthiness of an optional string. *)
Definition truthy (o : option jsstring) : bool :=
  match o with
  | Some (_ :: _) => true
  | _ => false
  end.

(** Truthiness of what [getProject] gives: a path that is not empty, or a
    member of [Object.prototype]. *)
Definition truthyPath (projectPath : Read jsstring) : bool :=
  match projectPath with
  | Own path => truthy (Some path)
  | Inherited => true
  | Undefined => false
  end.

(** The locals and the effects of [executeRequest] while it reads the
    stream. *)
Record Progress := {
  currentSessionId : option jsstring;
  resultText : jsstring;
  activeSessions : Sessions;
  published : list ClaudeCodeResponse
}.

(** [resultText += block.text + "\n"] for the blocks that have a text. *)
Definition collect (resultText : jsstring) (content : list ContentBlock) : jsstring :=
  fold_left (fun acc block =>
               match block with
               | TextBlock (c :: t) => acc ++ (c :: t) ++ [NL]
               | _ => acc
               end) content resultText.

(** [resultText.trim() || message.result || "Done."] *)
Definition finalTextOf (resultText : jsstring) (result : option jsstring) : jsstring :=
  match trim resultText with
  | c :: t => c :: t
  | [] => match result with
          | Some (c :: t) => c :: t
          | _ => txt "Done."
          end
  end.

(** The body of the [for await] loop; [None] when the chunking of the
    final text does not come to an end. *)
Definition onMessage (request : ClaudeCodeRequest) (p : Progress) (message : SDKMessage)
    : option Progress :=
  match message with
  | SystemInit session_id =>
      (* Capture session ID *)
      Some {| currentSessionId := session_id;
              resultText := resultText p;
              activeSessions :=
                match session_id with
                | Some (c :: t) =>
                    <[sessionKey (req_chatId request) (req_projectName request) := c :: t]>
                      (activeSessions p)
                | _ => activeSessions p
                end;
              published := published p |}
  | AssistantMessage (Some content) =>
      (* Collect text output *)
      Some {| currentSessionId := currentSessionId p;
              resultText := collect (resultText p) content;
              activeSessions := activeSessions p;
              published := published p |}
  | AssistantMessage None => Some p
  | ResultMessage result =>
      (* Handle result *)
      let finalText := finalTextOf (resultText p) result in
      match Executor.sendChunkedResponse (req_id request) (req_chatId request)
              finalText (currentSessionId p) with
      | Some events =>
          Some {| currentSessionId := currentSessionId p;
                  resultText := resultText p;
                  activeSessions := activeSessions p;
                  published := published p ++ events |}
      | None => None
      end
  | OtherMessage => Some p
  end.

Fixpoint forAwait (request : ClaudeCodeRequest) (p : Progress)
    (messages : list SDKMessage) : option Progress :=
  match messages with
  | [] => Some p
  | message :: rest =>
      match onMessage request p message with
      | Some p' => forAwait request p' rest
      | None => None
      end
  end.

(** A [claude-code:response] with a text only. *)
Definition plainResponse (request : ClaudeCodeRequest) (text : jsstring)
    : ClaudeCodeResponse :=
  {| requestId := req_id request; chatId := req_chatId request; text := text;
     sessionId := None; isPartial := None |}.

(** [executeRequest(request)]: the session table afterwards and the
    responses published, in order. *)
Definition executeRequest (config : ClaudeCodeConfig) (sessions : Sessions)
    (request : ClaudeCodeRequest) (response : Stream)
    : option (Sessions * list ClaudeCodeResponse) :=
  (* Verify authorization *)
  if negb (isAuthorizedUser config (req_userId request)) then
    Some (sessions,
          [plainResponse request
             (txt "You are not authorized to use Claude Code features.")])
  else
    (* Get project path *)
    let projectPath := getProject config (req_projectName request) in
    if negb (truthyPath projectPath) then
      let projects := listProjects config in
      let projectList :=
        match projects with
        | _ :: _ => join [NL] (map (fun p => txt "- " ++ fst p) projects)
        | [] => txt "No projects configured."
        end in
      Some (sessions,
            [plainResponse request
               (txt "Project " ++ [Parser.DQUOTE] ++ req_projectName request
                ++ [Parser.DQUOTE] ++ txt " not found." ++ [NL; NL]
                ++ txt "Available projects:" ++ [NL] ++ projectList)])
    else
      match forAwait request
              {| currentSessionId := req_sessionId request; resultText := [];
                 activeSessions := sessions; published := [] |}
              (yielded response) with
      | Some p =>
          match raised response with
          | None => Some (activeSessions p, published p)
          | Some e =>
              Some (activeSessions p,
                    published p ++ [plainResponse request (txt "Error: " ++ e)])
          end
      | None => None
      end.

End Requests.

(** ** Telegram ([inputs/telegram.ts]) *)

Module Telegram.

Definition SPACE : ascii := " "%char.

(** [s.lastIndexOf(c, pos)], a negative position counting as 0. *)
Definition lastIndexUpTo (s : jsstring) (c : ascii) (pos : Z) : Z :=
  lastIndexOf s c (Z.max pos 0).

(** [splitIndex === -1 || splitIndex < maxLength / 2], the division being
    the one of numbers. *)
Definition unusable (splitIndex maxLength : Z) : bool :=
  (splitIndex =? -1) || (2 * splitIndex <? maxLength).

(** Where one iteration of [splitMessage] cuts [remaining]. *)
Definition splitIndexOf (remaining : jsstring) (maxLength : Z) : Z :=
  (* Try to split at newline *)
  let splitIndex := lastIndexUpTo remaining NL maxLength in
  let splitIndex :=
    if unusable splitIndex maxLength
    then (* Try space *) lastIndexUpTo remaining SPACE maxLength
    else splitIndex in
  if unusable splitIndex maxLength then maxLength else splitIndex.

(** The [while] loop of [splitMessage]; [None] when [fuel] iterations were
    not enough. *)
Fixpoint splitLoop (fuel : nat) (maxLength : Z) (remaining : jsstring)
    (parts : list jsstring) : option (list jsstring) :=
  match fuel with
  | O => None
  | S fuel' =>
      if 0 <? jslength remaining then
        if jslength remaining <=? maxLength then Some (parts ++ [remaining])
        else
          let splitIndex := splitIndexOf remaining maxLength in
          splitLoop fuel' maxLength (sliceFrom remaining (splitIndex + 1))
            (parts ++ [slice remaining 0 splitIndex])
      else Some parts
  end.

(** [splitMessage(text, maxLength)], with one iteration per character and
    one more for the final test. *)
Definition splitMessage (text : jsstring) (maxLength : Z) : option (list jsstring) :=
  splitLoop (S (length text)) maxLength text [].

Definition MAX_LENGTH : Z := 4096.

(** A call of [bot.api.sendMessage]. *)
Record SendMessage := { to : jsstring; body : jsstring }.

(** The calls made for [parts], one after the other, up to the first that
    raises; [delivers n call] tells whether the call, the [n]-th made, goes
    through. The flag tells whether all did. *)
Fixpoint sendEach (delivers : nat -> SendMessage -> bool) (chatId : jsstring)
    (n : nat) (parts : list jsstring) : list SendMessage * bool :=
  match parts with
  | [] => ([], true)
  | part :: rest =>
      let call := {| to := chatId; body := part |} in
      if delivers n call then
        let '(calls, ok) := sendEach delivers chatId (S n) rest in (call :: calls, ok)
      else ([call], false)
  end.

(** [sendTelegramMessage(bot, chatId, text)]: the calls of the API, and
    whether the end of the [try] block was reached. It raises nothing. *)
Definition sendTelegramMessage (delivers : nat -> SendMessage -> bool)
    (chatId text : jsstring) : option (list SendMessage * bool) :=
  if jslength text <=? MAX_LENGTH then Some (sendEach delivers chatId 0 [text])
  else
    (* Split long messages *)
    match splitMessage text MAX_LENGTH with
    | Some parts => Some (sendEach delivers chatId 0 parts)
    | None => None
    end.

(** The data of a button of the permission keyboard:
    [`perm:${request.requestId}:allow:no`] and the like. *)
Definition buttonData (requestId : jsstring) (action remember : jsstring) : jsstring :=
  txt "perm:" ++ requestId ++ txt ":" ++ action ++ txt ":" ++ remember.

(** The keyboard sent with a permission request: two rows of two buttons,
    each a label and its data. *)
Definition permissionKeyboard (requestId : jsstring)
    : list (list (jsstring * jsstring)) :=
  [ [ (txt "Allow", buttonData requestId (txt "allow") (txt "no"));
      (txt "Allow & Remember", buttonData requestId (txt "allow") (txt "yes")) ];
    [ (txt "Deny", buttonData requestId (txt "deny") (txt "no"));
      (txt "Deny & Remember", buttonData requestId (txt "deny") (txt "yes")) ] ].

(** The handler of [callback_query:data]: the permission response it
    publishes, if any. The data is taken apart at its colons,
    ["perm:requestId:action:remember"]; a string that starts with [perm:]
    has a second part. *)
Definition onCallbackQuery (data chatId : jsstring)
    : option ClaudeCodePermissionResponse :=
  if startsWith (txt "perm:") data then
    let parts := split ":" data in
    match parts !! 1%nat with
    | Some requestId =>
        Some {| resp_requestId := requestId;
                resp_chatId := chatId;
                approved := bool_decide (parts !! 2%nat = Some (txt "allow"));
                rememberChoice := bool_decide (parts !! 3%nat = Some (txt "yes")) |}
    | None => None
    end
  else None.

(** What [handleClaudeCodeCommand] does besides changing the session table
    and the permission store. The text that lists the projects has
    characters outside the strings modelled here and is not built. *)
Inductive Effect :=
  | ReplyProjects (projects : list (jsstring * jsstring))  (* the reply lists these *)
  | Reply (text : jsstring)
  | ChatAction (action : jsstring)
  | PublishRequest (request : Requests.ClaudeCodeRequest).

Section WithHost.
Context `{Host}.

(** [handleClaudeCodeCommand(command, userId, chatId, ctx)] at the time
    [now]. *)
Definition handleClaudeCodeCommand (config : ClaudeCodeConfig) (now : Z)
    (command : Parser.ParsedCommand) (userId chatId : jsstring)
    (sessions : Requests.Sessions) (store : PermissionManager.Store)
    : Requests.Sessions * PermissionManager.Store * list Effect :=
  match command with
  | None => (sessions, store, [])
  | Some Parser.ListProjectsCommand =>
      let projects := ProjectManager.listProjects config in
      (sessions, store, [ReplyProjects projects])
  | Some (Parser.ClearSessionCommand projectName) =>
      (Requests.clearSession sessions chatId projectName, store,
       [Reply (txt "Session cleared for project: " ++ projectName)])
  | Some (Parser.ClearPermissionsCommand projectName) =>
      if negb (ProjectManager.isAuthorizedUser config userId) then
        (sessions, store, [Reply (txt "You are not authorized for this action.")])
      else
        (sessions, PermissionManager.clearProject store projectName,
         [Reply (txt "Permission memory cleared for project: " ++ projectName)])
  | Some (Parser.ClaudeCodeCommand projectName prompt) =>
      (* Check if this continues an existing session *)
      let existingSession := Requests.getActiveSession sessions chatId projectName in
      (sessions, store,
       [ ChatAction (txt "typing");
         PublishRequest
           {| Requests.req_id := txt "cc-" ++ decimal now;
              Requests.req_chatId := chatId;
              Requests.req_userId := userId;
              Requests.req_projectName := projectName;
              Requests.req_prompt := prompt;
              Requests.req_sessionId := existingSession |} ])
  end.

End WithHost.
End Telegram.

(** ** MCP servers ([mcp/client.ts])

    A connection to a server ([Client]), the schema of a tool and the input
    of a call are left open. Console output is not modelled. *)

Module MCPClientManager.
Section WithClient.
Context {Client Schema Input : Type}.

(** A tool as a server lists it. *)
Record ListedTool := {
  listed_name : jsstring;
  listed_description : option jsstring;
  inputSchema : Schema
}.

(** A tool in Claude format. *)
Record Tool := {
  name : jsstring;
  description : jsstring;
  input_schema : Schema
}.

Record MCPToolRegistry := {
  client : Client;
  tools : list Tool;
  toolNames : gset jsstring;
  registryName : jsstring
}.

(** [servers]: a [Map], which keeps its keys in the order they were first
    set. *)
Definition Servers : Type := list (jsstring * MCPToolRegistry).

(** [servers.set(key, registry)] *)
Fixpoint mapSet (servers : Servers) (key : jsstring) (registry : MCPToolRegistry)
    : Servers :=
  match servers with
  | [] => [(key, registry)]
  | (k, r) :: rest =>
      if bool_decide (k = key) then (key, registry) :: rest
      else (k, r) :: mapSet rest key registry
  end.

(** [connectServer(config)] for the server named [configName];
    [connection] is what connecting and listing the tools comes to: the
    client and the tools listed, or an exception. *)
Definition connectServer (servers : Servers) (configName : jsstring)
    (connection : outcome (Client * list ListedTool)) : outcome unit * Servers :=
  match connection with
  | Returned (client, toolList) =>
      (* Convert MCP tools to Claude format *)
      let claudeTools :=
        map (fun tool =>
               {| name := listed_name tool;
                  description := match listed_description tool with
                                 | Some d => d
                                 | None => txt ""
                                 end;
                  input_schema := inputSchema tool |}) toolList in
      let toolNames : gset jsstring := list_to_set (map listed_name toolList) in
      (* Store the client and its tools *)
      (Returned tt,
       mapSet servers configName
         {| client := client; tools := claudeTools; toolNames := toolNames;
            registryName := configName |})
  | Thrown e => (Thrown e, servers)
  end.

(** Get all tools from all connected servers *)
Definition getAllTools (servers : Servers) : list Tool :=
  concat (map (fun entry => tools (snd entry)) servers).

(** Check if a tool is provided by any MCP server *)
Definition hasTool (servers : Servers) (toolName : jsstring) : bool :=
  existsb (fun entry => bool_decide (toolName ∈ toolNames (snd entry))) servers.

(** A part of the content of a result. *)
Inductive ContentPart :=
  | TextPart (text : jsstring)      (* type text *)
  | OtherPart.

(** The texts of the parts of type text. *)
Definition textParts (content : list ContentPart) : list jsstring :=
  omap (fun part => match part with
                    | TextPart text => Some text
                    | OtherPart => None
                    end) content.

(** Execute a tool from any connected server. [callTool] is the call of
    the server, giving [result.content] ([None] when that is no array);
    [stringify] is [JSON.stringify], which gives no string for
    [undefined]. *)
Definition executeTool (servers : Servers)
    (callTool : Client -> jsstring -> Input -> outcome (option (list ContentPart)))
    (stringify : option (list ContentPart) -> option jsstring)
    (toolName : jsstring) (input : Input) : outcome (option jsstring) :=
  (* Search for the tool in all connected servers *)
  match List.find (fun entry => bool_decide (toolName ∈ toolNames (snd entry)))
          servers with
  | Some (_, registry) =>
      match callTool (client registry) toolName input with
      | Returned content =>
          (* Extract text content from result *)
          match match content with
                | Some parts => textParts parts
                | None => []
                end with
          | _ :: _ as texts => Returned (Some (join [NL] texts))
          | [] => Returned (stringify content)
          end
      | Thrown e => Thrown e
      end
  | None => Thrown (txt "MCP tool not found: " ++ toolName)
  end.

(** Disconnect all servers *)
Definition disconnectAll (servers : Servers) : Servers := [].

(** The servers after a series of connection attempts, made in order. *)
Definition connectAll (servers : Servers)
    (attempts : list (jsstring * outcome (Client * list ListedTool))) : Servers :=
  fold_left (fun s attempt => snd (connectServer s (fst attempt) (snd attempt)))
    attempts servers.

End WithClient.
Arguments ListedTool : clear implicits.
Arguments Tool : clear implicits.
Arguments MCPToolRegistry : clear implicits.
Arguments Servers : clear implicits.
End MCPClientManager.

(** ** Tools of the worker ([worker/tools.ts]) *)

Module Tools.
Section WithClient.
Context {Client Schema Input : Type}.

(** [ToolResultBlockParam]; [result_content] is [None] for [undefined],
    and [is_error] is false when the field is absent. *)
Record ToolResultBlockParam := {
  tool_use_id : jsstring;
  result_content : option jsstring;
  is_error : bool
}.

(** Get all tools from MCP servers *)
Definition getAllTools (servers : MCPClientManager.Servers Client Schema)
    : list (MCPClientManager.Tool Schema) :=
  MCPClientManager.getAllTools servers.

(** Tool execution - all tools come from MCP *)
Definition executeTool (servers : MCPClientManager.Servers Client Schema)
    (callTool : Client -> jsstring -> Input
                -> outcome (option (list MCPClientManager.ContentPart)))
    (stringify : option (list MCPClientManager.ContentPart) -> option jsstring)
    (name : jsstring) (input : Input) : ToolResultBlockParam :=
  if MCPClientManager.hasTool servers name then
    match MCPClientManager.executeTool servers callTool stringify name input with
    | Returned result =>
        {| tool_use_id := txt ""; result_content := result; is_error := false |}
    | Thrown e =>
        {| tool_use_id := txt ""; result_content := Some (txt "Error: " ++ e);
           is_error := true |}
    end
  else
    {| tool_use_id := txt "";
       result_content := Some (txt "Error: Unknown tool: " ++ name);
       is_error := true |}.

End WithClient.
End Tools.

(** ** The worker ([worker/agent.ts])

    The replies of the model are given as a script, one outcome for each
    call of the API in order; a run that needs more replies than the
    script holds has no result. Console output is not modelled. *)

Module Agent.
Import ConversationStore.
Section WithClient.
Context {Client Schema Input : Type}.

(** A block of [response.content]. *)
Inductive ContentBlock :=
  | TextBlock (text : jsstring)
  | ToolUseBlock (id name : jsstring) (input : Input)
  | OtherBlock (type : jsstring).

(** A reply of [client.messages.create]; [stop_reason] is [None] for
    [null]. *)
Record Message := {
  response_content : list ContentBlock;
  stop_reason : option jsstring
}.

(** The content of a message of the conversation: a string, the blocks of
    a reply, or tool results. *)
Inductive Content :=
  | Text (s : jsstring)
  | Blocks (blocks : list ContentBlock)
  | ToolResults (results : list Tools.ToolResultBlockParam).

Local Abbreviation Conversations := (gmap jsstring (ConversationEntry Content)).

Definition blockType (block : ContentBlock) : jsstring :=
  match block with
  | TextBlock _ => txt "text"
  | ToolUseBlock _ _ _ => txt "tool_use"
  | OtherBlock type => type
  end.

Definition isToolUse (block : ContentBlock) : bool :=
  match block with
  | ToolUseBlock _ _ _ => true
  | _ => false
  end.

Definition isText (block : ContentBlock) : bool :=
  match block with
  | TextBlock _ => true
  | _ => false
  end.

(** [String(result.content)] *)
Definition showContent (c : option jsstring) : jsstring :=
  match c with
  | Some s => s
  | None => txt "undefined"
  end.

(** The line of the debug text for one tool result. *)
Definition resultLine (result : Tools.ToolResultBlockParam) : jsstring :=
  let preview := slice (showContent (Tools.result_content result)) 0 200 in
  txt "- " ++ (if Tools.is_error result then txt "ERROR: " else [])
  ++ preview
  ++ (if 200 <? jslength (showContent (Tools.result_content result))
      then txt "..." else [])
  ++ [NL].

(** Build debug info when no text response *)
Definition debugInfo (response : Message) (messages : list (MessageParam Content))
    : jsstring :=
  let types := join (txt ", ") (map blockType (response_content response)) in
  txt "No text response from Claude." ++ [NL]
  ++ txt "Stop reason: "
  ++ match stop_reason response with Some s => s | None => txt "null" end ++ [NL]
  ++ txt "Content blocks: "
  ++ match types with _ :: _ => types | [] => txt "none" end ++ [NL]
  ++ match last messages with
     | Some {| role := user; content := ToolResults results |} =>
         [NL] ++ txt "Last tool results:" ++ [NL] ++ concat (map resultLine results)
     | Some {| role := user; content := Blocks _ |} =>
         (* an array, but the blocks of a reply hold no tool result *)
         [NL] ++ txt "Last tool results:" ++ [NL]
     | _ => []
     end.

(** The text of a reply without tool use. *)
Definition responseTextOf (response : Message) (messages : list (MessageParam Content))
    : jsstring :=
  match List.find isText (response_content response) with
  | Some (TextBlock (c :: t)) => c :: t
  | _ => debugInfo response messages
  end.

Section WithServers.
Variable servers : MCPClientManager.Servers Client Schema.
Variable callTool : Client -> jsstring -> Input
                    -> outcome (option (list MCPClientManager.ContentPart)).
Variable stringify : option (list MCPClientManager.ContentPart) -> option jsstring.

(** Execute each tool and collect results *)
Definition runTools (toolUseBlocks : list ContentBlock)
    : list Tools.ToolResultBlockParam :=
  omap (fun toolUse =>
          match toolUse with
          | ToolUseBlock id name input =>
              let result := Tools.executeTool servers callTool stringify name input in
              Some {| Tools.tool_use_id := id;
                      Tools.result_content := Tools.result_content result;
                      Tools.is_error := Tools.is_error result |}
          | _ => None
          end) toolUseBlocks.

(** The tool use loop: [messages] is the array as it stands, [sent] the
    arrays handed to the API so far. *)
Fixpoint toolLoop (replies : list (outcome Message))
    (messages : list (MessageParam Content))
    (sent : list (list (MessageParam Content)))
    : option (outcome jsstring * list (list (MessageParam Content))) :=
  match replies with
  | [] => None
  | Thrown e :: _ => Some (Thrown e, sent ++ [messages])
  | Returned response :: rest =>
      (* Check if Claude wants to use tools *)
      match List.filter isToolUse (response_content response) with
      | [] =>
          (* No tool use - extract and return text response *)
          Some (Returned (responseTextOf response messages), sent ++ [messages])
      | toolUseBlocks =>
          toolLoop rest
            (messages
             ++ [ {| role := assistant; content := Blocks (response_content response) |};
                  {| role := user; content := ToolResults (runTools toolUseBlocks) |} ])
            (sent ++ [messages])
      end
  end.

(** [processWithTools(client, chatId, userMessage)]: the result, the
    conversations afterwards and the message arrays sent to the API. The
    three times are those of the reads of the clock, in order. *)
Definition processWithTools (conversations : Conversations) (t0 t1 t2 : Z)
    (chatId userMessage : jsstring) (replies : list (outcome Message))
    : option (outcome jsstring * Conversations * list (list (MessageParam Content))) :=
  (* Get existing conversation history *)
  let '(history, conversations) := getHistory conversations t0 chatId in
  (* Build messages array with history + new message *)
  let messages := history ++ [ {| role := user; content := Text userMessage |} ] in
  match toolLoop replies messages [] with
  | Some (Returned responseText, sent) =>
      (* Save the conversation (just the user message and final assistant response) *)
      let conversations := addUserMessage conversations t1 chatId (Text userMessage) in
      let conversations := addAssistantMessage conversations t2 chatId (Text responseText) in
      Some (Returned responseText, conversations, sent)
  | Some (Thrown e, sent) => Some (Thrown e, conversations, sent)
  | None => None
  end.

Inductive Source := telegram | webhook | cron.

(** [IncomingMessage] *)
Record IncomingMessage := {
  msg_id : jsstring;
  msg_source : Source;
  msg_userId : jsstring;
  msg_chatId : jsstring;
  msg_text : jsstring
}.

(** [OutgoingResponse]; [toTelegram] is false for the source webhook. *)
Record OutgoingResponse := {
  messageId : jsstring;
  out_chatId : jsstring;
  out_text : jsstring;
  toTelegram : bool
}.

(** The subscriber of [message:incoming]: the conversations afterwards,
    the response published and the message arrays sent to the API. *)
Definition onIncoming (conversations : Conversations) (t0 t1 t2 : Z)
    (message : IncomingMessage) (replies : list (outcome Message))
    : option (Conversations * OutgoingResponse * list (list (MessageParam Content))) :=
  let respond text :=
    {| messageId := msg_id message; out_chatId := msg_chatId message; out_text := text;
       toTelegram := match msg_source message with telegram => true | _ => false end |} in
  (* Check for clear memory command *)
  if bool_decide (trim (toLowerCase (msg_text message)) = txt "/clear") then
    Some (clear conversations (msg_chatId message),
          respond (txt "Conversation history cleared."), [])
  else
    match processWithTools conversations t0 t1 t2 (msg_chatId message)
            (msg_text message) replies with
    | Some (Returned responseText, conversations, sent) =>
        Some (conversations, respond responseText, sent)
    | Some (Thrown _, conversations, sent) =>
        Some (conversations,
              respond (txt "Sorry, I encountered an error processing your message."),
              sent)
    | None => None
    end.

End WithServers.
End WithClient.
Arguments ContentBlock : clear implicits.
Arguments Message : clear implicits.
Arguments Content : clear implicits.
End Agent.

(** ** A small host for examples

    Tool inputs hold [null], booleans and strings; patterns are literal: a
    glob without wildcards matches the path equal to it, a regular
    expression without metacharacters matches the commands that contain it.
    The stores are written in a compact rendering and never read back. *)

Module Fixture.

Inductive Json := JNull | JBool (b : bool) | JString (s : jsstring).

Definition truthyJson (v : Json) : bool :=
  match v with
  | JNull => false
  | JBool b => b
  | JString s => negb (bool_decide (s = []))
  end.

Definition showJson (v : Json) : jsstring :=
  match v with
  | JNull => txt "null"
  | JBool true => txt "true"
  | JBool false => txt "false"
  | JString s => s
  end.

Fixpoint contains (p s : jsstring) : bool :=
  startsWith p s
  || match s with
     | [] => false
     | _ :: s' => contains p s'
     end.

Definition quoted (s : jsstring) : jsstring := ["034"%char] ++ s ++ ["034"%char].

Definition showConfig (c : ClaudeCodeConfig) : jsstring :=
  txt "{allowedUserId:" ++ quoted (allowedUserId c) ++ txt ",projects:{"
  ++ join (txt ",") (map (fun e => quoted (fst e) ++ txt ":" ++ quoted (snd e))
                       (projects c))
  ++ txt "}}".

Definition showMemory (m : PermissionMemory) : jsstring :=
  txt "{" ++ join (txt ",") (map (fun e => quoted (fst e)) (map_to_list m)) ++ txt "}".

#[local] Instance host : Host := {|
  JsValue := Json;
  ToBoolean := truthyJson;
  ToString := showJson;
  minimatch := fun path pat => bool_decide (path = pat);
  RegExp_test := fun pat s => Some (contains pat s);
  JSON_stringify_config := showConfig;
  JSON_parse_config := fun _ => None;
  JSON_stringify_memory := showMemory;
  JSON_parse_memory := fun _ => None
|}.

(** Texts beyond the budget: two lines; one line; short lines only. *)
Definition twoLines : jsstring := repeat "a"%char 3000 ++ [NL] ++ repeat "b"%char 1500.
Definition oneLine : jsstring := repeat "a"%char 4001.
Definition threeLines : jsstring :=
  repeat "a"%char 2000 ++ [NL] ++ repeat "b"%char 2000 ++ [NL] ++ repeat "c"%char 100.

(** The permission memory of the project blog: shell commands are allowed,
    except one. *)
Definition denyRm : PermissionRule :=
  {| tool := txt "Bash"; pattern := None; command := Some (txt "rm -rf /");
     commandPattern := None |}.
Definition allowBash : PermissionRule :=
  {| tool := txt "Bash"; pattern := None; command := None; commandPattern := None |}.
Definition blogPermissions : ProjectPermissions :=
  {| allowed := [allowBash]; denied := [denyRm] |}.
Definition blogMemory : PermissionMemory := {[ txt "blog" := blogPermissions ]}.

Definition editPost : gmap jsstring Json :=
  {[ txt "file_path" := JString (txt "/srv/blog/posts/new.md") ]}.
Definition runTests : gmap jsstring Json :=
  {[ txt "command" := JString (txt "npm test") ]}.
Definition emptyCommand : gmap jsstring Json :=
  {[ txt "command" := JString (txt "") ]}.
Definition removeAll : gmap jsstring Json :=
  {[ txt "command" := JString (txt "rm -rf /") ]}.

Definition blogConfig : ClaudeCodeConfig :=
  {| allowedUserId := txt "42";
     projects := [(txt "blog", txt "/srv/blog"); (txt "work", txt "/home/me/work")] |}.

Definition emptyDisk : FileSystem := {| files := ∅; dirs := ∅ |}.

Definition emptyStore : PermissionManager.Store :=
  {| PermissionManager.memory := ∅; PermissionManager.disk := emptyDisk |}.

(** A permissions file edited by hand: the project blog allows one command
    twice. *)
Definition allowTests : PermissionRule :=
  {| tool := txt "Bash"; pattern := None; command := Some (txt "npm test");
     commandPattern := None |}.
Definition doubledStore : PermissionManager.Store :=
  {| PermissionManager.memory :=
       {[ txt "blog" := {| allowed := [allowTests; allowTests]; denied := [] |} ]};
     PermissionManager.disk := emptyDisk |}.

End Fixture.

(** ** Vocabulary of the properties *)

(** [Chunks remaining chunks]: the splitting loop, started on [remaining],
    adds [chunks] to its array and stops. *)
Inductive Chunks : jsstring -> list jsstring -> Prop :=
  | Chunks_empty : Chunks [] []
  | Chunks_last (r : jsstring) :
      0 < jslength r -> jslength r <= Executor.MAX_CHUNK_SIZE -> Chunks r [r]
  | Chunks_cut (r : jsstring) (cs : list jsstring) :
      Executor.MAX_CHUNK_SIZE < jslength r ->
      Chunks (sliceFrom r (Executor.splitIndexOf r + 1)) cs ->
      Chunks r (slice r 0 (Executor.splitIndexOf r) :: cs).

(** [NewlineSplits remaining]: every iteration of the splitting loop,
    started on [remaining], cuts at a newline. *)
Inductive NewlineSplits : jsstring -> Prop :=
  | NewlineSplits_last (r : jsstring) :
      jslength r <= Executor.MAX_CHUNK_SIZE -> NewlineSplits r
  | NewlineSplits_cut (r : jsstring) :
      Executor.MAX_CHUNK_SIZE < jslength r ->
      charAt r (Executor.splitIndexOf r) = Some NL ->
      NewlineSplits (sliceFrom r (Executor.splitIndexOf r + 1)) ->
      NewlineSplits r.

(** No line of [s] is longer than half the budget, 2000 characters. *)
Definition shortLines (s : jsstring) : bool :=
  forallb (fun line => jslength line <=? Executor.MAX_CHUNK_SIZE / 2) (split NL s).

(** A rule without pattern, command and command pattern. *)
Definition blanket (rule : PermissionRule) : bool :=
  negb (PermissionManager.truthy (pattern rule))
  && negb (PermissionManager.truthy (command rule))
  && negb (PermissionManager.truthy (commandPattern rule)).

(** The list of a project that a decision is remembered in. *)
Definition listOf (allow : bool) (p : ProjectPermissions) : list PermissionRule :=
  if allow then allowed p else denied p.

(** The text, trimmed, has one of the recognised command forms: one of the
    six patterns matches it, or it is the list-projects command. *)
Definition recognizedForm (trimmed : jsstring) : bool :=
  let hit re := bool_decide (is_Some (Parser.jsmatch trimmed re)) in
  hit Parser.ccRe
  || bool_decide (toLowerCase trimmed = txt "/projects")
  || hit Parser.clearRe || hit Parser.permRe || hit Parser.codeRe
  || hit Parser.atRe || hit Parser.inRe.

(** The number of groups of a pattern. *)
Definition groupCount (ts : list Parser.Term) : nat :=
  length (filter (fun t => Parser.capture t = true) ts).

(** A form that does not raise. *)
Definition formOk (f : Parser.Form) : Prop :=
  match fst f with
  | Some (Thrown _) => False
  | _ => True
  end.

(** An event that is not a new permission request under the id [id]. *)
Definition otherRequest `{Host} (id : jsstring) (e : Executor.Event) : Prop :=
  match e with
  | Executor.CanUseTool id' _ _ _ _ => id' <> id
  | _ => True
  end.

(** An event that leaves the request [id], waiting on promise [p], alone:
    neither a response to it, nor its timeout, nor a request under its id. *)
Definition quiet `{Host} (id : jsstring) (p : nat) (e : Executor.Event) : Prop :=
  match e with
  | Executor.CanUseTool id' _ _ _ _ => id' <> id
  | Executor.PermissionResponse r => resp_requestId r <> id
  | Executor.TimeoutFires q => q <> p
  end.

(** The executor has no trace of the id [id]: nothing pending under it and
    no timer for it; and what is pending or armed refers to promises that
    exist, with the five-minute delay. *)
Definition unused `{Host} (id : jsstring) (s : Executor.ExecutorState) : Prop :=
  Executor.pendingPermissions s !! id = None
  /\ (forall k q, Executor.pendingPermissions s !! k = Some q ->
        (q < length (Executor.promises s))%nat)
  /\ (forall t, t ∈ Executor.timers s ->
        (Executor.t_promise t < length (Executor.promises s))%nat
        /\ Executor.t_permissionId t <> id
        /\ Executor.t_delay t = Executor.PERMISSION_TIMEOUT).

(** The request [id] has been made and waits, or has waited, on promise
    [p]: only [id] leads to [p], in the table and in the timers, and the
    resolver of [p] has not been invoked while [id] is pending and at most
    once afterwards. *)
Definition tracked `{Host} (id : jsstring) (p : nat) (s : Executor.ExecutorState)
    : Prop :=
  (forall k q, Executor.pendingPermissions s !! k = Some q ->
     (q < length (Executor.promises s))%nat /\ (q = p <-> k = id))
  /\ (forall t, t ∈ Executor.timers s ->
        (Executor.t_promise t < length (Executor.promises s))%nat
        /\ (Executor.t_promise t = p <-> Executor.t_permissionId t = id)
        /\ Executor.t_delay t = Executor.PERMISSION_TIMEOUT)
  /\ exists w, Executor.promises s !! p = Some w
       /\ ((Executor.pendingPermissions s !! id = Some p
            /\ Executor.resolveCalls w = [])
           \/ (Executor.pendingPermissions s !! id = None
               /\ (length (Executor.resolveCalls w) <= 1)%nat)).

(** The request [id] is still waiting on [p], its timer armed. *)
Definition waiting `{Host} (id : jsstring) (p : nat) (s : Executor.ExecutorState)
    : Prop :=
  tracked id p s
  /\ Executor.pendingPermissions s !! id = Some p
  /\ exists t, t ∈ Executor.timers s /\ Executor.t_promise t = p.

(** The size bound of a chunk before its part prefix. *)
Definition chunkSized (c : jsstring) : Prop :=
  0 < jslength c <= Executor.MAX_CHUNK_SIZE.

(** The messages stored for a chat, none when there is no entry. *)
Definition historyOf {Content : Type}
    (conversations : gmap jsstring (ConversationStore.ConversationEntry Content))
    (chatId : jsstring) : list (ConversationStore.MessageParam Content) :=
  match conversations !! chatId with
  | Some entry => ConversationStore.messages entry
  | None => []
  end.

(** The rule [r] has the tool, the pattern and the command of [rule]. *)
Definition sameTuple (rule r : PermissionRule) : Prop :=
  tool r = tool rule /\ pattern r = pattern rule /\ command r = command rule.

#[global] Instance sameTuple_dec (rule r : PermissionRule) : Decision (sameTuple rule r).
Proof. unfold sameTuple. apply _. Defined.

(** How many rules of a list have the tool, the pattern and the command of
    [rule]. *)
Definition countOf (rule : PermissionRule) (l : list PermissionRule) : nat :=
  length (filter (sameTuple rule) l).

(** The answer [checkPermission] reads off the two lists of a project. *)
Definition decisionOf `{Host} (p : ProjectPermissions) (toolName : jsstring)
    (input : ToolInput) : outcome PermissionManager.Decision :=
  match PermissionManager.firstMatch (denied p) toolName input with
  | Thrown e => Thrown e
  | Returned true => Returned PermissionManager.Denied
  | Returned false =>
      match PermissionManager.firstMatch (allowed p) toolName input with
      | Thrown e => Thrown e
      | Returned true => Returned PermissionManager.Allowed
      | Returned false => Returned PermissionManager.Ask
      end
  end.

(** The glob made for the file path of [input] accepts that path. *)
Definition globAcceptsOwnPath `{Host} (toolName : jsstring) (input : ToolInput) : Prop :=
  forall v pat,
    input !! txt "file_path" = Some v ->
    pattern (PermissionManager.createRule toolName input) = Some pat ->
    pat <> [] ->
    minimatch (ToString v) pat = true.

(** [Cuts maxLength remaining parts dropped]: the loop of [splitMessage],
    started on [remaining], adds [parts] to its array and stops; [dropped]
    holds the character at each index it cut at, in order. *)
Inductive Cuts (maxLength : Z) : jsstring -> list jsstring -> list ascii -> Prop :=
  | Cuts_empty : Cuts maxLength [] [] []
  | Cuts_last (r : jsstring) :
      0 < jslength r -> jslength r <= maxLength -> Cuts maxLength r [r] []
  | Cuts_cut (r : jsstring) (c : ascii) (ps : list jsstring) (ds : list ascii) :
      maxLength < jslength r ->
      charAt r (Telegram.splitIndexOf r maxLength) = Some c ->
      Cuts maxLength (sliceFrom r (Telegram.splitIndexOf r maxLength + 1)) ps ds ->
      Cuts maxLength r (slice r 0 (Telegram.splitIndexOf r maxLength) :: ps) (c :: ds).

(** The parts in order, each followed by the next of the characters
    [dropped] as long as there is one. *)
Fixpoint weave (parts : list jsstring) (dropped : list ascii) : jsstring :=
  match parts with
  | [] => []
  | p :: ps =>
      match dropped with
      | d :: ds => p ++ d :: weave ps ds
      | [] => p ++ weave ps []
      end
  end.

(** The session the table holds for a request after [messages], having
    held [current]: the id of the last init message that has one. *)
Fixpoint lastInit (messages : list Requests.SDKMessage) (current : option jsstring)
    : option jsstring :=
  match messages with
  | [] => current
  | Requests.SystemInit (Some (c :: t)) :: rest => lastInit rest (Some (c :: t))
  | _ :: rest => lastInit rest current
  end.

Definition isResult (message : Requests.SDKMessage) : bool :=
  match message with
  | Requests.ResultMessage _ => true
  | _ => false
  end.

(** A response made for [request]: it has the request's id and chat and a
    text, and no session id when more parts follow. *)
Definition answers (request : Requests.ClaudeCodeRequest) (r : ClaudeCodeResponse)
    : Prop :=
  requestId r = Requests.req_id request
  /\ chatId r = Requests.req_chatId request
  /\ text r <> []
  /\ (isPartial r = Some true -> sessionId r = None).

(** The request passes the two checks of [executeRequest]: its user is the
    authorized one and what [getProject] gives for its project is truthy,
    a path that is not empty or a member of [Object.prototype]. *)
Definition admitted (config : ClaudeCodeConfig) (request : Requests.ClaudeCodeRequest)
    : bool :=
  ProjectManager.isAuthorizedUser config (Requests.req_userId request)
  && Requests.truthyPath
       (ProjectManager.getProject config (Requests.req_projectName request)).

(** [Parsed re ts s groups]: [s] is made of one piece for each term of
    [ts], in order, a piece holding characters of the class of its term
    only, one character for a term taken once and at least one for a term
    taken one or more times; [groups] are the pieces of the captured
    terms. *)
Inductive Parsed (re : Parser.RegExp)
    : list Parser.Term -> jsstring -> list jsstring -> Prop :=
  | Parsed_nil : Parsed re [] [] []
  | Parsed_cons (t : Parser.Term) (ts : list Parser.Term) (piece rest : jsstring)
      (groups : list jsstring) :
      Forall (fun c => Parser.classMatches re (Parser.cls t) c = true) piece ->
      match Parser.quant t with
      | Parser.Once => length piece = 1%nat
      | Parser.OneOrMore => piece <> []
      | Parser.ZeroOrMore => True
      end ->
      Parsed re ts rest groups ->
      Parsed re (t :: ts) (piece ++ rest)
        (if Parser.capture t then piece :: groups else groups).

(** A project name as the parser takes it from a message: not empty, in
    lower case and without white space. *)
Definition parsedName (p : jsstring) : Prop :=
  p <> [] /\ toLowerCase p = p /\ Forall (fun c => isWhiteSpace c = false) p.

(** What a command says about the configuration and the text it was
    parsed from. *)
Definition soundCommand (config : ClaudeCodeConfig) (text : jsstring)
    (command : Parser.Command) : Prop :=
  match command with
  | Parser.ClaudeCodeCommand projectName prompt =>
      prompt <> [] /\ trim prompt = prompt
      /\ ((exists path rest,
             ProjectManager.listProjects config = (projectName, path) :: rest)
          \/ (parsedName projectName
              /\ ProjectManager.projectExists config projectName = true))
  | Parser.ListProjectsCommand => toLowerCase (trim text) = txt "/projects"
  | Parser.ClearSessionCommand projectName => parsedName projectName
  | Parser.ClearPermissionsCommand projectName => parsedName projectName
  end.

(** The names of a registry are the names of its tools. *)
Definition named {Client Schema : Type}
    (r : MCPClientManager.MCPToolRegistry Client Schema) : Prop :=
  forall t, t ∈ MCPClientManager.toolNames r
            <-> exists tool, tool ∈ MCPClientManager.tools r
                             /\ MCPClientManager.name tool = t.

(** A conversation made of exchanges: user and assistant messages in turn,
    the first of a user and the last of the assistant. *)
Fixpoint dialogue {Content : Type}
    (messages : list (ConversationStore.MessageParam Content)) : bool :=
  match messages with
  | [] => true
  | u :: rest =>
      match ConversationStore.role u, rest with
      | ConversationStore.user, a :: rest' =>
          match ConversationStore.role a with
          | ConversationStore.assistant => dialogue rest'
          | ConversationStore.user => false
          end
      | _, _ => false
      end
  end.

(** Messages as the API takes them: user and assistant messages in turn,
    the first and the last of a user. *)
Fixpoint turns {Content : Type}
    (messages : list (ConversationStore.MessageParam Content)) : bool :=
  match messages with
  | [] => false
  | u :: rest =>
      match ConversationStore.role u, rest with
      | ConversationStore.user, [] => true
      | ConversationStore.user, a :: rest' =>
          match ConversationStore.role a with
          | ConversationStore.assistant => turns rest'
          | ConversationStore.user => false
          end
      | ConversationStore.assistant, _ => false
      end
  end.

(** A reply that ends the tool use loop: one without tool use, or an
    exception. *)
Definition finalReply {Input : Type} (reply : outcome (Agent.Message Input)) : bool :=
  match reply with
  | Returned response =>
      match List.filter Agent.isToolUse (Agent.response_content response) with
      | [] => true
      | _ :: _ => false
      end
  | Thrown _ => true
  end.

(** * Properties *)

(** ** Strings *)

Lemma jslength_app (a b : jsstring) : jslength (a ++ b) = jslength a + jslength b.
Proof. unfold jslength. rewrite length_app. lia. Qed.

Lemma jslength_nonneg (s : jsstring) : 0 <= jslength s.
Proof. unfold jslength. lia. Qed.

Lemma slice_prefix (s : jsstring) (k : Z) :
  0 <= k <= jslength s -> slice s 0 k = firstn (Z.to_nat k) s.
Proof.
  intros Hk. unfold slice, relIndex.
  destruct (0 <? 0) eqn:E0; [lia|].
  destruct (k <? 0) eqn:Ek; [lia|].
  pose proof (jslength_nonneg s).
  replace (Z.min 0 (jslength s)) with 0 by lia.
  replace (Z.min k (jslength s)) with k by lia.
  simpl. now rewrite Z.sub_0_r.
Qed.

Lemma sliceFrom_suffix (s : jsstring) (k : Z) :
  0 <= k -> sliceFrom s k = skipn (Z.to_nat k) s.
Proof.
  intros Hk. unfold sliceFrom, slice, relIndex.
  pose proof (jslength_nonneg s) as Hs.
  destruct (k <? 0) eqn:Ek; [lia|].
  destruct (jslength s <? 0) eqn:El; [lia|].
  replace (Z.min (jslength s) (jslength s)) with (jslength s) by lia.
  destruct (Z.le_gt_cases k (jslength s)) as [Hle|Hgt].
  - replace (Z.min k (jslength s)) with k by lia.
    apply firstn_all2. rewrite length_skipn. unfold jslength in *. lia.
  - replace (Z.min k (jslength s)) with (jslength s) by lia.
    rewrite !skipn_all2; unfold jslength in *; try lia. now rewrite firstn_nil.
Qed.

Lemma charAt_nth (s : jsstring) (i : Z) :
  0 <= i -> charAt s i = nth_error s (Z.to_nat i).
Proof. intros Hi. unfold charAt. destruct (i <? 0) eqn:E; [lia|reflexivity]. Qed.

(** The scan returns [best] or a later index that holds [c]; no index after
    the one returned, up to [pos], holds [c]. *)
Lemma lastIndexOf_scan_spec (c : ascii) (pos : Z) (s : jsstring) :
  forall i best, 0 <= i -> best < i ->
    let r := lastIndexOf_scan s c pos i best in
    (r = best \/ (i <= r <= pos /\ nth_error s (Z.to_nat (r - i)) = Some c))
    /\ (forall j, i <= j <= pos -> r < j ->
          nth_error s (Z.to_nat (j - i)) <> Some c).
Proof.
  induction s as [|x s IH]; intros i best Hi Hb; simpl.
  - split; [now left|]. intros j _ _. now destruct (Z.to_nat (j - i)).
  - destruct (pos <? i) eqn:Ep.
    + split; [now left|]. intros j Hj _. lia.
    + destruct (IH (i + 1) (if Ascii.eqb x c then i else best))
        as [Hr Hmax]; [lia|destruct (Ascii.eqb x c); lia|].
      set (r := lastIndexOf_scan s c pos (i + 1) _) in *.
      split.
      * destruct Hr as [Hr|[Hr1 Hr2]].
        -- destruct (Ascii.eqb x c) eqn:Ex; [|now left].
           right. rewrite Hr. apply Ascii.eqb_eq in Ex. subst x.
           replace (Z.to_nat (i - i)) with O by lia. split; [lia|reflexivity].
        -- right. split; [lia|].
           replace (Z.to_nat (r - i)) with (S (Z.to_nat (r - (i + 1)))) by lia.
           exact Hr2.
      * intros j Hj Hrj.
        destruct (Z.eq_dec j i) as [->|Hne].
        -- replace (Z.to_nat (i - i)) with O by lia. simpl.
           intros [= ->]. rewrite Ascii.eqb_refl in *.
           destruct Hr as [Hr|[Hr1 _]]; lia.
        -- replace (Z.to_nat (j - i)) with (S (Z.to_nat (j - (i + 1)))) by lia.
           simpl. apply Hmax; lia.
Qed.

Lemma lastIndexOf_spec (s : jsstring) (c : ascii) (pos : Z) :
  let r := lastIndexOf s c pos in
  (r = -1 \/ (0 <= r <= pos /\ charAt s r = Some c))
  /\ (forall j, 0 <= j <= pos -> r < j -> charAt s j <> Some c).
Proof.
  unfold lastIndexOf.
  destruct (lastIndexOf_scan_spec c pos s 0 (-1)) as [Hr Hmax]; [lia|lia|].
  split.
  - destruct Hr as [Hr|[Hr1 Hr2]]; [now left|right].
    split; [exact Hr1|]. rewrite charAt_nth by lia.
    now rewrite Z.sub_0_r in Hr2.
  - intros j Hj Hlt. rewrite charAt_nth by lia.
    specialize (Hmax j Hj Hlt). now rewrite Z.sub_0_r in Hmax.
Qed.

(** ** Chunked delivery *)

Section Chunking.
Import Executor.

Ltac length_contra :=
  exfalso; unfold jslength, MAX_CHUNK_SIZE in *; cbn [length] in *; lia.

Lemma half_budget : MAX_CHUNK_SIZE / 2 = 2000.
Proof. reflexivity. Qed.

Lemma splitIndexOf_range (r : jsstring) :
  2000 <= splitIndexOf r <= MAX_CHUNK_SIZE.
Proof.
  unfold splitIndexOf. rewrite half_budget.
  destruct (lastIndexOf_spec r NL MAX_CHUNK_SIZE) as [Hr _].
  set (i := lastIndexOf r NL MAX_CHUNK_SIZE) in *.
  unfold MAX_CHUNK_SIZE in *.
  destruct (i =? -1) eqn:E1; cbn [orb]; [lia|].
  destruct (i <? 2000) eqn:E2; [lia|].
  apply Z.ltb_ge in E2. apply Z.eqb_neq in E1.
  destruct Hr as [Hr|[Hr _]]; lia.
Qed.

Lemma length_cut_prefix (r : jsstring) :
  MAX_CHUNK_SIZE < jslength r ->
  slice r 0 (splitIndexOf r) = firstn (Z.to_nat (splitIndexOf r)) r
  /\ jslength (slice r 0 (splitIndexOf r)) = splitIndexOf r.
Proof.
  intros Hlen. pose proof (splitIndexOf_range r) as Hi.
  unfold MAX_CHUNK_SIZE in *.
  rewrite slice_prefix by lia. split; [reflexivity|].
  unfold jslength in *. rewrite length_firstn. lia.
Qed.

Lemma length_cut_suffix (r : jsstring) :
  MAX_CHUNK_SIZE < jslength r ->
  sliceFrom r (splitIndexOf r + 1) = skipn (S (Z.to_nat (splitIndexOf r))) r
  /\ (length (sliceFrom r (splitIndexOf r + 1)) < length r)%nat.
Proof.
  intros Hlen. pose proof (splitIndexOf_range r) as Hi.
  unfold MAX_CHUNK_SIZE in *.
  rewrite sliceFrom_suffix by lia.
  replace (Z.to_nat (splitIndexOf r + 1)) with (S (Z.to_nat (splitIndexOf r))) by lia.
  split; [reflexivity|]. rewrite length_skipn. unfold jslength in *. lia.
Qed.

(** With more iterations allowed than [remaining] has characters, the loop
    stops, and what it adds does not depend on the allowance. *)
Lemma splitLoop_Chunks (fuel : nat) :
  forall r, (length r < fuel)%nat ->
    exists cs, Chunks r cs /\ forall acc, splitLoop fuel r acc = Some (acc ++ cs).
Proof.
  induction fuel as [|fuel IH]; intros r Hfuel; [lia|].
  simpl. destruct (0 <? jslength r) eqn:E0.
  - destruct (jslength r <=? MAX_CHUNK_SIZE) eqn:E1.
    + exists [r]. split; [|reflexivity].
      apply Chunks_last; lia.
    + apply Z.leb_gt in E1.
      destruct (length_cut_suffix r E1) as [_ Hshort].
      destruct (IH (sliceFrom r (splitIndexOf r + 1))) as (cs & Hcs & Hloop); [lia|].
      exists (slice r 0 (splitIndexOf r) :: cs). split.
      * now apply Chunks_cut.
      * intros acc. rewrite Hloop. now rewrite <- app_assoc.
  - exists []. split.
    + destruct r; [constructor|].
      apply Z.ltb_ge in E0. unfold jslength in E0. cbn [length] in E0. lia.
    + intros acc. now rewrite app_nil_r.
Qed.

Lemma Chunks_deterministic (r : jsstring) (cs : list jsstring) :
  Chunks r cs -> forall cs', Chunks r cs' -> cs = cs'.
Proof.
  induction 1 as [|r H0 H1|r cs Hlen Hrest IH]; intros cs' Hcs'.
  - inversion Hcs'; subst; try reflexivity; length_contra.
  - inversion Hcs'; subst; try reflexivity; length_contra.
  - inversion Hcs'; subst.
    + length_contra.
    + length_contra.
    + f_equal. now apply IH.
Qed.

Lemma Chunks_sized (r : jsstring) (cs : list jsstring) :
  Chunks r cs -> Forall chunkSized cs.
Proof.
  induction 1 as [|r H0 H1|r cs Hlen Hrest IH].
  - constructor.
  - constructor; [split; assumption|constructor].
  - constructor; [|exact IH].
    destruct (length_cut_prefix r Hlen) as [_ Hl].
    pose proof (splitIndexOf_range r) as Hi.
    unfold chunkSized. rewrite Hl. unfold MAX_CHUNK_SIZE in *. lia.
Qed.

Lemma Chunks_nonempty (r : jsstring) (cs : list jsstring) :
  Chunks r cs -> 0 < jslength r -> cs <> [].
Proof. destruct 1; intros Hl; [length_contra|discriminate..]. Qed.

Lemma splitChunks_total (t : jsstring) :
  exists cs, Chunks t cs /\ splitChunks t = Some cs.
Proof.
  destruct (splitLoop_Chunks (S (length t)) t) as (cs & Hcs & Hloop); [lia|].
  exists cs. split; [exact Hcs|]. unfold splitChunks. now rewrite Hloop.
Qed.

Lemma startsWith_app (p s : jsstring) : startsWith p (p ++ s) = true.
Proof. induction p as [|a p IH]; simpl; [reflexivity|]. now rewrite Ascii.eqb_refl. Qed.

(** What the publishing loop sends for a text beyond the budget. *)
Lemma sendChunkedResponse_long (rid cid t : jsstring) (sid : option jsstring) :
  MAX_CHUNK_SIZE < jslength t ->
  exists cs, Chunks t cs /\ cs <> []
    /\ sendChunkedResponse rid cid t sid
       = Some (imap (partEvent rid cid sid (Z.of_nat (length cs))) cs).
Proof.
  intros Hlen. destruct (splitChunks_total t) as (cs & Hcs & Hsplit).
  exists cs. split; [exact Hcs|]. split.
  - apply (Chunks_nonempty t cs Hcs). unfold MAX_CHUNK_SIZE in Hlen. lia.
  - unfold sendChunkedResponse. apply Z.leb_gt in Hlen. now rewrite Hlen, Hsplit.
Qed.

(** *** Splits made on newlines *)

Lemma split_cons (c x : ascii) (s : jsstring) :
  exists seg segs, split c s = seg :: segs
    /\ split c (x :: s) = if Ascii.eqb x c then [] :: seg :: segs
                          else (x :: seg) :: segs.
Proof.
  assert (Hne : exists seg segs, split c s = seg :: segs).
  { destruct s as [|y s]; simpl; [eauto|].
    destruct (Ascii.eqb y c); [eauto|]. destruct (split c s); eauto. }
  destruct Hne as (seg & segs & Hs). exists seg, segs. split; [exact Hs|].
  simpl. now rewrite Hs.
Qed.

Lemma shortLines_tail (x : ascii) (s : jsstring) :
  shortLines (x :: s) = true -> shortLines s = true.
Proof.
  unfold shortLines. destruct (split_cons NL x s) as (seg & segs & Hs & Hx).
  rewrite Hx, Hs. destruct (Ascii.eqb x NL); cbn [forallb].
  - intros H. apply andb_prop in H. tauto.
  - intros H. apply andb_prop in H. destruct H as [H1 H2].
    rewrite H2, andb_true_r. apply Z.leb_le. apply Z.leb_le in H1.
    unfold jslength in *. cbn [length] in H1. lia.
Qed.

Lemma shortLines_skipn (n : nat) :
  forall s, shortLines s = true -> shortLines (skipn n s) = true.
Proof.
  induction n as [|n IH]; intros s Hs; [exact Hs|].
  destruct s as [|x s]; [exact Hs|]. simpl. apply IH.
  exact (shortLines_tail x s Hs).
Qed.

(** A text of short lines that is longer than a line may be has a newline
    among its first 2001 characters. *)
Lemma shortLines_first_newline (s : jsstring) :
  shortLines s = true -> 2000 < jslength s ->
  exists j, 0 <= j <= 2000 /\ charAt s j = Some NL.
Proof.
  unfold shortLines. rewrite half_budget.
  enough (Hgen : forall s, exists seg segs, split NL s = seg :: segs
            /\ (jslength seg < jslength s ->
                charAt s (jslength seg) = Some NL)
            /\ jslength seg <= jslength s).
  { destruct (Hgen s) as (seg & segs & Hs & Hnl & Hle). rewrite Hs.
    cbn [forallb]. intros H Hlen. apply andb_prop in H. destruct H as [H _].
    apply Z.leb_le in H. exists (jslength seg).
    pose proof (jslength_nonneg seg). split; [lia|]. apply Hnl. lia. }
  clear s. induction s as [|x s IH].
  - exists [], []. split; [reflexivity|]. split; [|lia]. intros H. lia.
  - destruct IH as (seg & segs & Hs & Hnl & Hle).
    destruct (split_cons NL x s) as (seg' & segs' & Hs' & Hx).
    rewrite Hs in Hs'. injection Hs' as <- <-.
    destruct (Ascii.eqb x NL) eqn:Ex.
    + exists [], (seg :: segs). split; [exact Hx|]. apply Ascii.eqb_eq in Ex.
      subst x. split; [reflexivity|]. unfold jslength. cbn [length]. lia.
    + exists (x :: seg), segs. split; [exact Hx|].
      unfold jslength in *. cbn [length]. split; [|lia].
      intros Hlt. rewrite charAt_nth by lia.
      rewrite charAt_nth in Hnl by lia.
      replace (Z.to_nat (Z.of_nat (S (length seg)))) with (S (length seg)) by lia.
      rewrite Nat2Z.id in Hnl. simpl. apply Hnl. lia.
Qed.

(** In a text of short lines the loop always finds its newline. *)
Lemma shortLines_cut_on_newline (r : jsstring) :
  shortLines r = true -> MAX_CHUNK_SIZE < jslength r ->
  charAt r (splitIndexOf r) = Some NL.
Proof.
  intros Hshort Hlen.
  destruct (shortLines_first_newline (skipn 2000 r)) as (j & Hj & Hnl).
  { now apply shortLines_skipn. }
  { unfold jslength, MAX_CHUNK_SIZE in *. rewrite length_skipn. lia. }
  rewrite charAt_nth in Hnl by lia. rewrite nth_error_skipn in Hnl.
  destruct (lastIndexOf_spec r NL MAX_CHUNK_SIZE) as [Hr Hmax].
  unfold splitIndexOf. rewrite half_budget.
  set (i := lastIndexOf r NL MAX_CHUNK_SIZE) in *.
  assert (Hij : 2000 + j <= i).
  { destruct (Z.le_gt_cases (2000 + j) i) as [Hle|Hgt]; [exact Hle|].
    exfalso. apply (Hmax (2000 + j)); [unfold MAX_CHUNK_SIZE; lia|lia|].
    rewrite charAt_nth by lia.
    replace (Z.to_nat (2000 + j)) with (2000 + Z.to_nat j)%nat by lia.
    exact Hnl. }
  destruct (i =? -1) eqn:E1; [apply Z.eqb_eq in E1; lia|].
  destruct (i <? 2000) eqn:E2; [apply Z.ltb_lt in E2; lia|].
  cbn [orb]. destruct Hr as [Hr|[_ Hr]]; [lia|exact Hr].
Qed.

Lemma join_cons (sep c : jsstring) (cs : list jsstring) :
  cs <> [] -> join sep (c :: cs) = c ++ sep ++ join sep cs.
Proof. destruct cs; [congruence|reflexivity]. Qed.

(** When every split is made on a newline, the chunks are the pieces of the
    text between those newlines; a newline that ends the text right after
    the last split is dropped with it. *)
Lemma Chunks_join (r : jsstring) (cs : list jsstring) :
  Chunks r cs -> NewlineSplits r -> 0 < jslength r ->
  r = join [NL] cs \/ r = join [NL] cs ++ [NL].
Proof.
  induction 1 as [|r H0 H1|r cs Hlen Hrest IH]; intros Hsplits Hpos.
  - length_contra.
  - now left.
  - destruct Hsplits as [r Hshort|r _ Hnl Hsplits']; [lia|].
    pose proof (splitIndexOf_range r) as Hi.
    destruct (length_cut_prefix r Hlen) as [Hpre _].
    destruct (length_cut_suffix r Hlen) as [Hsuf _].
    rewrite charAt_nth in Hnl by lia.
    apply firstn_skipn_middle in Hnl.
    rewrite Hpre. rewrite Hsuf in Hrest, IH, Hsplits'.
    remember (firstn (Z.to_nat (splitIndexOf r)) r) as c eqn:Ec.
    remember (skipn (S (Z.to_nat (splitIndexOf r))) r) as rest eqn:Erest.
    clear Ec Erest Hpre Hsuf.
    destruct rest as [|y rest'].
    + inversion Hrest; subst; try length_contra.
      right. reflexivity.
    + assert (Hne : cs <> []).
      { apply (Chunks_nonempty _ _ Hrest). unfold jslength. cbn [length]. lia. }
      rewrite (join_cons [NL] c cs Hne).
      destruct IH as [IH|IH]; [exact Hsplits'|unfold jslength; cbn [length]; lia| |].
      * left. rewrite <- IH. now rewrite <- Hnl at 1.
      * right. rewrite <- Hnl at 1. rewrite IH at 1.
        now rewrite <- !app_assoc.
Qed.

(** A text without a line longer than 2000 characters is split on newlines
    only. *)
Lemma shortLines_NewlineSplits (n : nat) :
  forall r, (length r < n)%nat -> shortLines r = true -> NewlineSplits r.
Proof.
  induction n as [|n IH]; intros r Hn Hshort; [lia|].
  destruct (Z.le_gt_cases (jslength r) MAX_CHUNK_SIZE) as [Hle|Hgt].
  - now apply NewlineSplits_last.
  - apply NewlineSplits_cut; [exact Hgt| |].
    + now apply shortLines_cut_on_newline.
    + destruct (length_cut_suffix r Hgt) as [Hsuf Hless].
      apply IH; [lia|]. rewrite Hsuf. now apply shortLines_skipn.
Qed.

End Chunking.

(** C9. For every text longer than 4000 characters the splitting loop of
    [sendChunkedResponse] terminates (any allowance of iterations above the
    length of the text gives the same chunks), every chunk is nonempty and
    at most 4000 characters long, and each published text is its part
    prefix followed by its chunk, so that it exceeds 4000 characters by no
    more than the length of the prefix. *)
Theorem sendChunkedResponse_chunks_bounded
    (rid cid t : jsstring) (sid : option jsstring) :
  Executor.MAX_CHUNK_SIZE < jslength t ->
  exists chunks events,
    (forall fuel acc, (length t < fuel)%nat ->
       Executor.splitLoop fuel t acc = Some (acc ++ chunks))
    /\ Forall chunkSized chunks
    /\ Executor.sendChunkedResponse rid cid t sid = Some events
    /\ length events = length chunks
    /\ forall (i : nat) e, events !! i = Some e ->
         exists c, chunks !! i = Some c
           /\ text e = Executor.partIndicator (Z.of_nat i) (Z.of_nat (length chunks)) ++ c
           /\ jslength (text e)
              <= jslength (Executor.partIndicator (Z.of_nat i) (Z.of_nat (length chunks)))
                 + Executor.MAX_CHUNK_SIZE.
Proof.
  intros Hlen.
  destruct (sendChunkedResponse_long rid cid t sid Hlen) as (cs & Hcs & Hne & Hsend).
  exists cs, (imap (Executor.partEvent rid cid sid (Z.of_nat (length cs))) cs).
  split; [|split; [|split; [|split]]].
  - intros fuel acc Hfuel.
    destruct (splitLoop_Chunks fuel t Hfuel) as (cs' & Hcs' & Hloop).
    rewrite Hloop. now rewrite (Chunks_deterministic t cs Hcs cs' Hcs').
  - exact (Chunks_sized t cs Hcs).
  - exact Hsend.
  - apply length_imap.
  - intros i e Hi. rewrite list_lookup_imap in Hi.
    destruct (cs !! i) as [c|] eqn:Hc; [|discriminate].
    simpl in Hi. injection Hi as <-. exists c. split; [reflexivity|].
    split; [reflexivity|]. simpl. rewrite jslength_app.
    pose proof (Chunks_sized t cs Hcs) as Hall.
    rewrite Forall_forall in Hall.
    assert (Hin : c ∈ cs) by (apply list_elem_of_lookup; eauto).
    specialize (Hall c Hin). unfold chunkSized in Hall. lia.
Qed.

Lemma sendChunkedResponse_chunks_bounded_witness :
  exists chunks events,
    (forall fuel acc, (length Fixture.oneLine < fuel)%nat ->
       Executor.splitLoop fuel Fixture.oneLine acc = Some (acc ++ chunks))
    /\ Forall chunkSized chunks
    /\ Executor.sendChunkedResponse (txt "cc-1") (txt "7") Fixture.oneLine None
       = Some events
    /\ length events = length chunks
    /\ forall (i : nat) e, events !! i = Some e ->
         exists c, chunks !! i = Some c
           /\ text e = Executor.partIndicator (Z.of_nat i) (Z.of_nat (length chunks)) ++ c
           /\ jslength (text e)
              <= jslength (Executor.partIndicator (Z.of_nat i) (Z.of_nat (length chunks)))
                 + Executor.MAX_CHUNK_SIZE.
Proof.
  apply (sendChunkedResponse_chunks_bounded (txt "cc-1") (txt "7") Fixture.oneLine None).
  vm_compute. reflexivity.
Defined.

(** C7. Whenever [sendChunkedResponse] publishes N > 1 events, the text of
    the i-th begins with "[Part i/N]", the last one carries the session id
    and is not partial, and every earlier one is partial and carries no
    session id. *)
Theorem sendChunkedResponse_parts
    (rid cid t : jsstring) (sid : option jsstring)
    (events : list ClaudeCodeResponse) :
  Executor.sendChunkedResponse rid cid t sid = Some events ->
  (1 < length events)%nat ->
  forall (i : nat) e, events !! i = Some e ->
    startsWith (txt "[Part " ++ decimal (Z.of_nat i + 1) ++ txt "/"
                ++ decimal (Z.of_nat (length events)) ++ txt "]") (text e) = true
    /\ (S i = length events -> sessionId e = sid /\ isPartial e = Some false)
    /\ ((S i < length events)%nat -> sessionId e = None /\ isPartial e = Some true).
Proof.
  intros Hsend Hn i e Hi. unfold Executor.sendChunkedResponse in Hsend.
  destruct (jslength t <=? Executor.MAX_CHUNK_SIZE).
  { injection Hsend as <-. simpl in Hn. lia. }
  destruct (Executor.splitChunks t) as [cs|]; [|discriminate].
  injection Hsend as <-. rewrite length_imap in *.
  rewrite list_lookup_imap in Hi.
  destruct (cs !! i) as [c|] eqn:Hc; [|discriminate].
  simpl in Hi. injection Hi as <-. cbn [text sessionId isPartial Executor.partEvent].
  split; [|split].
  - unfold Executor.partIndicator.
    replace (1 <? Z.of_nat (length cs)) with true by (symmetry; apply Z.ltb_lt; lia).
    match goal with
    | |- startsWith ?p ?x = true =>
        replace x with (p ++ ([NL; NL] ++ c))
          by (rewrite <- !app_assoc; reflexivity)
    end.
    apply startsWith_app.
  - intros Hlast.
    replace (Z.of_nat i =? Z.of_nat (length cs) - 1) with true
      by (symmetry; apply Z.eqb_eq; lia).
    split; reflexivity.
  - intros Hearlier.
    replace (Z.of_nat i =? Z.of_nat (length cs) - 1) with false
      by (symmetry; apply Z.eqb_neq; lia).
    split; reflexivity.
Qed.

Lemma sendChunkedResponse_parts_witness :
  let first :=
    {| requestId := txt "cc-1"; chatId := txt "7";
       text := txt "[Part 1/2]" ++ [NL; NL] ++ repeat "a"%char 3000;
       sessionId := None; isPartial := Some true |} in
  let second :=
    {| requestId := txt "cc-1"; chatId := txt "7";
       text := txt "[Part 2/2]" ++ [NL; NL] ++ repeat "b"%char 1500;
       sessionId := Some (txt "s-9"); isPartial := Some false |} in
  startsWith (txt "[Part " ++ decimal (Z.of_nat 1 + 1) ++ txt "/"
              ++ decimal (Z.of_nat (length [first; second])) ++ txt "]")
    (text second) = true
  /\ (2%nat = length [first; second] ->
      sessionId second = Some (txt "s-9") /\ isPartial second = Some false)
  /\ ((2 < length [first; second])%nat ->
      sessionId second = None /\ isPartial second = Some true).
Proof.
  intros first second.
  apply (sendChunkedResponse_parts (txt "cc-1") (txt "7") Fixture.twoLines
           (Some (txt "s-9")) [first; second]).
  - vm_compute. reflexivity.
  - simpl. lia.
  - reflexivity.
Defined.

(** C1, as the claim has it, fails: a split made on a newline leaves the
    newline out of every chunk, so the chunks concatenated are one character
    short of the text; and a text of 4001 characters on one line is
    published as its first 4000 characters. *)
Lemma sendChunkedResponse_roundtrip_counterexample :
  (exists chunks,
     Executor.sendChunkedResponse (txt "cc-1") (txt "7") Fixture.twoLines None
     = Some (imap (Executor.partEvent (txt "cc-1") (txt "7") None
                     (Z.of_nat (length chunks))) chunks)
     /\ chunks = [repeat "a"%char 3000; repeat "b"%char 1500]
     /\ concat chunks <> Fixture.twoLines)
  /\ Executor.sendChunkedResponse (txt "cc-1") (txt "7") Fixture.oneLine None
     = Some [ {| requestId := txt "cc-1"; chatId := txt "7";
                 text := repeat "a"%char 4000;
                 sessionId := None; isPartial := Some false |} ]
  /\ repeat "a"%char 4000 <> Fixture.oneLine.
Proof.
  split; [|split].
  - exists [repeat "a"%char 3000; repeat "b"%char 1500].
    split; [vm_compute; reflexivity|]. split; [reflexivity|].
    intros Heq. apply (f_equal (@length ascii)) in Heq.
    vm_compute in Heq. discriminate.
  - vm_compute. reflexivity.
  - intros Heq. apply (f_equal (@length ascii)) in Heq.
    vm_compute in Heq. discriminate.
Qed.

(** C1, amended. A text of at most 4000 characters is published as exactly
    one response event, whose text is the original, with no part prefix. A
    longer text all of whose splits are made on newlines is published as
    part prefixes followed by chunks which, joined by the newlines they were
    split on, give back the original text (without its last character when
    that is the newline of the last split). *)
Theorem sendChunkedResponse_roundtrip
    (rid cid t : jsstring) (sid : option jsstring) :
  (jslength t <= Executor.MAX_CHUNK_SIZE ->
   Executor.sendChunkedResponse rid cid t sid
   = Some [ {| requestId := rid; chatId := cid; text := t;
               sessionId := sid; isPartial := None |} ])
  /\ (Executor.MAX_CHUNK_SIZE < jslength t -> NewlineSplits t ->
      exists chunks,
        Executor.sendChunkedResponse rid cid t sid
        = Some (imap (Executor.partEvent rid cid sid (Z.of_nat (length chunks)))
                  chunks)
        /\ (t = join [NL] chunks \/ t = join [NL] chunks ++ [NL])).
Proof.
  split.
  - intros Hlen. unfold Executor.sendChunkedResponse.
    apply Z.leb_le in Hlen. now rewrite Hlen.
  - intros Hlen Hsplits.
    destruct (sendChunkedResponse_long rid cid t sid Hlen) as (cs & Hcs & _ & Hsend).
    exists cs. split; [exact Hsend|].
    apply (Chunks_join t cs Hcs Hsplits). unfold Executor.MAX_CHUNK_SIZE in Hlen. lia.
Qed.

Lemma sendChunkedResponse_roundtrip_witness :
  Executor.sendChunkedResponse (txt "cc-1") (txt "7") (txt "Done.") None
  = Some [ {| requestId := txt "cc-1"; chatId := txt "7"; text := txt "Done.";
              sessionId := None; isPartial := None |} ]
  /\ exists chunks,
       Executor.sendChunkedResponse (txt "cc-1") (txt "7") Fixture.threeLines None
       = Some (imap (Executor.partEvent (txt "cc-1") (txt "7") None
                       (Z.of_nat (length chunks))) chunks)
       /\ (Fixture.threeLines = join [NL] chunks
           \/ Fixture.threeLines = join [NL] chunks ++ [NL]).
Proof.
  split.
  - apply (proj1 (sendChunkedResponse_roundtrip (txt "cc-1") (txt "7") (txt "Done.") None)).
    vm_compute. discriminate.
  - apply (proj2 (sendChunkedResponse_roundtrip (txt "cc-1") (txt "7")
                    Fixture.threeLines None)).
    + vm_compute. reflexivity.
    + apply NewlineSplits_cut.
      * vm_compute. reflexivity.
      * vm_compute. reflexivity.
      * apply NewlineSplits_last. vm_compute. discriminate.
Defined.

(** The texts of short lines are among those split on newlines only. *)
Corollary short_lines_rejoin
    (rid cid t : jsstring) (sid : option jsstring) :
  Executor.MAX_CHUNK_SIZE < jslength t -> shortLines t = true ->
  exists chunks,
    Executor.sendChunkedResponse rid cid t sid
    = Some (imap (Executor.partEvent rid cid sid (Z.of_nat (length chunks))) chunks)
    /\ (t = join [NL] chunks \/ t = join [NL] chunks ++ [NL]).
Proof.
  intros Hlen Hshort.
  destruct (sendChunkedResponse_long rid cid t sid Hlen) as (cs & Hcs & _ & Hsend).
  exists cs. split; [exact Hsend|].
  apply (Chunks_join t cs Hcs).
  - apply (shortLines_NewlineSplits (S (length t))); [lia|exact Hshort].
  - unfold Executor.MAX_CHUNK_SIZE in Hlen. lia.
Qed.

(** The 9000 characters of the specification's example, on one line: three
    labelled parts, the session id on the third; the two characters at
    the cuts are in no part. *)
Example nine_thousand_characters :
  exists e1 e2 e3,
    Executor.sendChunkedResponse (txt "cc-1") (txt "7") (repeat "a"%char (9 * 1000))
      (Some (txt "s-9")) = Some [e1; e2; e3]
    /\ text e1 = txt "[Part 1/3]" ++ [NL; NL] ++ repeat "a"%char 4000
    /\ text e2 = txt "[Part 2/3]" ++ [NL; NL] ++ repeat "a"%char 4000
    /\ text e3 = txt "[Part 3/3]" ++ [NL; NL] ++ repeat "a"%char 998
    /\ map sessionId [e1; e2; e3] = [None; None; Some (txt "s-9")]
    /\ map isPartial [e1; e2; e3] = [Some true; Some true; Some false].
Proof.
  eexists _, _, _. split; [vm_compute; reflexivity|].
  repeat split; vm_compute; reflexivity.
Qed.

(** ** Permission store *)

Section Permissions.
Context `{Host}.
Import PermissionManager.

Lemma truthy_spec (o : option jsstring) :
  truthy o = true <-> exists s, o = Some s /\ s <> [].
Proof.
  split.
  - destruct o as [[|c s]|]; try discriminate. intros _. now exists (c :: s).
  - intros (s & -> & Hs). destruct s; [congruence|reflexivity].
Qed.

Lemma existsb_elem_of {A} (f : A -> bool) (l : list A) :
  existsb f l = true <-> exists x, x ∈ l /\ f x = true.
Proof.
  rewrite existsb_exists. split; intros (x & Hx & Hf); exists x;
    (split; [now apply list_elem_of_In|exact Hf]).
Qed.

Lemma existsb_none {A} (f : A -> bool) (l : list A) :
  (forall x, x ∈ l -> f x <> true) -> existsb f l = false.
Proof.
  intros Hall. destruct (existsb f l) eqn:E; [|reflexivity].
  apply existsb_elem_of in E. destruct E as (x & Hx & Hf). now destruct (Hall x Hx).
Qed.

(** *** Reading the memory *)

Lemma lookup_Own (m : PermissionMemory) (p : jsstring) (perms : ProjectPermissions) :
  lookup m p = Own perms <-> m !! p = Some perms.
Proof.
  unfold lookup, JsObject.get. destruct (m !! p) as [x|].
  - split; intros E; injection E as ->; reflexivity.
  - destruct (inherited p); split; discriminate.
Qed.

Lemma lookup_Inherited (m : PermissionMemory) (p : jsstring) :
  lookup m p = Inherited <-> m !! p = None /\ inherited p = true.
Proof.
  unfold lookup, JsObject.get. destruct (m !! p) as [x|].
  - split; [discriminate|intros [? _]; discriminate].
  - destruct (inherited p); split; try discriminate; try tauto.
    intros [_ ?]; discriminate.
Qed.

Lemma lookup_Undefined (m : PermissionMemory) (p : jsstring) :
  lookup m p = Undefined <-> m !! p = None /\ inherited p = false.
Proof.
  unfold lookup, JsObject.get. destruct (m !! p) as [x|].
  - split; [discriminate|intros [? _]; discriminate].
  - destruct (inherited p); split; try discriminate; try tauto.
    intros [_ ?]; discriminate.
Qed.

(** The own rules of a project are those of the entry read, when the read
    finds an own entry, and none otherwise. *)
Lemma lookup_total_Own (m : PermissionMemory) (p : jsstring) (perms : ProjectPermissions) :
  lookup m p = Own perms -> m !!! p = perms.
Proof. intros E. apply lookup_Own in E. now rewrite lookup_total_alt, E. Qed.

Lemma lookup_total_not_Own (m : PermissionMemory) (p : jsstring) :
  (forall perms, lookup m p <> Own perms) -> m !!! p = {| allowed := []; denied := [] |}.
Proof.
  intros Hno. rewrite lookup_total_alt. destruct (m !! p) as [x|] eqn:E; [|reflexivity].
  destruct (Hno x). now apply lookup_Own.
Qed.

(** *** One rule *)

Lemma matchesCommand_spec (rule : PermissionRule) (cmd : jsstring) :
  matchesCommand rule cmd = Returned true <->
  (command rule = Some cmd /\ cmd <> [])
  \/ (exists cp, commandPattern rule = Some cp /\ cp <> []
        /\ RegExp_test cp cmd = Some true).
Proof.
  unfold matchesCommand.
  destruct (truthy (command rule) && bool_decide (command rule = Some cmd)) eqn:Ec.
  - apply andb_prop in Ec. destruct Ec as [Ht Hc]. apply bool_decide_eq_true in Hc.
    split; [intros _|reflexivity]. left. split; [exact Hc|].
    rewrite Hc in Ht. destruct cmd; [discriminate|congruence].
  - assert (Hno : ~ (command rule = Some cmd /\ cmd <> [])).
    { intros [Hc Hne]. rewrite Hc in Ec. rewrite bool_decide_eq_true_2 in Ec by reflexivity.
      destruct cmd; [congruence|discriminate]. }
    destruct (commandPattern rule) as [[|c cp]|].
    + split; [discriminate|]. intros [?|(cp & Hcp & Hne & _)]; [tauto|congruence].
    + destruct (RegExp_test (c :: cp) cmd) as [b|] eqn:Er.
      * split.
        -- intros E. injection E as ->. right. exists (c :: cp).
           split; [reflexivity|]. split; [discriminate|exact Er].
        -- intros [?|(cp' & Hcp & _ & Hr)]; [tauto|].
           injection Hcp as <-. rewrite Er in Hr. now injection Hr as ->.
      * split; [discriminate|].
        intros [?|(cp' & Hcp & _ & Hr)]; [tauto|].
        injection Hcp as <-. rewrite Er in Hr. discriminate.
    + split; [discriminate|]. intros [?|(cp & Hcp & _)]; [tauto|discriminate].
Qed.

(** [matchesCommand] throws when the exact command has not accepted and
    the command pattern does not compile. *)
Lemma matchesCommand_thrown (rule : PermissionRule) (cmd e : jsstring) :
  matchesCommand rule cmd = Thrown e <->
  ~ (command rule = Some cmd /\ cmd <> [])
  /\ e = txt "SyntaxError: Invalid regular expression"
  /\ exists cp, commandPattern rule = Some cp /\ cp <> [] /\ RegExp_test cp cmd = None.
Proof.
  unfold matchesCommand.
  destruct (truthy (command rule) && bool_decide (command rule = Some cmd)) eqn:Ec.
  - apply andb_prop in Ec. destruct Ec as [Ht Hc]. apply bool_decide_eq_true in Hc.
    split; [discriminate|]. intros [Hno _]. destruct Hno. split; [exact Hc|].
    rewrite Hc in Ht. destruct cmd; [discriminate|congruence].
  - assert (Hno : ~ (command rule = Some cmd /\ cmd <> [])).
    { intros [Hc Hne]. rewrite Hc in Ec. rewrite bool_decide_eq_true_2 in Ec by reflexivity.
      destruct cmd; [congruence|discriminate]. }
    destruct (commandPattern rule) as [[|c cp]|].
    + split; [discriminate|]. intros (_ & _ & cp & Hcp & Hne & _). congruence.
    + destruct (RegExp_test (c :: cp) cmd) as [b|] eqn:Er.
      * split; [discriminate|]. intros (_ & _ & cp' & Hcp & _ & Hr).
        injection Hcp as <-. rewrite Er in Hr. discriminate.
      * split.
        -- intros E. injection E as <-. split; [exact Hno|]. split; [reflexivity|].
           exists (c :: cp). split; [reflexivity|]. split; [discriminate|exact Er].
        -- intros (_ & -> & _). reflexivity.
    + split; [discriminate|]. intros (_ & _ & cp & Hcp & _). discriminate.
Qed.

(** A rule without command pattern compiles nothing. *)
Lemma matchesCommand_plain (rule : PermissionRule) (cmd : jsstring) :
  commandPattern rule = None ->
  matchesCommand rule cmd
  = Returned (truthy (command rule) && bool_decide (command rule = Some cmd)).
Proof.
  intros Hcp. unfold matchesCommand. rewrite Hcp. now destruct (_ && _).
Qed.

(** The Bash part of [matchesRule]. *)
Lemma matchesRule_tool (rule : PermissionRule) (toolName : jsstring) (input : ToolInput) :
  matchesRule rule toolName input = Returned true -> tool rule = toolName.
Proof.
  unfold matchesRule. destruct (bool_decide (tool rule = toolName)) eqn:E; [|discriminate].
  intros _. now apply bool_decide_eq_true in E.
Qed.

Lemma matchesRule_file (rule : PermissionRule) (toolName : jsstring) (input : ToolInput)
    (pat : jsstring) (v : JsValue) :
  tool rule = toolName -> pattern rule = Some pat -> pat <> [] ->
  input !! txt "file_path" = Some v ->
  matchesRule rule toolName input = Returned (minimatch (ToString v) pat).
Proof.
  intros Htool Hpat Hne Hv. unfold matchesRule.
  rewrite bool_decide_eq_true_2 by exact Htool. cbn [negb].
  rewrite Hpat, Hv. destruct pat; [congruence|reflexivity].
Qed.

(** What [matchesRule] does once the file branch is out of the way. *)
Lemma matchesRule_no_file (rule : PermissionRule) (toolName : jsstring)
    (input : ToolInput) :
  tool rule = toolName ->
  truthy (pattern rule) = false \/ input !! txt "file_path" = None ->
  matchesRule rule toolName input
  = match (if bool_decide (toolName = txt "Bash") then
             match commandOf input with
             | Some v => matchesCommand rule (ToString v)
             | None => Returned false
             end
           else Returned false) with
    | Thrown e => Thrown e
    | Returned true => Returned true
    | Returned false => Returned (blanket rule)
    end.
Proof.
  intros Htool Hfile. unfold matchesRule, blanket.
  rewrite bool_decide_eq_true_2 by exact Htool. cbn [negb].
  destruct Hfile as [Hp|Hf].
  - destruct (pattern rule) as [[|c p]|]; try discriminate; reflexivity.
  - rewrite Hf. destruct (pattern rule) as [[|c p]|]; reflexivity.
Qed.

(** *** The scan of a list *)

Lemma firstMatch_app (l1 l2 : list PermissionRule) (toolName : jsstring)
    (input : ToolInput) :
  firstMatch (l1 ++ l2) toolName input
  = match firstMatch l1 toolName input with
    | Returned false => firstMatch l2 toolName input
    | o => o
    end.
Proof.
  induction l1 as [|r l1 IH]; cbn [app firstMatch]; [reflexivity|].
  destruct (matchesRule r toolName input) as [[|]|e]; [reflexivity|exact IH|reflexivity].
Qed.

Lemma firstMatch_false (rules : list PermissionRule) (toolName : jsstring)
    (input : ToolInput) :
  firstMatch rules toolName input = Returned false
  <-> Forall (fun r => matchesRule r toolName input = Returned false) rules.
Proof.
  induction rules as [|r l IH]; cbn [firstMatch].
  - split; [intros _; apply List.Forall_nil|reflexivity].
  - rewrite Forall_cons. destruct (matchesRule r toolName input) as [[|]|e].
    + split; [discriminate|intros [? _]; discriminate].
    + rewrite IH. tauto.
    + split; [discriminate|intros [? _]; discriminate].
Qed.

(** The scan ends at the first rule that does not answer false. *)
Lemma firstMatch_first (rules : list PermissionRule) (toolName : jsstring)
    (input : ToolInput) (o : outcome bool) :
  o <> Returned false ->
  (firstMatch rules toolName input = o
   <-> exists pre r post, rules = pre ++ r :: post
         /\ Forall (fun r => matchesRule r toolName input = Returned false) pre
         /\ matchesRule r toolName input = o).
Proof.
  intros Ho. split.
  - induction rules as [|r l IH]; cbn [firstMatch]; [congruence|].
    destruct (matchesRule r toolName input) as [[|]|e] eqn:Er.
    + intros <-. exists [], r, l. split; [reflexivity|].
      split; [apply List.Forall_nil|exact Er].
    + intros Hl. destruct (IH Hl) as (pre & r' & post & -> & Hpre & Hr').
      exists (r :: pre), r', post. split; [reflexivity|].
      split; [apply List.Forall_cons; assumption|exact Hr'].
    + intros <-. exists [], r, l. split; [reflexivity|].
      split; [apply List.Forall_nil|exact Er].
  - intros (pre & r & post & -> & Hpre & Hr).
    rewrite firstMatch_app. apply firstMatch_false in Hpre. rewrite Hpre.
    cbn [firstMatch]. rewrite Hr. destruct o as [[|]|e]; congruence.
Qed.

(** *** The answer *)

(** What [checkPermission] answers. Without an own entry of the project it
    asks, or throws when [Object.prototype] has a member of that name. With
    an own entry, the denied rules are tried in order and then the allowed
    ones, up to the first rule that matches or throws. A rule matches only
    an invocation of its own tool; with a pattern, and a file path in the
    input, it matches as the glob decides; otherwise it matches when the
    tool is Bash and the command equals the rule's command or is accepted
    by its command pattern, or when the rule has none of pattern, command
    and command pattern. *)
Lemma checkPermission_answers (memory : PermissionMemory)
    (projectName toolName : jsstring) (input : ToolInput) :
  let matches rule := matchesRule rule toolName input = Returned true in
  let passes rule := matchesRule rule toolName input = Returned false in
  let check := checkPermission memory projectName toolName input in
  (memory !! projectName = None ->
   check = if inherited projectName
           then Thrown (txt "TypeError: permissions.denied is not iterable")
           else Returned Ask)
  /\ (forall p, memory !! projectName = Some p ->
        (forall pre r post, denied p = pre ++ r :: post -> Forall passes pre ->
           matches r -> check = Returned Denied)
        /\ (Forall passes (denied p) ->
            forall pre r post, allowed p = pre ++ r :: post -> Forall passes pre ->
              matches r -> check = Returned Allowed)
        /\ (Forall passes (denied p) -> Forall passes (allowed p) ->
            check = Returned Ask)
        /\ (forall e, check = Thrown e ->
            exists pre r post, denied p ++ allowed p = pre ++ r :: post
              /\ Forall passes pre /\ matchesRule r toolName input = Thrown e))
  /\ (forall rule, matches rule -> tool rule = toolName)
  /\ (forall rule pat v,
        tool rule = toolName -> pattern rule = Some pat -> pat <> [] ->
        input !! txt "file_path" = Some v ->
        matchesRule rule toolName input = Returned (minimatch (ToString v) pat))
  /\ (forall rule,
        tool rule = toolName ->
        truthy (pattern rule) = false \/ input !! txt "file_path" = None ->
        (matches rule <->
         (toolName = txt "Bash"
          /\ exists v, input !! txt "command" = Some v /\ ToBoolean v = true
               /\ ((command rule = Some (ToString v) /\ ToString v <> [])
                   \/ exists cp, commandPattern rule = Some cp /\ cp <> []
                        /\ RegExp_test cp (ToString v) = Some true))
         \/ (blanket rule = true
             /\ forall e, matchesRule rule toolName input <> Thrown e)))
  /\ (forall rule, blanket rule = true -> tool rule = toolName -> matches rule).
Proof.
  intros matches passes check. subst matches passes check.
  split; [|split; [|split; [|split; [|split]]]].
  - intros Hnone. unfold checkPermission, lookup, JsObject.get. rewrite Hnone.
    now destruct (inherited projectName).
  - intros p Hp. unfold checkPermission. rewrite (proj2 (lookup_Own _ _ _) Hp).
    split; [|split; [|split]].
    + intros pre r post Hd Hpre Hr.
      assert (Hf : firstMatch (denied p) toolName input = Returned true).
      { apply firstMatch_first; [discriminate|]. exists pre, r, post. tauto. }
      now rewrite Hf.
    + intros Hd pre r post Ha Hpre Hr.
      apply firstMatch_false in Hd. rewrite Hd.
      assert (Hf : firstMatch (allowed p) toolName input = Returned true).
      { apply firstMatch_first; [discriminate|]. exists pre, r, post. tauto. }
      now rewrite Hf.
    + intros Hd Ha. apply firstMatch_false in Hd, Ha. now rewrite Hd, Ha.
    + intros e.
      destruct (firstMatch (denied p) toolName input) as [[|]|e1] eqn:Ed;
        [discriminate| |].
      * destruct (firstMatch (allowed p) toolName input) as [[|]|e2] eqn:Ea;
          try discriminate.
        intros E. injection E as ->.
        apply firstMatch_first in Ea; [|discriminate].
        destruct Ea as (pre & r & post & Ha & Hpre & Hr).
        exists (denied p ++ pre), r, post. rewrite Ha, <- app_assoc.
        split; [reflexivity|]. split; [|exact Hr].
        apply Forall_app. split; [now apply firstMatch_false|exact Hpre].
      * intros E. injection E as ->.
        apply firstMatch_first in Ed; [|discriminate].
        destruct Ed as (pre & r & post & Hd & Hpre & Hr).
        exists pre, r, (post ++ allowed p). rewrite Hd, <- app_assoc.
        split; [reflexivity|]. split; [exact Hpre|exact Hr].
  - intros rule. apply matchesRule_tool.
  - intros rule pat v. apply matchesRule_file.
  - intros rule Htool Hfile.
    rewrite (matchesRule_no_file rule toolName input Htool Hfile).
    unfold commandOf.
    destruct (bool_decide (toolName = txt "Bash")) eqn:Eb.
    + apply bool_decide_eq_true in Eb.
      destruct (input !! txt "command") as [v|] eqn:Ev.
      * destruct (ToBoolean v) eqn:Et.
        -- destruct (matchesCommand rule (ToString v)) as [[|]|e] eqn:Em.
           ++ split; [intros _|reflexivity]. left. split; [exact Eb|].
              exists v. split; [reflexivity|]. split; [exact Et|].
              now apply matchesCommand_spec.
           ++ split.
              ** intros E. injection E as E. right. split; [exact E|discriminate].
              ** intros [(_ & v' & Hv' & _ & Hm)|[Hbl _]].
                 --- injection Hv' as <-. apply matchesCommand_spec in Hm. congruence.
                 --- now rewrite Hbl.
           ++ split; [discriminate|].
              intros [(_ & v' & Hv' & _ & Hm)|[_ Hno]].
              ** injection Hv' as <-. apply matchesCommand_spec in Hm. congruence.
              ** now destruct (Hno e).
        -- split.
           ++ intros E. injection E as E. right. split; [exact E|discriminate].
           ++ intros [(_ & v' & Hv' & Ht' & _)|[Hbl _]]; [congruence|now rewrite Hbl].
      * split.
        -- intros E. injection E as E. right. split; [exact E|discriminate].
        -- intros [(_ & v' & Hv' & _)|[Hbl _]]; [discriminate|now rewrite Hbl].
    + apply bool_decide_eq_false in Eb. split.
      * intros E. injection E as E. right. split; [exact E|discriminate].
      * intros [[Hb _]|[Hbl _]]; [contradiction|now rewrite Hbl].
  - intros rule Hbl Htool.
    rewrite (matchesRule_no_file rule toolName input Htool).
    + assert (Hcp : commandPattern rule = None \/ commandPattern rule = Some []).
      { unfold blanket in Hbl. destruct (commandPattern rule) as [[|c cp]|]; auto.
        cbn in Hbl. now rewrite andb_false_r in Hbl. }
      destruct (bool_decide (toolName = txt "Bash")); [|now rewrite Hbl].
      destruct (commandOf input) as [v|]; [|now rewrite Hbl].
      unfold matchesCommand.
      destruct (truthy (command rule) && bool_decide _); [reflexivity|].
      destruct Hcp as [-> | ->]; now rewrite Hbl.
    + left. unfold blanket in Hbl.
      destruct (truthy (pattern rule)); [discriminate|reflexivity].
Qed.

End Permissions.

(** C2. [checkPermission] for a project name that [Object.prototype] has
    and the permission memory has not, [constructor] for one: the read of
    the memory gives the inherited member, which has no list of denied
    rules, and the call throws where no rule is stored and the answer
    should be ask. [handlePermission] then rejects: the user is not asked
    and nothing is left pending. This is so for each of the names of
    [Object.prototype], whatever the tool and the input are. Such a name
    passes [projectExists] in the configuration that has no project. *)
Theorem checkPermission_inherited_name :
  let s := Executor.handlePermission (H := Fixture.host)
             (Executor.initial Fixture.emptyStore)
             (txt "perm-1") (txt "7") (txt "constructor") (txt "Bash")
             Fixture.runTests in
  PermissionManager.checkPermission (H := Fixture.host) ∅
    (txt "constructor") (txt "Bash") Fixture.runTests
  = Thrown (txt "TypeError: permissions.denied is not iterable")
  /\ (Executor.verdicts s
      = [(None, Executor.Rejected
                  (txt "TypeError: permissions.denied is not iterable"))]
      /\ Executor.asked s = [] /\ Executor.pendingPermissions s = ∅)
  /\ (forall (host : Host) (memory : PermissionMemory)
        (projectName toolName : jsstring) (input : ToolInput),
        memory !! projectName = None ->
        projectName ∈ JsObject.inheritedNames ->
        PermissionManager.checkPermission memory projectName toolName input
        = Thrown (txt "TypeError: permissions.denied is not iterable"))
  /\ ProjectManager.projectExists ProjectManager.defaultConfig (txt "constructor") = true.
Proof.
  intros s. split; [vm_compute; reflexivity|].
  split; [repeat split; reflexivity|]. split; [|vm_compute; reflexivity].
  intros host memory projectName toolName input Hnone Hin.
  unfold PermissionManager.checkPermission, PermissionManager.lookup, JsObject.get.
  rewrite Hnone. unfold JsObject.inherited.
  now rewrite bool_decide_eq_true_2 by exact Hin.
Qed.

(** *** Paths, as [createRule] takes them apart *)

Lemma split_nonempty (c : ascii) (s : jsstring) :
  exists seg segs, split c s = seg :: segs.
Proof.
  destruct s as [|x s]; [simpl; eauto|].
  destruct (split_cons c x s) as (seg & segs & _ & Hx).
  rewrite Hx. destruct (Ascii.eqb x c); eauto.
Qed.

Lemma split_no_sep (c : ascii) (s : jsstring) : c ∉ s -> split c s = [s].
Proof.
  induction s as [|x s IH]; intros Hc; [reflexivity|].
  simpl. destruct (Ascii.eqb x c) eqn:Ex.
  - apply Ascii.eqb_eq in Ex. subst x. exfalso. apply Hc. apply list_elem_of_here.
  - rewrite IH; [reflexivity|]. intros Hin. apply Hc. now apply list_elem_of_further.
Qed.

Lemma split_app_sep (c : ascii) (b : jsstring) :
  c ∉ b -> forall a, split c (a ++ c :: b) = split c a ++ [b].
Proof.
  intros Hc. induction a as [|x a IH].
  - simpl. rewrite Ascii.eqb_refl. now rewrite split_no_sep.
  - simpl. rewrite IH. destruct (Ascii.eqb x c); [reflexivity|].
    destruct (split_nonempty c a) as (seg & segs & ->). reflexivity.
Qed.

Lemma join_split (c : ascii) (s : jsstring) : join [c] (split c s) = s.
Proof.
  induction s as [|x s IH]; [reflexivity|].
  simpl split. destruct (split_nonempty c s) as (seg & segs & Hs).
  rewrite Hs in *. destruct (Ascii.eqb x c) eqn:Ex.
  - apply Ascii.eqb_eq in Ex. subst x.
    change (join [c] ([] :: seg :: segs)) with ([] ++ [c] ++ join [c] (seg :: segs)).
    now rewrite IH.
  - destruct segs as [|seg' segs]; simpl in *; now rewrite IH.
Qed.

Lemma includes_spec (s : jsstring) (c : ascii) : includes s c = true <-> c ∈ s.
Proof.
  unfold includes. rewrite existsb_elem_of. split.
  - intros (x & Hx & He). apply Ascii.eqb_eq in He. now subst.
  - intros Hc. exists c. split; [exact Hc|apply Ascii.eqb_refl].
Qed.

Lemma includes_false (s : jsstring) (c : ascii) : c ∉ s -> includes s c = false.
Proof.
  intros Hc. destruct (includes s c) eqn:E; [|reflexivity].
  apply includes_spec in E. contradiction.
Qed.

(** The last segment [file] of a path, and the directory before it, as
    [split], [pop] and [join] find them. *)
Lemma path_parts (dir file : jsstring) :
  "/"%char ∉ file ->
  List.last (split "/" (dir ++ txt "/" ++ file)) [] = file
  /\ join (txt "/") (removelast (split "/" (dir ++ txt "/" ++ file))) = dir.
Proof.
  intros Hfile. change (txt "/" ++ file) with ("/"%char :: file).
  rewrite (split_app_sep "/" file Hfile dir).
  rewrite last_last, removelast_last. split; [reflexivity|].
  apply (join_split "/" dir).
Qed.

Lemma path_no_dir (file : jsstring) :
  "/"%char ∉ file ->
  List.last (split "/" file) [] = file
  /\ join (txt "/") (removelast (split "/" file)) = [].
Proof. intros Hfile. rewrite (split_no_sep "/" file Hfile). split; reflexivity. Qed.

(** The extension of a file name, as [includes], [split] and [pop] find
    it. *)
Lemma file_extension (stem ext : jsstring) :
  "."%char ∉ ext ->
  (if includes (stem ++ txt "." ++ ext) "." then
     List.last (split "." (stem ++ txt "." ++ ext)) [] else []) = ext.
Proof.
  intros Hext. change (txt "." ++ ext) with ("."%char :: ext).
  rewrite (split_app_sep "." ext Hext stem), last_last.
  replace (includes (stem ++ "."%char :: ext) ".") with true; [reflexivity|].
  symmetry. apply includes_spec. apply elem_of_app. right. apply list_elem_of_here.
Qed.

Lemma file_no_extension (file : jsstring) :
  "."%char ∉ file \/ (exists stem, file = stem ++ txt ".") ->
  (if includes file "." then List.last (split "." file) [] else []) = [].
Proof.
  intros [Hno|(stem & ->)].
  - now rewrite includes_false.
  - destruct (includes (stem ++ txt ".") "."); [|reflexivity].
    change (txt ".") with ("."%char :: []).
    rewrite (split_app_sep "." []); [apply last_last|]. apply not_elem_of_nil.
Qed.

(** *** Remembering a decision *)

Section Remember.
Context `{Host}.
Import PermissionManager.

Lemma sameRule_refl (rule : PermissionRule) : sameRule rule rule = true.
Proof. unfold sameRule. now rewrite !bool_decide_eq_true_2. Qed.

(** The duplicate test compares tool, pattern and command. *)
Lemma sameRule_spec (rule r : PermissionRule) :
  sameRule rule r = true <-> sameTuple rule r.
Proof.
  unfold sameRule, sameTuple. rewrite !andb_true_iff, !bool_decide_eq_true. tauto.
Qed.

Lemma existsb_sameRule (rule : PermissionRule) (l : list PermissionRule) :
  existsb (sameRule rule) l = true <-> exists r, r ∈ l /\ sameTuple rule r.
Proof.
  rewrite existsb_elem_of. split; intros (r & Hr & Hs); exists r;
    (split; [exact Hr|now apply sameRule_spec]).
Qed.

Lemma countOf_cons (rule r : PermissionRule) (l : list PermissionRule) :
  countOf rule (r :: l)
  = ((if sameRule rule r then 1 else 0) + countOf rule l)%nat.
Proof.
  unfold countOf. destruct (sameRule rule r) eqn:E.
  - rewrite filter_cons_True by now apply sameRule_spec. reflexivity.
  - rewrite filter_cons_False; [reflexivity|].
    intros Hs. apply sameRule_spec in Hs. congruence.
Qed.

Lemma countOf_app (rule : PermissionRule) (l1 l2 : list PermissionRule) :
  countOf rule (l1 ++ l2) = (countOf rule l1 + countOf rule l2)%nat.
Proof. unfold countOf. now rewrite filter_app, length_app. Qed.

Lemma countOf_existsb (rule : PermissionRule) (l : list PermissionRule) :
  (existsb (sameRule rule) l = true -> (1 <= countOf rule l)%nat)
  /\ (existsb (sameRule rule) l = false -> countOf rule l = 0%nat).
Proof.
  induction l as [|r l [IH1 IH2]]; [split; [discriminate|reflexivity]|].
  rewrite countOf_cons. cbn [existsb]. destruct (sameRule rule r); cbn [orb].
  - split; [lia|discriminate].
  - split; assumption.
Qed.

Lemma ensureProject_total (m : PermissionMemory) (p : jsstring) :
  ensureProject m p !!! p = m !!! p.
Proof.
  unfold ensureProject, lookup, JsObject.get. destruct (m !! p) eqn:E; [reflexivity|].
  destruct (inherited p); [reflexivity|].
  rewrite lookup_total_insert_eq, lookup_total_alt, E. reflexivity.
Qed.

Lemma ensureProject_present (m : PermissionMemory) (p : jsstring) :
  is_Some (m !! p) -> ensureProject m p = m.
Proof.
  intros [x Hx]. unfold ensureProject. now rewrite (proj2 (lookup_Own _ _ _) Hx).
Qed.

Lemma ensureProject_other (m : PermissionMemory) (p q : jsstring) :
  q <> p -> ensureProject m p !! q = m !! q.
Proof.
  intros Hne. unfold ensureProject. destruct (lookup m p); try reflexivity.
  now rewrite lookup_insert_ne.
Qed.

(** After [ensureProject] the read finds an entry, unless it finds a member
    of [Object.prototype]. *)
Lemma ensureProject_lookup (m : PermissionMemory) (p : jsstring) :
  lookup (ensureProject m p) p
  = match lookup m p with
    | Undefined => Own {| allowed := []; denied := [] |}
    | r => r
    end.
Proof.
  unfold ensureProject. destruct (lookup m p) eqn:E; try exact E.
  apply lookup_Own. apply lookup_insert_eq.
Qed.

Lemma lookup_cases (m : PermissionMemory) (p : jsstring) :
  lookup m p = Inherited \/ lookup m p <> Inherited.
Proof. destruct (lookup m p); [right|left|right]; congruence. Qed.

(** [remember] under a name that reads as a member of [Object.prototype]:
    it throws and leaves the store as it was. *)
Lemma remember_inherited (st : Store) (p tl : jsstring) (input : ToolInput)
    (allow : bool) :
  lookup (memory st) p = Inherited ->
  remember st p tl input allow
  = (Thrown (txt "TypeError: Cannot read properties of undefined (reading 'some')"), st).
Proof.
  intros E. unfold remember. rewrite ensureProject_lookup, E.
  unfold ensureProject. rewrite E. now destruct st.
Qed.

(** [remember] under any other name. *)
Lemma remember_ordinary (st : Store) (p tl : jsstring) (input : ToolInput)
    (allow : bool) :
  lookup (memory st) p <> Inherited ->
  remember st p tl input allow
  = let rule := createRule tl input in
    let old := memory st !!! p in
    if existsb (sameRule rule) (listOf allow old)
    then (Returned tt, {| memory := ensureProject (memory st) p; disk := disk st |})
    else (Returned tt,
          save {| memory :=
                    <[p := if allow
                           then {| allowed := allowed old ++ [rule];
                                   denied := denied old |}
                           else {| allowed := allowed old;
                                   denied := denied old ++ [rule] |}]>
                      (ensureProject (memory st) p);
                  disk := disk st |}).
Proof.
  intros Hord. unfold remember. rewrite ensureProject_lookup. cbv zeta.
  destruct (lookup (memory st) p) as [perms| |] eqn:E; [|congruence|].
  - rewrite (lookup_total_Own _ _ _ E). unfold listOf.
    destruct allow; destruct (existsb _ _); reflexivity.
  - rewrite (lookup_total_not_Own (memory st) p) by (intros perms; congruence).
    destruct allow; reflexivity.
Qed.

Lemma remember_returns (st : Store) (p tl : jsstring) (input : ToolInput)
    (allow : bool) :
  lookup (memory st) p <> Inherited ->
  fst (remember st p tl input allow) = Returned tt.
Proof.
  intros Hord. rewrite (remember_ordinary _ _ _ _ _ Hord). cbv zeta.
  now destruct (existsb _ _).
Qed.

(** The list a decision goes to, after [remember]: unchanged when it holds
    a rule with the same tool, pattern and command, and longer by the new
    rule otherwise. *)
Lemma remember_list (st : Store) (p tl : jsstring) (input : ToolInput) (allow : bool) :
  lookup (memory st) p <> Inherited ->
  let rule := createRule tl input in
  let before := listOf allow (memory st !!! p) in
  listOf allow (memory (snd (remember st p tl input allow)) !!! p)
  = if existsb (sameRule rule) before then before else before ++ [rule].
Proof.
  intros Hord rule before. rewrite (remember_ordinary _ _ _ _ _ Hord). cbv zeta.
  fold rule before. destruct (existsb (sameRule rule) before); cbn [snd save memory].
  - now rewrite ensureProject_total.
  - rewrite lookup_total_insert_eq. subst before. now destruct allow.
Qed.

Lemma remember_present (st : Store) (p tl : jsstring) (input : ToolInput) (allow : bool) :
  lookup (memory st) p <> Inherited ->
  is_Some (memory (snd (remember st p tl input allow)) !! p).
Proof.
  intros Hord. rewrite (remember_ordinary _ _ _ _ _ Hord). cbv zeta.
  destruct (existsb _ _); cbn [snd save memory].
  - pose proof (ensureProject_lookup (memory st) p) as E.
    destruct (lookup (memory st) p) eqn:El; [|congruence|];
      apply lookup_Own in E; rewrite E; eauto.
  - rewrite lookup_insert_eq. eauto.
Qed.

Lemma remember_has_rule (st : Store) (p tl : jsstring) (input : ToolInput) (allow : bool) :
  lookup (memory st) p <> Inherited ->
  existsb (sameRule (createRule tl input))
    (listOf allow (memory (snd (remember st p tl input allow)) !!! p)) = true.
Proof.
  intros Hord. rewrite (remember_list _ _ _ _ _ Hord).
  destruct (existsb _ (listOf allow (memory st !!! p))) eqn:E; [exact E|].
  rewrite existsb_app. cbn [existsb]. now rewrite sameRule_refl, orb_true_r.
Qed.

(** A list that holds a rule belongs to a project that is there. *)
Lemma duplicate_present (st : Store) (p tl : jsstring) (input : ToolInput)
    (allow : bool) :
  existsb (sameRule (createRule tl input)) (listOf allow (memory st !!! p)) = true ->
  is_Some (memory st !! p).
Proof.
  rewrite lookup_total_alt. destruct (memory st !! p); [eauto|].
  destruct allow; discriminate.
Qed.

Lemma remember_duplicate (st : Store) (p tl : jsstring) (input : ToolInput)
    (allow : bool) :
  existsb (sameRule (createRule tl input)) (listOf allow (memory st !!! p)) = true ->
  remember st p tl input allow = (Returned tt, st).
Proof.
  intros Hdup. pose proof (duplicate_present _ _ _ _ _ Hdup) as Hpres.
  rewrite remember_ordinary.
  - cbv zeta. rewrite Hdup, (ensureProject_present _ _ Hpres). now destruct st.
  - destruct Hpres as [x Hx]. rewrite (proj2 (lookup_Own _ _ _) Hx). discriminate.
Qed.

Lemma remember_again (st : Store) (p tl : jsstring) (input : ToolInput) (allow : bool) :
  remember (snd (remember st p tl input allow)) p tl input allow
  = remember st p tl input allow.
Proof.
  destruct (lookup_cases (memory st) p) as [Hin|Hord].
  - rewrite (remember_inherited _ _ _ _ _ Hin). cbn [snd].
    apply (remember_inherited _ _ _ _ _ Hin).
  - rewrite (remember_duplicate (snd (remember st p tl input allow)))
      by now apply remember_has_rule.
    rewrite <- (remember_returns st p tl input allow Hord).
    now destruct (remember st p tl input allow).
Qed.

Lemma remember_other_project (st : Store) (p q tl : jsstring) (input : ToolInput)
    (allow : bool) :
  q <> p -> memory (snd (remember st p tl input allow)) !! q = memory st !! q.
Proof.
  intros Hne. destruct (lookup_cases (memory st) p) as [Hin|Hord].
  - now rewrite (remember_inherited _ _ _ _ _ Hin).
  - rewrite (remember_ordinary _ _ _ _ _ Hord). cbv zeta.
    destruct (existsb _ _); cbn [snd save memory];
      rewrite ?lookup_insert_ne by congruence; now apply ensureProject_other.
Qed.

Lemma remember_other_list (st : Store) (p tl : jsstring) (input : ToolInput)
    (allow : bool) :
  listOf (negb allow) (memory (snd (remember st p tl input allow)) !!! p)
  = listOf (negb allow) (memory st !!! p).
Proof.
  destruct (lookup_cases (memory st) p) as [Hin|Hord].
  - now rewrite (remember_inherited _ _ _ _ _ Hin).
  - rewrite (remember_ordinary _ _ _ _ _ Hord). cbv zeta.
    destruct (existsb _ _); cbn [snd save memory].
    + now rewrite ensureProject_total.
    + rewrite lookup_total_insert_eq. now destruct allow.
Qed.

Lemma remember_same_rule (st : Store) (p tl : jsstring) (input1 input2 : ToolInput)
    (allow : bool) :
  createRule tl input2 = createRule tl input1 ->
  remember st p tl input2 allow = remember st p tl input1 allow.
Proof. intros Heq. unfold remember. now rewrite Heq. Qed.

(** What [remember] does to the disk. *)
Lemma remember_disk (st : Store) (p tl : jsstring) (input : ToolInput) (allow : bool) :
  let st' := snd (remember st p tl input allow) in
  disk st' = disk st
  \/ disk st' = writeFileSync (disk st) PERMISSIONS_PATH (JSON_stringify_memory (memory st')).
Proof.
  cbv zeta. destruct (lookup_cases (memory st) p) as [Hin|Hord].
  - left. now rewrite (remember_inherited _ _ _ _ _ Hin).
  - rewrite (remember_ordinary _ _ _ _ _ Hord). cbv zeta.
    destruct (existsb _ _); [left|right]; reflexivity.
Qed.

End Remember.

(** The rule [createRule] makes of an invocation: for a file path whose
    last segment [stem.ext] has an extension, the pattern is the directory
    followed by [/**/*.ext] (the empty directory for a path without slash);
    for a last segment without extension the pattern is the path itself;
    without a file path there is no pattern. The command is the command of
    the input as a string, for the Bash tool and a command that is truthy,
    and there is none otherwise. The rule has no command pattern. *)
Lemma createRule_spec `{Host} (toolName : jsstring) (input : ToolInput) :
  let rule := PermissionManager.createRule toolName input in
  tool rule = toolName
  /\ commandPattern rule = None
  /\ (forall v dir stem ext,
        input !! txt "file_path" = Some v ->
        ToString v = dir ++ txt "/" ++ stem ++ txt "." ++ ext ->
        "/"%char ∉ stem ++ txt "." ++ ext -> "."%char ∉ ext -> ext <> [] ->
        pattern rule = Some (dir ++ txt "/**/*." ++ ext))
  /\ (forall v stem ext,
        input !! txt "file_path" = Some v ->
        ToString v = stem ++ txt "." ++ ext ->
        "/"%char ∉ stem ++ txt "." ++ ext -> "."%char ∉ ext -> ext <> [] ->
        pattern rule = Some (txt "/**/*." ++ ext))
  /\ (forall v dir file,
        input !! txt "file_path" = Some v ->
        ToString v = dir ++ txt "/" ++ file \/ ToString v = file ->
        "/"%char ∉ file ->
        "."%char ∉ file \/ (exists stem, file = stem ++ txt ".") ->
        pattern rule = Some (ToString v))
  /\ (input !! txt "file_path" = None -> pattern rule = None)
  /\ (forall v,
        toolName = txt "Bash" -> input !! txt "command" = Some v ->
        ToBoolean v = true ->
        command rule = Some (ToString v))
  /\ (toolName <> txt "Bash" \/ input !! txt "command" = None
      \/ (exists v, input !! txt "command" = Some v /\ ToBoolean v = false) ->
      command rule = None).
Proof.
  intros rule. subst rule.
  split; [reflexivity|]. split; [reflexivity|].
  split; [|split; [|split; [|split; [|split]]]].
  - intros v dir stem ext Hv Hpath Hslash Hdot Hne.
    unfold PermissionManager.createRule. cbn [pattern]. rewrite Hv, Hpath.
    destruct (path_parts dir (stem ++ txt "." ++ ext) Hslash) as [-> ->].
    rewrite (file_extension stem ext Hdot).
    destruct ext; [congruence|reflexivity].
  - intros v stem ext Hv Hpath Hslash Hdot Hne.
    unfold PermissionManager.createRule. cbn [pattern]. rewrite Hv, Hpath.
    destruct (path_no_dir (stem ++ txt "." ++ ext) Hslash) as [-> ->].
    rewrite (file_extension stem ext Hdot).
    destruct ext; [congruence|reflexivity].
  - intros v dir file Hv Hpath Hslash Hnoext.
    unfold PermissionManager.createRule. cbn [pattern]. rewrite Hv.
    destruct Hpath as [Hpath|Hpath]; rewrite Hpath.
    + destruct (path_parts dir file Hslash) as [-> _].
      now rewrite (file_no_extension file Hnoext).
    + destruct (path_no_dir file Hslash) as [-> _].
      now rewrite (file_no_extension file Hnoext).
  - intros Hnone. unfold PermissionManager.createRule. cbn [pattern]. now rewrite Hnone.
  - intros v Hbash Hv Htrue.
    unfold PermissionManager.createRule, PermissionManager.commandOf.
    cbn [command]. rewrite bool_decide_eq_true_2 by exact Hbash.
    now rewrite Hv, Htrue.
  - intros Hno. unfold PermissionManager.createRule, PermissionManager.commandOf.
    cbn [command]. destruct (bool_decide (toolName = txt "Bash")) eqn:Eb; [|reflexivity].
    apply bool_decide_eq_true in Eb.
    destruct Hno as [Hno|[Hno|(v & Hv & Hf)]]; [contradiction|now rewrite Hno|].
    now rewrite Hv, Hf.
Qed.

(** C5. [createRule] for the Bash tool and a command field that holds the
    empty string: the truthiness test on the command leaves the exact
    command out of the rule, which then has neither pattern nor command
    and matches every Bash invocation. Once the approval of the empty
    command is remembered, [checkPermission] allows any other command. *)
Theorem createRule_empty_command :
  let rule := PermissionManager.createRule (H := Fixture.host) (txt "Bash")
                Fixture.emptyCommand in
  let st' := snd (PermissionManager.remember (H := Fixture.host) Fixture.emptyStore
                    (txt "blog") (txt "Bash") Fixture.emptyCommand true) in
  Fixture.emptyCommand !! txt "command" = Some (Fixture.JString (txt ""))
  /\ rule = {| tool := txt "Bash"; pattern := None; command := None;
               commandPattern := None |}
  /\ command rule <> Some (ToString (Host := Fixture.host) (Fixture.JString (txt "")))
  /\ PermissionManager.matchesRule (H := Fixture.host) rule (txt "Bash")
       Fixture.removeAll = Returned true
  /\ allowed (PermissionManager.memory st' !!! txt "blog") = [rule]
  /\ PermissionManager.checkPermission (H := Fixture.host)
       (PermissionManager.memory st') (txt "blog") (txt "Bash") Fixture.removeAll
     = Returned PermissionManager.Allowed.
Proof.
  intros rule st'. split; [vm_compute; reflexivity|].
  split; [vm_compute; reflexivity|]. split; [vm_compute; discriminate|].
  split; [vm_compute; reflexivity|]. split; vm_compute; reflexivity.
Qed.

(** C6, as the claim has it, fails for a list that holds a rule twice when
    it is loaded: [remember] adds nothing and takes nothing away, and the
    list holds the rule twice after the two calls. *)
Lemma remember_stored_duplicates_counterexample :
  let rule := PermissionManager.createRule (H := Fixture.host) (txt "Bash")
                Fixture.runTests in
  let once := PermissionManager.remember (H := Fixture.host) Fixture.doubledStore
                (txt "blog") (txt "Bash") Fixture.runTests true in
  let twice := PermissionManager.remember (H := Fixture.host) (snd once)
                 (txt "blog") (txt "Bash") Fixture.runTests true in
  fst once = Returned tt /\ fst twice = Returned tt
  /\ allowed (PermissionManager.memory (snd twice) !!! txt "blog") = [rule; rule]
  /\ countOf rule (allowed (PermissionManager.memory (snd twice) !!! txt "blog"))
     <> 1%nat.
Proof.
  intros rule once twice. split; [vm_compute; reflexivity|].
  split; [vm_compute; reflexivity|]. split; [vm_compute; reflexivity|].
  vm_compute. discriminate.
Qed.

(** C6, amended. For a project that has an entry in the memory, or whose
    name [Object.prototype] has not: [remember] returns, and a second call
    with the same project, tool, input and decision returns the same and
    changes nothing, in memory or on disk. When the list of the decision
    holds a rule with the tool, the pattern and the command of the new
    rule, the first call changes nothing either; when it holds none, the
    first call puts the new rule at its end. After the two calls the list
    holds as many rules with that tool, pattern and command as before
    them, and one when it held none: exactly one unless it held more than
    one before. *)
Theorem remember_idempotent `{Host} (st : PermissionManager.Store)
    (projectName toolName : jsstring) (input : ToolInput) (allow : bool) :
  PermissionManager.lookup (PermissionManager.memory st) projectName <> Inherited ->
  let rule := PermissionManager.createRule toolName input in
  let once := PermissionManager.remember st projectName toolName input allow in
  let twice := PermissionManager.remember (snd once) projectName toolName input allow in
  let rules s := listOf allow (PermissionManager.memory s !!! projectName) in
  fst once = Returned tt
  /\ twice = once
  /\ ((exists r, r ∈ rules st /\ sameTuple rule r) -> snd once = st)
  /\ ((forall r, r ∈ rules st -> ~ sameTuple rule r) ->
      rules (snd once) = rules st ++ [rule])
  /\ countOf rule (rules (snd twice)) = Nat.max 1 (countOf rule (rules st))
  /\ ((countOf rule (rules st) <= 1)%nat -> countOf rule (rules (snd twice)) = 1%nat).
Proof.
  intros Hord rule once twice rules. subst once twice rules. cbv beta.
  rewrite remember_again.
  split; [now apply remember_returns|]. split; [reflexivity|].
  pose proof (remember_list st projectName toolName input allow Hord) as Hlist.
  cbv zeta in Hlist. fold rule in Hlist.
  destruct (countOf_existsb rule
              (listOf allow (PermissionManager.memory st !!! projectName)))
    as [Hsome Hnone].
  split; [|split].
  - intros Hdup. apply existsb_sameRule in Hdup. fold rule.
    now rewrite (remember_duplicate st projectName toolName input allow Hdup).
  - intros Hnew. rewrite Hlist.
    rewrite existsb_none; [reflexivity|].
    intros r Hr Hs. apply sameRule_spec in Hs. now apply (Hnew r).
  - rewrite Hlist.
    destruct (existsb (PermissionManager.sameRule rule) _) eqn:E.
    + specialize (Hsome eq_refl). split; lia.
    + specialize (Hnone eq_refl). rewrite countOf_app, Hnone, countOf_cons.
      rewrite sameRule_refl. cbn. split; [reflexivity|]. intros _. reflexivity.
Qed.

Lemma remember_idempotent_witness :
  let rule := PermissionManager.createRule (H := Fixture.host) (txt "Bash") Fixture.runTests in
  let once := PermissionManager.remember (H := Fixture.host) Fixture.emptyStore
                (txt "blog") (txt "Bash") Fixture.runTests true in
  let twice := PermissionManager.remember (H := Fixture.host) (snd once)
                 (txt "blog") (txt "Bash") Fixture.runTests true in
  twice = once
  /\ countOf rule (listOf true (PermissionManager.memory (snd twice) !!! txt "blog"))
     = 1%nat.
Proof.
  intros rule once twice.
  destruct (remember_idempotent (H := Fixture.host) Fixture.emptyStore
              (txt "blog") (txt "Bash") Fixture.runTests true)
    as (_ & Hsame & _ & _ & _ & Hone).
  - vm_compute. discriminate.
  - split; [exact Hsame|]. apply Hone. vm_compute. lia.
Defined.

(** ** Project registry *)




(** ** Command parser *)

Section ParserProperties.
Import Parser.

Lemma record_length (cap : bool) (taken : jsstring) (caps : list jsstring) :
  length (record cap taken caps) = (length caps + if cap then 1 else 0)%nat.
Proof. unfold jsstring. destruct cap; simpl; lia. Qed.

(** A match binds every group of its pattern. *)
Lemma greedy_groups (re : RegExp) (t : Term) (n : nat)
    (k : jsstring -> list jsstring -> option (list jsstring)) :
  (forall s caps r, k s caps = Some r -> length r = (length caps + n)%nat) ->
  forall s taken caps r,
    greedy re t k s taken caps = Some r ->
    length r = (length caps + (if capture t then 1 else 0) + n)%nat.
Proof.
  intros Hk. induction s as [|c s IH]; intros taken caps r; [discriminate|].
  simpl. destruct (classMatches re (cls t) c); [|discriminate].
  destruct (greedy re t k s (c :: taken) caps) as [r'|] eqn:Eg.
  - intros [= <-]. exact (IH _ _ _ Eg).
  - intros Hr. apply Hk in Hr. now rewrite record_length in Hr.
Qed.

Lemma matchTerms_groups (re : RegExp) (ts : list Term) :
  forall s caps r,
    matchTerms re ts s caps = Some r ->
    length r = (length caps + groupCount ts)%nat.
Proof.
  induction ts as [|t ts IH]; intros s caps r.
  - simpl. destruct s; [|discriminate]. intros [= <-].
    rewrite length_rev. unfold groupCount. simpl. lia.
  - assert (Hcount : groupCount (t :: ts)
                     = ((if capture t then 1 else 0) + groupCount ts)%nat).
    { unfold groupCount. cbn [filter]. unfold filter. cbn [list_filter].
      destruct (decide_rel eq (capture t) true) as [->|Hc]; [reflexivity|].
      destruct (capture t); [congruence|reflexivity]. }
    rewrite Hcount. cbn [matchTerms]. destruct (quant t).
    + destruct s as [|c s]; [discriminate|].
      destruct (classMatches re (cls t) c); [|discriminate].
      intros Hr. apply IH in Hr. rewrite record_length in Hr. lia.
    + intros Hr. apply (greedy_groups re t (groupCount ts) _ (IH)) in Hr. lia.
    + destruct (greedy re t (matchTerms re ts) s [] caps) as [r'|] eqn:Eg.
      * intros [= <-]. apply (greedy_groups re t (groupCount ts) _ (IH)) in Eg. lia.
      * intros Hr. apply IH in Hr. rewrite record_length in Hr. lia.
Qed.

Lemma jsmatch_groups (s : jsstring) (re : RegExp) (m : list jsstring) :
  jsmatch s re = Some m -> length m = S (groupCount (source re)).
Proof.
  unfold jsmatch. destruct (matchTerms re (source re) s []) as [g|] eqn:E; [|discriminate].
  intros [= <-]. apply matchTerms_groups in E. simpl in *. lia.
Qed.

Lemma withGroup_ok (m : list jsstring) (i : nat) (k : jsstring -> Form) :
  (i < length m)%nat -> (forall g, formOk (k g)) -> formOk (withGroup m i k).
Proof.
  intros Hi Hk. unfold withGroup.
  destruct (nth_error m i) eqn:E; [apply Hk|].
  apply nth_error_None in E. lia.
Qed.

Lemma logging_ok (line : jsstring) (f : Form) : formOk f -> formOk (logging line f).
Proof. now destruct f. Qed.

Lemma returns_ok (c : ParsedCommand) : formOk (returns c).
Proof. exact I. Qed.

Lemma fallThrough_ok : formOk fallThrough.
Proof. exact I. Qed.

Lemma firstReturn_ok (forms : list Form) :
  Forall formOk forms -> exists c, fst (firstReturn forms) = Returned c.
Proof.
  induction 1 as [|[[[c|e]|] out] forms Hf _ IH]; simpl.
  - eauto.
  - eauto.
  - destruct Hf.
  - destruct IH as [c Hc]. destruct (firstReturn forms) as [r out'].
    simpl in *. eauto.
Qed.

Ltac form_ok :=
  repeat match goal with
         | |- formOk (returns _) => apply returns_ok
         | |- formOk fallThrough => apply fallThrough_ok
         | |- formOk (logging _ _) => apply logging_ok
         | |- formOk (withGroup _ _ _) =>
             apply withGroup_ok; [simpl; lia|intros ?]
         | |- formOk (match ?l with [] => _ | _ :: _ => _ end) =>
             destruct l as [|[? ?] ?]
         | |- formOk (if ?b then _ else _) => destruct b
         end.

Lemma forms_ok (cfg : ClaudeCodeConfig) (trimmed : jsstring) :
  Forall formOk [ ccForm cfg trimmed; projectsForm trimmed; clearForm trimmed;
                  permForm trimmed; codeForm cfg trimmed; atForm cfg trimmed;
                  inForm cfg trimmed ].
Proof.
  repeat match goal with
         | |- Forall _ (_ :: _) => apply Forall_cons; split
         | |- Forall _ [] => exact (List.Forall_nil _)
         end.
  - unfold ccForm. destruct (jsmatch trimmed ccRe) as [m|] eqn:E; [|form_ok].
    apply jsmatch_groups in E. change (groupCount (source ccRe)) with 1%nat in E.
    form_ok.
  - unfold projectsForm. form_ok.
  - unfold clearForm. destruct (jsmatch trimmed clearRe) as [m|] eqn:E; [|form_ok].
    apply jsmatch_groups in E. change (groupCount (source clearRe)) with 1%nat in E.
    form_ok.
  - unfold permForm. destruct (jsmatch trimmed permRe) as [m|] eqn:E; [|form_ok].
    apply jsmatch_groups in E. change (groupCount (source permRe)) with 1%nat in E.
    form_ok.
  - unfold codeForm. destruct (jsmatch trimmed codeRe) as [m|] eqn:E; [|form_ok].
    apply jsmatch_groups in E. change (groupCount (source codeRe)) with 2%nat in E.
    form_ok.
  - unfold atForm. destruct (jsmatch trimmed atRe) as [m|] eqn:E; [|form_ok].
    apply jsmatch_groups in E. change (groupCount (source atRe)) with 2%nat in E.
    form_ok.
  - unfold inForm. destruct (jsmatch trimmed inRe) as [m|] eqn:E; [|form_ok].
    apply jsmatch_groups in E. change (groupCount (source inRe)) with 2%nat in E.
    form_ok.
Qed.

Lemma no_hit (s : jsstring) (re : RegExp) :
  bool_decide (is_Some (jsmatch s re)) = false -> jsmatch s re = None.
Proof.
  intros Hb. apply bool_decide_eq_false in Hb.
  destruct (jsmatch s re); [|reflexivity]. destruct Hb. eauto.
Qed.

End ParserProperties.

(** C8. [parseClaudeCodeCommand] raises on no input; and on an input that,
    trimmed, has none of the recognised command forms it returns null and
    writes nothing to the console. *)
Theorem parseClaudeCodeCommand_unrecognized (cfg : ClaudeCodeConfig) (input : jsstring) :
  (exists c, fst (Parser.parseClaudeCodeCommand cfg input) = Returned c)
  /\ (recognizedForm (trim input) = false ->
      Parser.parseClaudeCodeCommand cfg input = (Returned None, [])).
Proof.
  split.
  - unfold Parser.parseClaudeCodeCommand. apply firstReturn_ok, forms_ok.
  - unfold recognizedForm. intros Hno.
    repeat (apply orb_false_elim in Hno; destruct Hno as [Hno ?]).
    unfold Parser.parseClaudeCodeCommand, Parser.ccForm, Parser.projectsForm,
      Parser.clearForm, Parser.permForm, Parser.codeForm, Parser.atForm,
      Parser.inForm.
    repeat match goal with
           | Hh : bool_decide (is_Some (Parser.jsmatch _ _)) = false |- _ =>
               apply no_hit in Hh; rewrite Hh
           end.
    match goal with
    | Hp : bool_decide (toLowerCase _ = _) = false |- _ => rewrite Hp
    end.
    reflexivity.
Qed.

Lemma parseClaudeCodeCommand_unrecognized_witness :
  Parser.parseClaudeCodeCommand Fixture.blogConfig (txt "just chatting")
  = (Returned None, []).
Proof.
  apply (proj2 (parseClaudeCodeCommand_unrecognized Fixture.blogConfig
                  (txt "just chatting"))).
  vm_compute. reflexivity.
Defined.

(** The recognised forms, on the examples of the specification. *)
Example parse_mention :
  Parser.parseClaudeCodeCommand Fixture.blogConfig (txt "@Blog add a contact page")
  = (Returned (Some (Parser.ClaudeCodeCommand (txt "blog") (txt "add a contact page"))),
     [txt "[Parser] @mention detected: project=" ++ [Parser.DQUOTE] ++ txt "blog"
      ++ [Parser.DQUOTE] ++ txt ", exists=true"]).
Proof. vm_compute. reflexivity. Qed.

Example parse_forms :
  fst (Parser.parseClaudeCodeCommand Fixture.blogConfig (txt " CC  hi there"))
  = Returned (Some (Parser.ClaudeCodeCommand (txt "blog") (txt "hi there")))
  /\ fst (Parser.parseClaudeCodeCommand Fixture.blogConfig (txt "/Projects"))
     = Returned (Some Parser.ListProjectsCommand)
  /\ fst (Parser.parseClaudeCodeCommand Fixture.blogConfig (txt "/code-clear Blog"))
     = Returned (Some (Parser.ClearSessionCommand (txt "blog")))
  /\ fst (Parser.parseClaudeCodeCommand Fixture.blogConfig (txt "/code work do x"))
     = Returned (Some (Parser.ClaudeCodeCommand (txt "work") (txt "do x")))
  /\ fst (Parser.parseClaudeCodeCommand Fixture.blogConfig (txt "IN Work: fix: it"))
     = Returned (Some (Parser.ClaudeCodeCommand (txt "work") (txt "fix: it")))
  /\ fst (Parser.parseClaudeCodeCommand Fixture.blogConfig (txt "in work:fix: it"))
     = Returned None
  /\ fst (Parser.parseClaudeCodeCommand Fixture.blogConfig (txt "@nope fix it"))
     = Returned None.
Proof. vm_compute. repeat split. Qed.

(** ** Permission negotiation *)

Section Negotiation.
Context `{Host}.
Import Executor.

Lemma resolve_frame (s : ExecutorState) (q : nat) (r : PermissionResult) :
  pendingPermissions (resolve s q r) = pendingPermissions s
  /\ timers (resolve s q r) = timers s
  /\ asked (resolve s q r) = asked s
  /\ length (promises (resolve s q r)) = length (promises s)
  /\ forall p, p <> q -> promises (resolve s q r) !! p = promises s !! p.
Proof.
  unfold resolve. destruct (promises s !! q) as [w|]; [|now repeat split].
  destruct (resolveCalls w); cbn;
    (split; [reflexivity|split; [reflexivity|split; [reflexivity|split]]];
     [apply length_insert|intros p' Hp'; apply list_lookup_insert_ne; congruence]).
Qed.

(** The first invocation of a resolver settles the promise and lets the
    suspended call go on. *)
Lemma resolve_first (s : ExecutorState) (q : nat) (r : PermissionResult) (w : Waiting) :
  promises s !! q = Some w -> resolveCalls w = [] ->
  (exists w', promises (resolve s q r) !! q = Some w' /\ resolveCalls w' = [r])
  /\ (let remembered :=
        if res_remember r
        then PermissionManager.remember (store s) (w_projectName w) (w_toolName w)
               (w_input w) (res_approved r)
        else (Returned tt, store s) in
      store (resolve s q r) = snd remembered
      /\ verdicts (resolve s q r)
         = verdicts s
           ++ [(Some q,
                match fst remembered with
                | Thrown e => Rejected e
                | Returned _ =>
                    if res_approved r then Allow (w_input w)
                    else Deny (txt "User denied permission.")
                end)]).
Proof.
  intros Hq Hcalls. unfold resolve. rewrite Hq, Hcalls. cbn.
  split; [|split; reflexivity].
  eexists. split.
  - rewrite list_lookup_insert_eq; [reflexivity|]. now apply lookup_lt_Some in Hq.
  - reflexivity.
Qed.

Lemma find_timer (p : nat) (l : list Timer) (t : Timer) :
  List.find (fun t => bool_decide (t_promise t = p)) l = Some t ->
  t ∈ l /\ t_promise t = p.
Proof.
  intros Hf. apply find_some in Hf. destruct Hf as [Hin Hp].
  split; [now apply list_elem_of_In|]. now apply bool_decide_eq_true in Hp.
Qed.

Lemma find_timer_armed (p : nat) (l : list Timer) :
  (exists t, t ∈ l /\ t_promise t = p) ->
  exists t, List.find (fun t => bool_decide (t_promise t = p)) l = Some t.
Proof.
  intros (t & Hin & Hp).
  destruct (List.find _ l) as [t'|] eqn:Hf; [eauto|].
  apply list_elem_of_In in Hin.
  pose proof (find_none _ _ Hf t Hin) as Hno. cbv beta in Hno.
  apply bool_decide_eq_false in Hno. contradiction.
Qed.

Lemma elem_of_disarm (s : ExecutorState) (q : nat) (t : Timer) :
  t ∈ timers (disarm s q) <-> t_promise t <> q /\ t ∈ timers s.
Proof.
  unfold disarm. cbn [timers].
  apply (list_elem_of_filter (fun t => t_promise t <> q)).
Qed.

(** *** Before the request *)

Lemma unused_initial (id : jsstring) (st : PermissionManager.Store) :
  unused id (initial st).
Proof.
  split; [reflexivity|]. split.
  - intros k q Hk. cbn in Hk. now rewrite lookup_empty in Hk.
  - intros t Ht. cbn in Ht. now apply not_elem_of_nil in Ht.
Qed.

Lemma unused_step (id : jsstring) (s : ExecutorState) (e : Event) :
  unused id s -> otherRequest id e -> unused id (step s e).
Proof.
  intros (Hid & Hpend & Htim) He. destruct e as [id' chat proj tl input|r|q]; cbn [step].
  - cbn in He. unfold handlePermission.
    destruct (PermissionManager.checkPermission _ _ _ _) as [[| |]|?]; cbn;
      try (split; [exact Hid|split; assumption]).
    unfold unused. cbn. split; [now rewrite lookup_insert_ne|].
    split.
    + intros k q. rewrite length_app. cbn. rewrite lookup_insert.
      destruct (decide (id' = k)); [intros [= <-]; lia|].
      intros Hk. apply Hpend in Hk. lia.
    + intros t Ht. rewrite length_app. cbn. apply elem_of_app in Ht.
      destruct Ht as [Ht|Ht].
      * destruct (Htim t Ht) as (H1 & H2 & H3). repeat split; [lia|exact H2|exact H3].
      * apply list_elem_of_singleton in Ht. subst t. cbn. repeat split; [lia|exact He].
  - unfold onPermissionResponse.
    destruct (pendingPermissions s !! resp_requestId r) as [q|] eqn:Hq;
      [|split; [exact Hid|split; assumption]].
    destruct (resolve_frame s q {| res_approved := approved r;
                                    res_remember := rememberChoice r |})
      as (Hp & Ht & _ & Hl & _).
    unfold unused, setPending. cbn. rewrite Hp, Ht, Hl. split; [|split].
    + rewrite lookup_delete. case_decide; [reflexivity|exact Hid].
    + intros k q'. rewrite lookup_delete. case_decide; [discriminate|]. apply Hpend.
    + exact Htim.
  - destruct (List.find _ (timers s)) as [t|] eqn:Hf;
      [|split; [exact Hid|split; assumption]].
    apply find_timer in Hf. destruct Hf as [Hin Hq].
    assert (Hdis : unused id (disarm s q)).
    { split; [exact Hid|]. split; [exact Hpend|].
      intros t' Ht'. apply elem_of_disarm in Ht'. now apply Htim. }
    unfold onTimeout. case_bool_decide as Hhas; [|exact Hdis].
    destruct Hdis as (Hid' & Hpend' & Htim').
    match goal with |- unused id (resolve ?s1 ?p1 ?r1) =>
      destruct (resolve_frame s1 p1 r1) as (Hp & Ht & _ & Hl & _) end.
    unfold unused. rewrite Hp, Ht, Hl. cbn. split; [|split].
    + rewrite lookup_delete. case_decide; [reflexivity|exact Hid].
    + intros k q'. rewrite lookup_delete. case_decide; [discriminate|]. apply Hpend.
    + exact Htim'.
Qed.

Lemma unused_run (id : jsstring) (events : list Event) :
  forall s, unused id s -> Forall (otherRequest id) events -> unused id (run s events).
Proof.
  induction events as [|e events IH]; intros s Hs Hall; [exact Hs|].
  apply Forall_cons in Hall. destruct Hall as [He Hall].
  cbn. apply IH; [|exact Hall]. now apply unused_step.
Qed.

(** *** From the request on *)

Lemma quiet_otherRequest (id : jsstring) (p : nat) (e : Event) :
  quiet id p e -> otherRequest id e.
Proof. destruct e; cbn; tauto. Qed.

Lemma ask_waiting (id chat proj tl : jsstring) (input : ToolInput) (s : ExecutorState) :
  unused id s ->
  PermissionManager.checkPermission (PermissionManager.memory (store s)) proj tl input
  = Returned PermissionManager.Ask ->
  waiting id (length (promises s)) (handlePermission s id chat proj tl input).
Proof.
  intros (Hid & Hpend & Htim) Hask. unfold handlePermission. rewrite Hask.
  unfold waiting, tracked. cbn. rewrite length_app. cbn.
  split; [split; [|split]|split].
  - intros k q. rewrite lookup_insert. destruct (decide (id = k)) as [->|Hk].
    + intros [= <-]. split; [lia|tauto].
    + intros Hq. apply Hpend in Hq. split; [lia|]. split; [lia|congruence].
  - intros t Ht. apply elem_of_app in Ht. destruct Ht as [Ht|Ht].
    + destruct (Htim t Ht) as (H1 & H2 & H3).
      split; [lia|]. split; [|exact H3]. split; [lia|congruence].
    + apply list_elem_of_singleton in Ht. subst t. cbn.
      split; [lia|]. split; [tauto|reflexivity].
  - eexists. split; [now apply list_lookup_middle|].
    left. split; [apply lookup_insert_eq|reflexivity].
  - apply lookup_insert_eq.
  - eexists. split; [apply elem_of_app; right; apply list_elem_of_here|reflexivity].
Qed.

Lemma tracked_step (id : jsstring) (p : nat) (s : ExecutorState) (e : Event) :
  tracked id p s -> otherRequest id e -> tracked id p (step s e).
Proof.
  intros (Hpend & Htim & w & Hw & Hstate) He.
  assert (Hp : (p < length (promises s))%nat) by now apply lookup_lt_Some in Hw.
  destruct e as [id' chat proj tl input|r|q]; cbn [step].
  - cbn in He. unfold handlePermission.
    destruct (PermissionManager.checkPermission _ _ _ _) as [[| |]|?];
      try (unfold tracked; cbn; eauto 10).
    unfold tracked. cbn. rewrite length_app. cbn. split; [|split].
    + intros k q. rewrite lookup_insert. destruct (decide (id' = k)) as [->|Hk].
      * intros [= <-]. split; [lia|]. split; [lia|congruence].
      * intros Hq. destruct (Hpend k q Hq). split; [lia|assumption].
    + intros t Ht. apply elem_of_app in Ht. destruct Ht as [Ht|Ht].
      * destruct (Htim t Ht) as (H1 & H2 & H3). split; [lia|]. now split.
      * apply list_elem_of_singleton in Ht. subst t. cbn.
        split; [lia|]. split; [|reflexivity]. split; [lia|congruence].
    + exists w. split; [now rewrite lookup_app_l|].
      now rewrite lookup_insert_ne.
  - unfold onPermissionResponse.
    destruct (pendingPermissions s !! resp_requestId r) as [q|] eqn:Hq;
      [|unfold tracked; eauto 10].
    set (res := {| res_approved := approved r; res_remember := rememberChoice r |}).
    destruct (resolve_frame s q res) as (Hfp & Hft & _ & Hfl & Hfo).
    destruct (Hpend _ _ Hq) as [Hq1 Hq2].
    unfold tracked, setPending. cbn. rewrite Hfp, Hft, Hfl. split; [|split].
    + intros k q'. rewrite lookup_delete. case_decide; [discriminate|]. apply Hpend.
    + exact Htim.
    + destruct (decide (resp_requestId r = id)) as [Hk|Hk].
      * assert (q = p) by tauto. subst q. rewrite Hk in *.
        destruct Hstate as [[_ Hcalls]|[Hnone _]]; [|congruence].
        destruct (resolve_first s p res w Hw Hcalls) as ((w' & Hw' & Hc') & _).
        exists w'. split; [exact Hw'|]. right.
        split; [apply lookup_delete_eq|]. rewrite Hc'. cbn. lia.
      * assert (p <> q) by (intros ->; tauto).
        exists w. split; [now rewrite Hfo|]. now rewrite lookup_delete_ne.
  - destruct (List.find _ (timers s)) as [t|] eqn:Hf; [|unfold tracked; eauto 10].
    apply find_timer in Hf. destruct Hf as [Hin Hq].
    destruct (Htim t Hin) as (_ & Hpid & _).
    assert (Htim' : forall t', t' ∈ timers (disarm s q) ->
              (t_promise t' < length (promises s))%nat
              /\ (t_promise t' = p <-> t_permissionId t' = id)
              /\ t_delay t' = PERMISSION_TIMEOUT).
    { intros t' Ht'. apply elem_of_disarm in Ht'. now apply Htim. }
    unfold onTimeout. rewrite Hq. case_bool_decide as Hhas.
    + set (s1 := setPending (disarm s q) _).
      set (res := {| res_approved := false; res_remember := false |}).
      destruct (resolve_frame s1 q res) as (Hfp & Hft & _ & Hfl & Hfo).
      unfold tracked. rewrite Hfp, Hft, Hfl. cbn. split; [|split].
      * intros k q'. rewrite lookup_delete. case_decide; [discriminate|]. apply Hpend.
      * exact Htim'.
      * destruct (decide (q = p)) as [->|Hne].
        -- assert (Hid : t_permissionId t = id) by tauto. rewrite Hid in *.
           cbn in Hhas. destruct Hhas as [q' Hq'].
           assert (q' = p) by (destruct (Hpend _ _ Hq'); tauto). subst q'.
           destruct Hstate as [[_ Hcalls]|[Hnone _]]; [|congruence].
           destruct (resolve_first s1 p res w Hw Hcalls) as ((w' & Hw' & Hc') & _).
           exists w'. split; [exact Hw'|]. right.
           split; [apply lookup_delete_eq|]. rewrite Hc'. cbn. lia.
        -- assert (t_permissionId t <> id) by (rewrite <- Hq in Hne; tauto).
           exists w. split; [now rewrite Hfo|]. now rewrite lookup_delete_ne.
    + unfold tracked. cbn. eauto 10.
Qed.

Lemma tracked_run (id : jsstring) (p : nat) (events : list Event) :
  forall s, tracked id p s -> Forall (otherRequest id) events ->
    tracked id p (run s events).
Proof.
  induction events as [|e events IH]; intros s Hs Hall; [exact Hs|].
  apply Forall_cons in Hall. destruct Hall as [He Hall].
  cbn. apply IH; [|exact Hall]. now apply tracked_step.
Qed.

Lemma waiting_step (id : jsstring) (p : nat) (s : ExecutorState) (e : Event) :
  waiting id p s -> quiet id p e -> waiting id p (step s e).
Proof.
  intros (Htr & Hpend & tp & Htp & Hpp) He.
  split; [apply tracked_step; [exact Htr|now apply quiet_otherRequest with p]|].
  destruct Htr as (_ & Htim & _).
  destruct e as [id' chat proj tl input|r|q]; cbn [step]; cbn in He.
  - unfold handlePermission.
    destruct (PermissionManager.checkPermission _ _ _ _) as [[| |]|?]; cbn; eauto.
    split; [now rewrite lookup_insert_ne|].
    exists tp. split; [apply elem_of_app; now left|exact Hpp].
  - unfold onPermissionResponse.
    destruct (pendingPermissions s !! resp_requestId r) as [q|] eqn:Hq; [|eauto].
    match goal with |- context [resolve ?s1 ?q1 ?r1] =>
      destruct (resolve_frame s1 q1 r1) as (Hfp & Hft & _) end.
    unfold setPending. cbn. rewrite Hfp, Hft.
    split; [now rewrite lookup_delete_ne|eauto].
  - destruct (List.find _ (timers s)) as [t|] eqn:Hf; [|eauto].
    apply find_timer in Hf. destruct Hf as [Hin Hq].
    destruct (Htim t Hin) as (_ & Hpid & _).
    assert (Hother : t_permissionId t <> id) by (rewrite <- Hq in He; tauto).
    assert (Harmed : tp ∈ timers (disarm s q)).
    { apply elem_of_disarm. split; [congruence|exact Htp]. }
    unfold onTimeout. rewrite Hq. case_bool_decide as Hhas; [|cbn; eauto].
    match goal with |- context [resolve ?s1 ?q1 ?r1] =>
      destruct (resolve_frame s1 q1 r1) as (Hfp & Hft & _) end.
    rewrite Hfp, Hft. cbn. split; [now rewrite lookup_delete_ne|eauto].
Qed.

Lemma waiting_run (id : jsstring) (p : nat) (events : list Event) :
  forall s, waiting id p s -> Forall (quiet id p) events -> waiting id p (run s events).
Proof.
  induction events as [|e events IH]; intros s Hs Hall; [exact Hs|].
  apply Forall_cons in Hall. destruct Hall as [He Hall].
  cbn. apply IH; [|exact Hall]. now apply waiting_step.
Qed.

(** The watchdog of a request that still waits. *)
Lemma waiting_timeout (id : jsstring) (p : nat) (s : ExecutorState) :
  waiting id p s ->
  let s' := step s (TimeoutFires p) in
  (exists t, List.find (fun t => bool_decide (t_promise t = p)) (timers s) = Some t
             /\ t_permissionId t = id /\ t_delay t = PERMISSION_TIMEOUT)
  /\ (exists w, promises s !! p = Some w /\ resolveCalls w = [])
  /\ (exists w', promises s' !! p = Some w'
        /\ resolveCalls w' = [ {| res_approved := false; res_remember := false |} ])
  /\ store s' = store s
  /\ pendingPermissions s' !! id = None
  /\ verdicts s' = verdicts s ++ [(Some p, Deny (txt "User denied permission."))].
Proof.
  intros (Htr & Hpend & Harmed) s'. subst s'.
  destruct Htr as (_ & Htim & w & Hw & Hstate).
  destruct Hstate as [[_ Hcalls]|[Hnone _]]; [|congruence].
  destruct (find_timer_armed p (timers s) Harmed) as [t Hf].
  pose proof (find_timer p _ t Hf) as [Hin Hq].
  destruct (Htim t Hin) as (_ & Hpid & Hdelay).
  assert (Hid : t_permissionId t = id) by tauto.
  cbn [step]. rewrite Hf. unfold onTimeout. rewrite Hid, Hq.
  rewrite bool_decide_eq_true_2 by (cbn; eauto).
  set (s1 := setPending (disarm s p) _).
  set (res := {| res_approved := false; res_remember := false |}).
  destruct (resolve_frame s1 p res) as (Hfp & _).
  destruct (resolve_first s1 p res w Hw Hcalls) as (Hw' & Hstore & Hverd).
  split; [eauto|]. split; [eauto|]. split; [exact Hw'|].
  split; [exact Hstore|]. split; [|exact Hverd].
  rewrite Hfp. cbn. apply lookup_delete_eq.
Qed.

(** Invocations of a resolver are only ever added. *)
Lemma resolve_calls_grow (s : ExecutorState) (q : nat) (r : PermissionResult)
    (p : nat) (w : Waiting) :
  promises s !! p = Some w ->
  exists w' extra, promises (resolve s q r) !! p = Some w'
    /\ resolveCalls w' = resolveCalls w ++ extra.
Proof.
  intros Hw. destruct (decide (p = q)) as [->|Hne].
  - unfold resolve. rewrite Hw.
    assert (Hlt : (q < length (promises s))%nat) by now apply lookup_lt_Some in Hw.
    destruct (resolveCalls w) eqn:Hc; cbn;
      rewrite list_lookup_insert_eq by exact Hlt;
      eexists _, [r]; (split; reflexivity).
  - destruct (resolve_frame s q r) as (_ & _ & _ & _ & Hfo).
    exists w, []. rewrite Hfo by exact Hne. now rewrite app_nil_r.
Qed.

Lemma calls_grow_step (s : ExecutorState) (e : Event) (p : nat) (w : Waiting) :
  promises s !! p = Some w ->
  exists w' extra, promises (step s e) !! p = Some w'
    /\ resolveCalls w' = resolveCalls w ++ extra.
Proof.
  intros Hw.
  assert (Hsame : exists w' extra, promises s !! p = Some w'
            /\ resolveCalls w' = resolveCalls w ++ extra)
    by (exists w, []; now rewrite app_nil_r).
  destruct e as [id' chat proj tl input|r|q]; cbn [step].
  - unfold handlePermission.
    destruct (PermissionManager.checkPermission _ _ _ _) as [[| |]|?]; cbn; try exact Hsame.
    exists w, []. rewrite app_nil_r. split; [|reflexivity].
    rewrite lookup_app_l; [exact Hw|]. now apply lookup_lt_Some in Hw.
  - unfold onPermissionResponse.
    destruct (pendingPermissions s !! resp_requestId r) as [q|]; [|exact Hsame].
    unfold setPending. cbn [promises]. now apply resolve_calls_grow.
  - destruct (List.find _ (timers s)) as [t|]; [|exact Hsame].
    unfold onTimeout. case_bool_decide; [|exact Hsame].
    now apply resolve_calls_grow.
Qed.

Lemma calls_grow_run (events : list Event) :
  forall (s : ExecutorState) (p : nat) (w : Waiting),
    promises s !! p = Some w ->
    exists w' extra, promises (run s events) !! p = Some w'
      /\ resolveCalls w' = resolveCalls w ++ extra.
Proof.
  induction events as [|e events IH]; intros s p w Hw.
  - exists w, []. now rewrite app_nil_r.
  - destruct (calls_grow_step s e p w Hw) as (w1 & x1 & Hw1 & Hc1).
    destruct (IH (step s e) p w1 Hw1) as (w2 & x2 & Hw2 & Hc2).
    exists w2, (x1 ++ x2). split; [exact Hw2|].
    now rewrite Hc2, Hc1, app_assoc.
Qed.

Lemma tracked_once (id : jsstring) (p : nat) (s : ExecutorState) :
  tracked id p s ->
  exists w, promises s !! p = Some w /\ (length (resolveCalls w) <= 1)%nat.
Proof.
  intros (_ & _ & w & Hw & [[_ Hc]|[_ Hc]]); exists w; (split; [exact Hw|]).
  - rewrite Hc. cbn. lia.
  - exact Hc.
Qed.

(** After a response to a request id, nothing is pending under it. *)
Lemma responded_not_pending (s : ExecutorState) (r : ClaudeCodePermissionResponse) :
  pendingPermissions (step s (PermissionResponse r)) !! resp_requestId r = None.
Proof.
  cbn [step]. unfold onPermissionResponse.
  destruct (pendingPermissions s !! resp_requestId r) as [q|] eqn:Hq; [|exact Hq].
  unfold setPending. cbn. apply lookup_delete_eq.
Qed.

(** After the timeout of a request id, nothing is pending under it. *)
Lemma timed_out_not_pending (s : ExecutorState) (p : nat) (t : Timer) :
  List.find (fun t => bool_decide (t_promise t = p)) (timers s) = Some t ->
  pendingPermissions (step s (TimeoutFires p)) !! t_permissionId t = None.
Proof.
  intros Hf. cbn [step]. rewrite Hf. unfold onTimeout.
  case_bool_decide as Hhas.
  - match goal with |- context [resolve ?s1 ?q1 ?r1] =>
      destruct (resolve_frame s1 q1 r1) as (Hfp & _) end.
    rewrite Hfp. cbn. apply lookup_delete_eq.
  - cbn in *. destruct (pendingPermissions s !! t_permissionId t) eqn:E; [|reflexivity].
    destruct Hhas. eauto.
Qed.

Lemma response_unknown (s : ExecutorState) (r : ClaudeCodePermissionResponse) :
  pendingPermissions s !! resp_requestId r = None ->
  step s (PermissionResponse r) = s.
Proof. intros Hnone. cbn [step]. unfold onPermissionResponse. now rewrite Hnone. Qed.

End Negotiation.

(** C4. A permission request that gets no response before its watchdog
    fires: the watchdog is armed with five minutes; when it fires, the
    promise is resolved with [{approved: false, remember: false}], the
    permission store (memory and disk) is left as it was, the entry leaves
    the pending table, and the agent gets the denial. The resolver is
    invoked exactly once then, whatever comes later (a late response
    included), and at most once in every run, whichever of response and
    timeout comes first. Request ids are not used twice. *)
Theorem permission_timeout `{Host} (st : PermissionManager.Store)
    (history before later : list Executor.Event)
    (id chat proj tl : jsstring) (input : ToolInput) :
  let s0 := Executor.run (Executor.initial st) history in
  let p := length (Executor.promises s0) in
  let s1 := Executor.handlePermission s0 id chat proj tl input in
  let s2 := Executor.run s1 before in
  let s3 := Executor.step s2 (Executor.TimeoutFires p) in
  let denial := {| Executor.res_approved := false; Executor.res_remember := false |} in
  Forall (otherRequest id) history ->
  PermissionManager.checkPermission (PermissionManager.memory (Executor.store s0))
    proj tl input = Returned PermissionManager.Ask ->
  Forall (quiet id p) before ->
  Forall (otherRequest id) later ->
  (exists t,
     List.find (fun t => bool_decide (Executor.t_promise t = p)) (Executor.timers s2)
     = Some t
     /\ Executor.t_permissionId t = id /\ Executor.t_delay t = 5 * 60 * 1000)
  /\ (exists w, Executor.promises s2 !! p = Some w /\ Executor.resolveCalls w = [])
  /\ (exists w, Executor.promises s3 !! p = Some w
        /\ Executor.resolveCalls w = [denial])
  /\ Executor.store s3 = Executor.store s2
  /\ Executor.pendingPermissions s3 !! id = None
  /\ Executor.verdicts s3
     = Executor.verdicts s2
       ++ [(Some p, Executor.Deny (txt "User denied permission."))]
  /\ (exists w, Executor.promises (Executor.run s3 later) !! p = Some w
        /\ Executor.resolveCalls w = [denial])
  /\ (forall events, Forall (otherRequest id) events ->
        exists w, Executor.promises (Executor.run s1 events) !! p = Some w
          /\ (length (Executor.resolveCalls w) <= 1)%nat).
Proof.
  intros s0 p s1 s2 s3 denial Hhistory Hask Hbefore Hlater.
  assert (Hs0 : unused id s0)
    by (apply unused_run; [apply unused_initial|exact Hhistory]).
  assert (Hs1 : waiting id p s1) by now apply ask_waiting.
  assert (Hs2 : waiting id p s2) by now apply waiting_run.
  destruct (waiting_timeout id p s2 Hs2)
    as (Htimer & Hfresh & Hdenied & Hstore & Hgone & Hverdict).
  fold s3 in Hdenied, Hstore, Hgone, Hverdict.
  split; [exact Htimer|]. split; [exact Hfresh|]. split; [exact Hdenied|].
  split; [exact Hstore|]. split; [exact Hgone|]. split; [exact Hverdict|].
  split.
  - assert (Hs3 : tracked id p s3)
      by (apply tracked_step; [apply Hs2|exact I]).
    destruct Hdenied as (w3 & Hw3 & Hc3).
    destruct (calls_grow_run later s3 p w3 Hw3) as (w & extra & Hw & Hc).
    destruct (tracked_once id p _ (tracked_run id p later s3 Hs3 Hlater))
      as (w' & Hw' & Hle).
    rewrite Hw in Hw'. injection Hw' as <-.
    exists w. split; [exact Hw|]. rewrite Hc, Hc3 in *.
    destruct extra; [reflexivity|]. cbn in Hle. lia.
  - intros events Hevents. apply (tracked_once id).
    apply tracked_run; [apply Hs1|exact Hevents].
Qed.

Lemma permission_timeout_witness :
  let id := txt "perm-1700000000000-k3x9" in
  let late := {| resp_requestId := id; resp_chatId := txt "7";
                 approved := true; rememberChoice := true |} in
  let s1 := Executor.handlePermission (H := Fixture.host)
              (Executor.initial Fixture.emptyStore)
              id (txt "7") (txt "blog") (txt "Bash") Fixture.runTests in
  let s3 := Executor.step s1 (Executor.TimeoutFires 0) in
  Executor.store s3 = Executor.store s1
  /\ Executor.pendingPermissions s3 !! id = None
  /\ exists w,
       Executor.promises
         (Executor.run s3 [Executor.PermissionResponse late]) !! 0%nat = Some w
       /\ Executor.resolveCalls w
          = [ {| Executor.res_approved := false; Executor.res_remember := false |} ].
Proof.
  intros id late s1 s3.
  destruct (permission_timeout (H := Fixture.host) Fixture.emptyStore [] []
              [Executor.PermissionResponse late]
              id (txt "7") (txt "blog") (txt "Bash") Fixture.runTests)
    as (_ & _ & _ & Hstore & Hgone & _ & Hlate & _).
  - exact (List.Forall_nil _).
  - vm_compute. reflexivity.
  - exact (List.Forall_nil _).
  - apply List.Forall_cons; [exact I|apply List.Forall_nil].
  - split; [exact Hstore|]. split; [exact Hgone|exact Hlate].
Defined.

(** C10. A permission response whose request id has no entry in the pending
    table changes nothing: no resolver is invoked, and promises, pending
    table, timers and permission store stay as they are. This is so for an
    id never seen, for an id already answered, and for an id already timed
    out. *)
Theorem permission_response_without_entry `{Host}
    (s : Executor.ExecutorState) (r : ClaudeCodePermissionResponse) :
  (Executor.pendingPermissions s !! resp_requestId r = None ->
   Executor.step s (Executor.PermissionResponse r) = s)
  /\ (forall r', resp_requestId r' = resp_requestId r ->
        let s1 := Executor.step s (Executor.PermissionResponse r') in
        Executor.step s1 (Executor.PermissionResponse r) = s1)
  /\ (forall p t,
        List.find (fun t => bool_decide (Executor.t_promise t = p)) (Executor.timers s)
        = Some t ->
        Executor.t_permissionId t = resp_requestId r ->
        let s1 := Executor.step s (Executor.TimeoutFires p) in
        Executor.step s1 (Executor.PermissionResponse r) = s1).
Proof.
  split; [apply response_unknown|]. split.
  - intros r' Hid s1. apply response_unknown. subst s1.
    rewrite <- Hid. apply responded_not_pending.
  - intros p t Hf Hid s1. apply response_unknown. subst s1.
    rewrite <- Hid. now apply timed_out_not_pending.
Qed.

Lemma permission_response_without_entry_witness :
  let r := {| resp_requestId := txt "perm-0-stale"; resp_chatId := txt "7";
              approved := true; rememberChoice := true |} in
  Executor.step (H := Fixture.host) (Executor.initial Fixture.emptyStore)
    (Executor.PermissionResponse r)
  = Executor.initial Fixture.emptyStore.
Proof.
  intros r.
  apply (proj1 (permission_response_without_entry (H := Fixture.host)
                  (Executor.initial Fixture.emptyStore) r)).
  reflexivity.
Defined.

(** * Further properties *)

(** ** Conversation history *)

Section Conversations.
Context {Content : Type}.
Import ConversationStore.

Local Abbreviation Conversations := (gmap jsstring (ConversationEntry Content)).
Local Abbreviation Message := (MessageParam Content).

Lemma shiftToUser_suffix (ms : list Message) : shiftToUser ms `suffix_of` ms.
Proof.
  induction ms as [|m ms IH]; [reflexivity|]. simpl.
  destruct (role m); [reflexivity|]. now apply suffix_cons_r.
Qed.

Lemma shiftToUser_head (ms : list Message) :
  match shiftToUser ms with
  | [] => Forall (fun m => role m = assistant) ms
  | m :: _ => role m = user
  end.
Proof.
  induction ms as [|m ms IH]; simpl; [constructor|].
  destruct (role m) eqn:Er; [exact Er|].
  destruct (shiftToUser ms); [now constructor|exact IH].
Qed.

(** What the loop drops: the leading assistant messages, all of them. *)
Lemma shiftToUser_lead (ms : list Message) :
  exists lead, ms = lead ++ shiftToUser ms
    /\ Forall (fun m => role m = assistant) lead.
Proof.
  induction ms as [|m ms (lead & Hms & Hlead)]; simpl.
  - exists []. split; [reflexivity|constructor].
  - destruct (role m) eqn:Er.
    + exists []. split; [reflexivity|constructor].
    + exists (m :: lead). split; [cbn; congruence|now constructor].
Qed.

Lemma shiftToUser_empty (ms : list Message) :
  shiftToUser ms = [] <-> Forall (fun m => role m = assistant) ms.
Proof.
  induction ms as [|m ms IH]; simpl.
  - split; [constructor|reflexivity].
  - rewrite Forall_cons. destruct (role m) eqn:Er.
    + split; [discriminate|]. intros [? _]. discriminate.
    + rewrite IH. tauto.
Qed.

Lemma shiftToUser_keeps_user (ms : list Message) (m : Message) :
  role m = user -> exists front, shiftToUser (ms ++ [m]) = front ++ [m].
Proof.
  intros Hm. induction ms as [|x ms IH]; simpl.
  - rewrite Hm. now exists [].
  - destruct (role x); [now exists (x :: ms)|exact IH].
Qed.

Lemma truncated_suffix (ms : list Message) : truncated ms `suffix_of` ms.
Proof.
  unfold truncated. destruct (MAX_MESSAGES <? _); [|reflexivity].
  etransitivity; [apply shiftToUser_suffix|apply suffix_drop].
Qed.

Lemma truncated_length (ms : list Message) :
  Z.of_nat (length (truncated ms)) <= MAX_MESSAGES.
Proof.
  unfold truncated. destruct (MAX_MESSAGES <? Z.of_nat (length ms)) eqn:E.
  - apply Z.ltb_lt in E.
    pose proof (suffix_length _ _ (shiftToUser_suffix
                  (skipn (Z.to_nat (Z.of_nat (length ms) - MAX_MESSAGES)) ms))) as Hs.
    rewrite length_skipn in Hs. unfold MAX_MESSAGES in *. lia.
  - apply Z.ltb_ge in E. exact E.
Qed.

Lemma push_entry (conversations : Conversations) (now : Z) (chatId : jsstring)
    (m : Message) :
  push (ensureConversation conversations now chatId) now chatId m !! chatId
  = Some {| messages := truncated (historyOf conversations chatId ++ [m]);
            lastUpdated := now |}.
Proof.
  unfold push, ensureConversation, historyOf, truncateIfNeeded.
  destruct (conversations !! chatId) as [entry|] eqn:E.
  - rewrite E, !lookup_insert_eq. reflexivity.
  - rewrite !lookup_insert_eq. reflexivity.
Qed.

Lemma setMessages_entry (conversations : Conversations) (now : Z) (chatId : jsstring)
    (ms : list Message) :
  setMessages conversations now chatId ms !! chatId
  = Some {| messages := truncated ms; lastUpdated := now |}.
Proof.
  unfold setMessages, ensureConversation, truncateIfNeeded.
  destruct (conversations !! chatId) as [entry|] eqn:E.
  - rewrite E, !lookup_insert_eq. reflexivity.
  - rewrite !lookup_insert_eq. reflexivity.
Qed.

Lemma push_other (conversations : Conversations) (now : Z) (chatId other : jsstring)
    (m : Message) :
  other <> chatId ->
  push (ensureConversation conversations now chatId) now chatId m !! other
  = conversations !! other.
Proof.
  intros Hne. unfold push, ensureConversation, truncateIfNeeded.
  destruct (conversations !! chatId) as [entry|] eqn:E.
  - rewrite E, lookup_insert_eq. now rewrite !lookup_insert_ne by congruence.
  - rewrite !lookup_insert_eq. now rewrite !lookup_insert_ne by congruence.
Qed.

Lemma truncated_small (ms : list Message) :
  (length ms <= 20)%nat -> truncated ms = ms.
Proof.
  intros Hl. unfold truncated, MAX_MESSAGES.
  destruct (20 <? Z.of_nat (length ms)) eqn:E; [|reflexivity].
  apply Z.ltb_lt in E. lia.
Qed.

Lemma truncated_large (ms : list Message) :
  (20 < length ms)%nat -> truncated ms = shiftToUser (skipn (length ms - 20) ms).
Proof.
  intros Hl. unfold truncated, MAX_MESSAGES.
  destruct (20 <? Z.of_nat (length ms)) eqn:E.
  - now replace (Z.to_nat (Z.of_nat (length ms) - 20)) with (length ms - 20)%nat by lia.
  - apply Z.ltb_ge in E. lia.
Qed.

Lemma truncated_keeps_user (ms : list Message) (m : Message) :
  role m = user -> exists front, truncated (ms ++ [m]) = front ++ [m].
Proof.
  intros Hm. destruct (le_lt_dec (length (ms ++ [m])) 20) as [Hle|Hgt].
  - rewrite truncated_small by exact Hle. now exists ms.
  - rewrite truncated_large by exact Hgt. rewrite length_app in *. cbn [length] in *.
    rewrite skipn_app.
    replace (length ms + 1 - 20 - length ms)%nat with 0%nat by lia.
    cbn [skipn]. now apply shiftToUser_keeps_user.
Qed.

End Conversations.

(** X1. After a message is added to a conversation, or its messages are
    set, the conversation holds at most 20 messages and is stamped with
    the time of the call; the conversations of the other chats are as they
    were. *)
Theorem conversation_bounded {Content : Type}
    (conversations : gmap jsstring (ConversationStore.ConversationEntry Content))
    (now : Z) (chatId : jsstring) (c : Content)
    (ms : list (ConversationStore.MessageParam Content)) :
  let bounded after :=
    (exists entry, after !! chatId = Some entry
       /\ (length (ConversationStore.messages entry) <= 20)%nat
       /\ ConversationStore.lastUpdated entry = now)
    /\ forall other, other <> chatId -> after !! other = conversations !! other in
  bounded (ConversationStore.addUserMessage conversations now chatId c)
  /\ bounded (ConversationStore.addAssistantMessage conversations now chatId c)
  /\ bounded (ConversationStore.setMessages conversations now chatId ms).
Proof.
  intros bounded. subst bounded. cbv beta.
  split; [|split].
  - split.
    + unfold ConversationStore.addUserMessage. rewrite push_entry.
      eexists. split; [reflexivity|]. cbn. split; [|reflexivity].
      pose proof (truncated_length (historyOf conversations chatId
        ++ [{| ConversationStore.role := ConversationStore.user;
               ConversationStore.content := c |}])) as Hl.
      unfold ConversationStore.MAX_MESSAGES in Hl. lia.
    + intros other Hne. now apply push_other.
  - split.
    + unfold ConversationStore.addAssistantMessage. rewrite push_entry.
      eexists. split; [reflexivity|]. cbn. split; [|reflexivity].
      pose proof (truncated_length (historyOf conversations chatId
        ++ [{| ConversationStore.role := ConversationStore.assistant;
               ConversationStore.content := c |}])) as Hl.
      unfold ConversationStore.MAX_MESSAGES in Hl. lia.
    + intros other Hne. now apply push_other.
  - split.
    + rewrite setMessages_entry.
      eexists. split; [reflexivity|]. cbn. split; [|reflexivity].
      pose proof (truncated_length ms) as Hl.
      unfold ConversationStore.MAX_MESSAGES in Hl. lia.
    + intros other Hne.
      unfold ConversationStore.setMessages, ConversationStore.ensureConversation,
        ConversationStore.truncateIfNeeded.
      destruct (conversations !! chatId) as [entry|] eqn:E.
      * rewrite E, lookup_insert_eq. now rewrite !lookup_insert_ne by congruence.
      * rewrite !lookup_insert_eq. now rewrite !lookup_insert_ne by congruence.
Qed.

(** X2. What is kept of the messages handed to the store (the history with
    the new message at its end, or the messages set): all of them when
    they are at most 20; otherwise what is left of the last 20 after their
    leading assistant messages are dropped, that is, the last 20 are some
    assistant messages followed by the messages kept, and the messages
    kept start with a user message or are none. None are kept exactly when
    none of the last 20 is a user message. Either way the messages kept
    are an unaltered suffix of the messages handed in. *)
Theorem conversation_truncation {Content : Type}
    (conversations : gmap jsstring (ConversationStore.ConversationEntry Content))
    (now : Z) (chatId : jsstring) (c : Content)
    (ms : list (ConversationStore.MessageParam Content)) :
  let assistants :=
    Forall (fun m : ConversationStore.MessageParam Content =>
              ConversationStore.role m = ConversationStore.assistant) in
  let kept (incoming : list (ConversationStore.MessageParam Content)) after :=
    historyOf after chatId `suffix_of` incoming
    /\ ((length incoming <= 20)%nat -> historyOf after chatId = incoming)
    /\ ((20 < length incoming)%nat ->
        (exists lead,
           skipn (length incoming - 20) incoming = lead ++ historyOf after chatId
           /\ assistants lead)
        /\ match historyOf after chatId with
           | [] => True
           | m :: _ => ConversationStore.role m = ConversationStore.user
           end
        /\ (historyOf after chatId = []
            <-> assistants (skipn (length incoming - 20) incoming))) in
  let old := historyOf conversations chatId in
  kept (old ++ [{| ConversationStore.role := ConversationStore.user;
                   ConversationStore.content := c |}])
    (ConversationStore.addUserMessage conversations now chatId c)
  /\ kept (old ++ [{| ConversationStore.role := ConversationStore.assistant;
                      ConversationStore.content := c |}])
       (ConversationStore.addAssistantMessage conversations now chatId c)
  /\ kept ms (ConversationStore.setMessages conversations now chatId ms).
Proof.
  intros assistants kept old.
  assert (Hkept : forall incoming after,
            after !! chatId
            = Some {| ConversationStore.messages := ConversationStore.truncated incoming;
                      ConversationStore.lastUpdated := now |} ->
            kept incoming after).
  { intros incoming after Hafter. subst kept assistants. cbv beta.
    unfold historyOf. rewrite Hafter. cbn [ConversationStore.messages].
    split; [apply truncated_suffix|].
    split; [apply truncated_small|].
    intros Hgt. rewrite truncated_large by exact Hgt.
    split; [apply shiftToUser_lead|]. split; [|apply shiftToUser_empty].
    pose proof (shiftToUser_head (skipn (length incoming - 20) incoming)) as Hhead.
    now destruct (ConversationStore.shiftToUser _). }
  split; [|split]; apply Hkept.
  - apply push_entry.
  - apply push_entry.
  - apply setMessages_entry.
Qed.

(** X3. A user message added at the time [t] is read back as the last
    message of the history at every time up to one hour after [t], and the
    read changes nothing; read later than that, the history is empty, the
    conversation is deleted, and it stays empty whenever it is read again.
    The age of the conversation before the message was added plays no
    part. *)
Theorem conversation_read_back {Content : Type}
    (conversations : gmap jsstring (ConversationStore.ConversationEntry Content))
    (t t' : Z) (chatId : jsstring) (c : Content) :
  let after := ConversationStore.addUserMessage conversations t chatId c in
  let m := {| ConversationStore.role := ConversationStore.user;
              ConversationStore.content := c |} in
  (t' - t <= 60 * 60 * 1000 ->
   exists front,
     ConversationStore.getHistory after t' chatId = (front ++ [m], after)
     /\ front ++ [m] `suffix_of` historyOf conversations chatId ++ [m])
  /\ (60 * 60 * 1000 < t' - t ->
      ConversationStore.getHistory after t' chatId = ([], delete chatId after)
      /\ forall t'', ConversationStore.getHistory (delete chatId after) t'' chatId
                     = ([], delete chatId after)).
Proof.
  intros after m.
  assert (Hentry : after !! chatId
            = Some {| ConversationStore.messages :=
                        ConversationStore.truncated (historyOf conversations chatId ++ [m]);
                      ConversationStore.lastUpdated := t |})
    by apply push_entry.
  split.
  - intros Hfresh.
    destruct (truncated_keeps_user (historyOf conversations chatId) m eq_refl)
      as [front Hfront].
    exists front. unfold ConversationStore.getHistory. rewrite Hentry.
    cbn [ConversationStore.lastUpdated ConversationStore.messages].
    unfold ConversationStore.MAX_AGE_MS.
    replace (60 * 60 * 1000 <? t' - t) with false by (symmetry; apply Z.ltb_ge; lia).
    rewrite <- Hfront. split; [reflexivity|apply truncated_suffix].
  - intros Hstale. split.
    + unfold ConversationStore.getHistory. rewrite Hentry.
      cbn [ConversationStore.lastUpdated]. unfold ConversationStore.MAX_AGE_MS.
      now replace (60 * 60 * 1000 <? t' - t) with true by (symmetry; apply Z.ltb_lt; lia).
    + intros t''. unfold ConversationStore.getHistory. now rewrite lookup_delete_eq.
Qed.

Lemma conversation_read_back_witness :
  let m := {| ConversationStore.role := ConversationStore.user;
              ConversationStore.content := txt "hello" |} in
  let after := ConversationStore.addUserMessage (∅ : gmap jsstring _) 1000 (txt "7")
                 (txt "hello") in
  exists front,
    ConversationStore.getHistory after (1000 + 60 * 60 * 1000) (txt "7")
    = (front ++ [m], after)
    /\ front ++ [m] `suffix_of` historyOf (∅ : gmap jsstring _) (txt "7") ++ [m].
Proof.
  intros m after.
  apply (proj1 (conversation_read_back ∅ 1000 (1000 + 60 * 60 * 1000) (txt "7")
                  (txt "hello"))).
  vm_compute. discriminate.
Defined.

Lemma conversation_truncation_witness :
  let ms := repeat {| ConversationStore.role := ConversationStore.assistant;
                      ConversationStore.content := txt "ok" |} 21 in
  historyOf (ConversationStore.setMessages (∅ : gmap jsstring _) 0 (txt "7") ms) (txt "7")
  = [].
Proof.
  intros ms.
  pose proof (proj2 (proj2 (proj2 (proj2 (conversation_truncation
                (∅ : gmap jsstring _) 0 (txt "7") (txt "ok") ms))))) as Hlarge.
  cbv beta in Hlarge.
  assert (Hlen : (20 < length ms)%nat) by (subst ms; rewrite repeat_length; lia).
  destruct (Hlarge Hlen) as (_ & _ & Hnone).
  apply Hnone. apply Forall_forall. intros m Hin.
  assert (Hms : m ∈ ms).
  { destruct (suffix_drop ms (length ms - 20)) as [front Hfront].
    assert (Happ : m ∈ front ++ drop (length ms - 20) ms)
      by (apply elem_of_app; now right).
    now rewrite <- Hfront in Happ. }
  subst ms. apply list_elem_of_In, repeat_spec in Hms. now subst m.
Defined.

(** ** Permission store, further *)

Section PermissionsFurther.
Context `{Host}.
Import PermissionManager.

(** Unless the read gives a member of [Object.prototype], the answer of
    [checkPermission] is read off the rules the project has of its own. *)
Lemma checkPermission_total (m : PermissionMemory) (p tl : jsstring) (input : ToolInput) :
  lookup m p <> Inherited ->
  checkPermission m p tl input = decisionOf (m !!! p) tl input.
Proof.
  intros Hord. unfold checkPermission, decisionOf.
  destruct (lookup m p) as [perms| |] eqn:E; [|congruence|].
  - now rewrite (lookup_total_Own _ _ _ E).
  - rewrite (lookup_total_not_Own m p) by (intros perms; congruence). reflexivity.
Qed.

Lemma checkPermission_returns (m : PermissionMemory) (p tl : jsstring)
    (input : ToolInput) (d : Decision) :
  checkPermission m p tl input = Returned d -> lookup m p <> Inherited.
Proof. unfold checkPermission. intros E Hin. rewrite Hin in E. discriminate. Qed.

Lemma createRule_fields (tl : jsstring) (input : ToolInput) :
  tool (createRule tl input) = tl
  /\ commandPattern (createRule tl input) = None
  /\ command (createRule tl input)
     = (if bool_decide (tl = txt "Bash")
        then match commandOf input with Some v => Some (ToString v) | None => None end
        else None)
  /\ (input !! txt "file_path" = None -> pattern (createRule tl input) = None).
Proof.
  unfold createRule. cbn. repeat split. now intros ->.
Qed.

(** The rule made of an invocation matches the invocation. *)
Lemma createRule_matches (tl : jsstring) (input : ToolInput) :
  globAcceptsOwnPath tl input ->
  matchesRule (createRule tl input) tl input = Returned true.
Proof.
  intros Hglob. destruct (createRule_fields tl input) as (Ht & Hcp & Hc & Hp).
  unfold globAcceptsOwnPath in Hglob.
  set (rule := createRule tl input) in *.
  assert (Hrest : truthy (pattern rule) = false ->
                  matchesRule rule tl input = Returned true).
  { intros Etp. rewrite (matchesRule_no_file rule tl input Ht) by now left.
    unfold blanket. rewrite Etp, Hcp, Hc. cbn [negb andb truthy].
    destruct (bool_decide (tl = txt "Bash")); [|reflexivity].
    destruct (commandOf input) as [v|]; [|reflexivity].
    rewrite (matchesCommand_plain rule _ Hcp), Hc.
    destruct (ToString v) as [|c cmd] eqn:Ev; cbn; [reflexivity|].
    now rewrite bool_decide_eq_true_2. }
  destruct (pattern rule) as [[|c pat]|] eqn:Epat; [now apply Hrest| |now apply Hrest].
  destruct (input !! txt "file_path") as [v|] eqn:Ev.
  - rewrite (matchesRule_file rule tl input (c :: pat) v Ht Epat);
      [|discriminate|exact Ev].
    f_equal. apply (Hglob v (c :: pat)); [reflexivity|reflexivity|discriminate].
  - specialize (Hp eq_refl). congruence.
Qed.

(** The scan of the list a decision has been remembered in finds a match,
    when the scan of the list before came to an end. *)
Lemma firstMatch_remembered (old : list PermissionRule) (rule : PermissionRule)
    (tl : jsstring) (input : ToolInput) (b : bool) :
  matchesRule rule tl input = Returned true ->
  commandPattern rule = None ->
  Forall (fun r => commandPattern r = None) old ->
  firstMatch old tl input = Returned b ->
  firstMatch (if existsb (sameRule rule) old then old else old ++ [rule]) tl input
  = Returned true.
Proof.
  intros Hmatch Hcp Hplain Hb.
  destruct (existsb (sameRule rule) old) eqn:Edup.
  - destruct b; [exact Hb|].
    apply existsb_sameRule in Edup. destruct Edup as (r & Hr & Ht & Hp & Hc).
    rewrite Forall_forall in Hplain. specialize (Hplain r Hr).
    assert (r = rule) as -> by (destruct r, rule; cbn in *; congruence).
    apply firstMatch_false in Hb. rewrite Forall_forall in Hb.
    specialize (Hb rule Hr). congruence.
  - rewrite firstMatch_app, Hb. destruct b; [reflexivity|].
    cbn [firstMatch]. now rewrite Hmatch.
Qed.

Lemma createRule_pattern_ext (tl : jsstring) (input : ToolInput)
    (v : JsValue) (dir stem ext : jsstring) :
  input !! txt "file_path" = Some v ->
  ToString v = dir ++ txt "/" ++ stem ++ txt "." ++ ext ->
  "/"%char ∉ stem ++ txt "." ++ ext -> "."%char ∉ ext -> ext <> [] ->
  pattern (createRule tl input) = Some (dir ++ txt "/**/*." ++ ext).
Proof.
  intros Hv Hpath Hslash Hdot Hne.
  unfold createRule. cbn [pattern]. rewrite Hv, Hpath.
  destruct (path_parts dir (stem ++ txt "." ++ ext) Hslash) as [-> ->].
  rewrite (file_extension stem ext Hdot).
  destruct ext; [congruence|reflexivity].
Qed.

(** After a decision on an invocation is remembered, [checkPermission]
    gives it for that invocation, when it returned before. *)
Lemma remember_decides (st : Store) (projectName toolName : jsstring)
    (input : ToolInput) (allow : bool) (before : Decision) :
  globAcceptsOwnPath toolName input ->
  Forall (fun r => commandPattern r = None)
    (listOf allow (memory st !!! projectName)) ->
  checkPermission (memory st) projectName toolName input = Returned before ->
  fst (remember st projectName toolName input allow) = Returned tt
  /\ checkPermission (memory (snd (remember st projectName toolName input allow)))
       projectName toolName input
     = Returned (if allow
                 then match before with
                      | Denied => Denied
                      | _ => Allowed
                      end
                 else Denied).
Proof.
  intros Hglob Hplain Hbefore.
  pose proof (checkPermission_returns _ _ _ _ _ Hbefore) as Hord.
  split; [now apply remember_returns|].
  pose proof (createRule_matches toolName input Hglob) as Hmatch.
  pose proof (remember_list st projectName toolName input allow Hord) as Hlist.
  pose proof (remember_other_list st projectName toolName input allow) as Hother.
  pose proof (remember_present st projectName toolName input allow Hord) as [x Hx].
  destruct (createRule_fields toolName input) as (_ & Hcp & _).
  cbv zeta in Hlist.
  rewrite checkPermission_total in Hbefore by exact Hord.
  rewrite checkPermission_total
    by (rewrite (proj2 (lookup_Own _ _ _) Hx); discriminate).
  unfold decisionOf in *.
  set (rule := createRule toolName input) in *.
  set (old := memory st !!! projectName) in *.
  set (new := memory (snd (remember st projectName toolName input allow))
              !!! projectName) in *.
  clearbody new old. clear Hx Hord.
  destruct allow; cbn [listOf negb] in *.
  - rewrite Hother.
    destruct (firstMatch (denied old) toolName input) as [[|]|e];
      [now injection Hbefore as <-| |discriminate].
    destruct (firstMatch (allowed old) toolName input) as [b|e] eqn:Ea;
      [|discriminate].
    rewrite Hlist, (firstMatch_remembered _ _ _ _ b Hmatch Hcp Hplain Ea).
    destruct b; now injection Hbefore as <-.
  - destruct (firstMatch (denied old) toolName input) as [b|e] eqn:Ed; [|discriminate].
    now rewrite Hlist, (firstMatch_remembered _ _ _ _ b Hmatch Hcp Hplain Ed).
Qed.

End PermissionsFurther.

(** X4. A remembered decision decides the same invocation afterwards. For
    an invocation that [checkPermission] answers (it throws for a project
    name that reads as a member of [Object.prototype], and on a stored
    command pattern that does not compile), provided the glob made for its
    file path (if it has one) accepts that path and no rule of the list the
    decision goes to has a command pattern (no rule made by [remember] has
    one): [remember] returns; after a denial is remembered,
    [checkPermission] answers denied; after an approval is remembered, it
    answers allowed, unless it answered denied before, in which case it
    still does. *)
Theorem remembered_decision_applies `{Host} (st : PermissionManager.Store)
    (projectName toolName : jsstring) (input : ToolInput) (allow : bool)
    (before : PermissionManager.Decision) :
  globAcceptsOwnPath toolName input ->
  Forall (fun r => commandPattern r = None)
    (listOf allow (PermissionManager.memory st !!! projectName)) ->
  PermissionManager.checkPermission (PermissionManager.memory st)
    projectName toolName input = Returned before ->
  let call := PermissionManager.remember st projectName toolName input allow in
  fst call = Returned tt
  /\ PermissionManager.checkPermission (PermissionManager.memory (snd call))
       projectName toolName input
     = Returned (if allow
                 then match before with
                      | PermissionManager.Denied => PermissionManager.Denied
                      | _ => PermissionManager.Allowed
                      end
                 else PermissionManager.Denied).
Proof.
  intros Hglob Hplain Hbefore call. subst call.
  now apply remember_decides.
Qed.

Lemma remembered_decision_applies_witness :
  let call := PermissionManager.remember (H := Fixture.host) Fixture.emptyStore
                (txt "blog") (txt "Bash") Fixture.removeAll false in
  fst call = Returned tt
  /\ PermissionManager.checkPermission (H := Fixture.host)
       (PermissionManager.memory (snd call)) (txt "blog") (txt "Bash") Fixture.removeAll
     = Returned PermissionManager.Denied.
Proof.
  apply (remembered_decision_applies (H := Fixture.host) Fixture.emptyStore
           (txt "blog") (txt "Bash") Fixture.removeAll false PermissionManager.Ask).
  - intros v pat Hv. vm_compute in Hv. discriminate.
  - vm_compute. apply List.Forall_nil.
  - vm_compute. reflexivity.
Defined.

(** X5. [remember] only ever adds: in every project and in both lists, the
    rules of before are the first rules of after, unaltered and in order;
    the projects other than the one named keep their entry, and in the
    project named the list of the opposite decision is as it was. *)
Theorem remember_appends_only `{Host} (st : PermissionManager.Store)
    (projectName toolName : jsstring) (input : ToolInput) (allow : bool) :
  let st' := snd (PermissionManager.remember st projectName toolName input allow) in
  (forall q which,
     listOf which (PermissionManager.memory st !!! q)
     `prefix_of` listOf which (PermissionManager.memory st' !!! q))
  /\ (forall q, q <> projectName ->
        PermissionManager.memory st' !! q = PermissionManager.memory st !! q)
  /\ listOf (negb allow) (PermissionManager.memory st' !!! projectName)
     = listOf (negb allow) (PermissionManager.memory st !!! projectName).
Proof.
  intros st'. subst st'. split; [|split].
  - intros q which. destruct (decide (q = projectName)) as [->|Hne].
    + destruct (decide (which = allow)) as [->|Hw].
      * destruct (lookup_cases (PermissionManager.memory st) projectName) as [Hin|Hord].
        -- now rewrite (remember_inherited _ _ _ _ _ Hin).
        -- rewrite (remember_list _ _ _ _ _ Hord). destruct (existsb _ _); [reflexivity|].
           now apply prefix_app_r.
      * assert (which = negb allow) as -> by (destruct which, allow; cbn; congruence).
        now rewrite remember_other_list.
    + rewrite !lookup_total_alt. now rewrite remember_other_project.
  - intros q Hne. now apply remember_other_project.
  - apply remember_other_list.
Qed.

(** X6. How [remember] ends and what it does to the disk. When the list of
    the decision already has a rule with the tool, the pattern and the
    command of the new rule, it returns, and memory and disk are as they
    were. When the list has none, and the project has an entry or a name
    that [Object.prototype] has not, it returns and the permissions file
    holds the rendering of the memory it leaves. For a project without
    entry whose name [Object.prototype] has, it throws before it adds or
    writes anything: memory and disk are as they were. No other file and
    no directory is ever touched. *)
Theorem remember_flushes `{Host} (st : PermissionManager.Store)
    (projectName toolName : jsstring) (input : ToolInput) (allow : bool) :
  let call := PermissionManager.remember st projectName toolName input allow in
  let st' := snd call in
  let rule := PermissionManager.createRule toolName input in
  let rules := listOf allow (PermissionManager.memory st !!! projectName) in
  ((exists r, r ∈ rules /\ sameTuple rule r) -> call = (Returned tt, st))
  /\ ((forall r, r ∈ rules -> ~ sameTuple rule r) ->
      (is_Some (PermissionManager.memory st !! projectName)
       \/ projectName ∉ JsObject.inheritedNames) ->
      fst call = Returned tt
      /\ files (PermissionManager.disk st') !! PermissionManager.PERMISSIONS_PATH
         = Some (JSON_stringify_memory (PermissionManager.memory st')))
  /\ (PermissionManager.memory st !! projectName = None ->
      projectName ∈ JsObject.inheritedNames ->
      (exists e, fst call = Thrown e) /\ st' = st)
  /\ (forall path, path <> PermissionManager.PERMISSIONS_PATH ->
        files (PermissionManager.disk st') !! path
        = files (PermissionManager.disk st) !! path)
  /\ dirs (PermissionManager.disk st') = dirs (PermissionManager.disk st).
Proof.
  intros call st' rule rules. subst call st' rule rules.
  split; [|split; [|split; [|split]]].
  - intros Hdup. apply existsb_sameRule in Hdup. now apply remember_duplicate.
  - intros Hnew Hname.
    assert (Hord : PermissionManager.lookup (PermissionManager.memory st) projectName
                   <> Inherited).
    { intros Hin. apply lookup_Inherited in Hin. destruct Hin as [Hnone Hin].
      destruct Hname as [[x Hx]|Hno]; [congruence|].
      now apply bool_decide_eq_true in Hin. }
    split; [now apply remember_returns|].
    rewrite (remember_ordinary _ _ _ _ _ Hord). cbv zeta.
    rewrite existsb_none.
    + cbn. apply lookup_insert_eq.
    + intros r Hr Hs. apply sameRule_spec in Hs. now apply (Hnew r).
  - intros Hnone Hin.
    rewrite remember_inherited; [split; [eauto|reflexivity]|].
    apply lookup_Inherited. split; [exact Hnone|]. now apply bool_decide_eq_true.
  - intros path Hne.
    destruct (remember_disk st projectName toolName input allow) as [-> | ->];
      [reflexivity|]. cbn. now rewrite lookup_insert_ne.
  - destruct (remember_disk st projectName toolName input allow) as [-> | ->];
      reflexivity.
Qed.

Lemma remember_flushes_witness :
  let call := PermissionManager.remember (H := Fixture.host) Fixture.emptyStore
                (txt "blog") (txt "Bash") Fixture.runTests true in
  fst call = Returned tt
  /\ files (PermissionManager.disk (snd call)) !! PermissionManager.PERMISSIONS_PATH
     = Some (JSON_stringify_memory (Host := Fixture.host)
               (PermissionManager.memory (snd call))).
Proof.
  intros call.
  apply (proj1 (proj2 (remember_flushes (H := Fixture.host) Fixture.emptyStore
                         (txt "blog") (txt "Bash") Fixture.runTests true))).
  - intros r Hr. vm_compute in Hr. now apply not_elem_of_nil in Hr.
  - right. vm_compute. intros Hin.
    repeat (inversion Hin as [|? ? ? Hin']; subst; clear Hin; rename Hin' into Hin).
Defined.

(** X7. Two files in the same directory with the same extension give the
    same rule for a tool other than Bash: once a decision on the first is
    remembered, remembering the same decision on the second ends as the
    first call did and changes nothing, in memory or on disk. *)
Theorem remember_generalizes `{Host} (st : PermissionManager.Store)
    (projectName toolName : jsstring) (input1 input2 : ToolInput)
    (v1 v2 : JsValue) (dir stem1 stem2 ext : jsstring) (allow : bool) :
  toolName <> txt "Bash" ->
  input1 !! txt "file_path" = Some v1 ->
  input2 !! txt "file_path" = Some v2 ->
  ToString v1 = dir ++ txt "/" ++ stem1 ++ txt "." ++ ext ->
  ToString v2 = dir ++ txt "/" ++ stem2 ++ txt "." ++ ext ->
  "/"%char ∉ stem1 ++ txt "." ++ ext ->
  "/"%char ∉ stem2 ++ txt "." ++ ext ->
  "."%char ∉ ext -> ext <> [] ->
  PermissionManager.createRule toolName input2
  = PermissionManager.createRule toolName input1
  /\ PermissionManager.remember
       (snd (PermissionManager.remember st projectName toolName input1 allow))
       projectName toolName input2 allow
     = PermissionManager.remember st projectName toolName input1 allow.
Proof.
  intros Htool Hv1 Hv2 Hp1 Hp2 Hs1 Hs2 Hdot Hne.
  assert (Heq : PermissionManager.createRule toolName input2
                = PermissionManager.createRule toolName input1).
  { pose proof (createRule_pattern_ext toolName input1 v1 dir stem1 ext
                  Hv1 Hp1 Hs1 Hdot Hne) as Hpat1.
    pose proof (createRule_pattern_ext toolName input2 v2 dir stem2 ext
                  Hv2 Hp2 Hs2 Hdot Hne) as Hpat2.
    destruct (createRule_fields toolName input1) as (Ht1 & Hcp1 & Hc1 & _).
    destruct (createRule_fields toolName input2) as (Ht2 & Hcp2 & Hc2 & _).
    rewrite bool_decide_eq_false_2 in Hc1, Hc2 by exact Htool.
    destruct (PermissionManager.createRule toolName input1),
             (PermissionManager.createRule toolName input2).
    cbn in *. congruence. }
  split; [exact Heq|].
  rewrite (remember_same_rule _ _ _ input1 input2 _ Heq). apply remember_again.
Qed.

Lemma remember_generalizes_witness :
  let first := {[ txt "file_path" := Fixture.JString (txt "/srv/blog/posts/new.md") ]} in
  let second := {[ txt "file_path" := Fixture.JString (txt "/srv/blog/posts/old.md") ]} in
  PermissionManager.createRule (H := Fixture.host) (txt "Edit") second
  = PermissionManager.createRule (H := Fixture.host) (txt "Edit") first
  /\ PermissionManager.remember (H := Fixture.host)
       (snd (PermissionManager.remember (H := Fixture.host) Fixture.emptyStore
               (txt "blog") (txt "Edit") first true))
       (txt "blog") (txt "Edit") second true
     = PermissionManager.remember (H := Fixture.host) Fixture.emptyStore
         (txt "blog") (txt "Edit") first true.
Proof.
  intros first second.
  apply (remember_generalizes (H := Fixture.host) Fixture.emptyStore
           (txt "blog") (txt "Edit") first second
           (Fixture.JString (txt "/srv/blog/posts/new.md"))
           (Fixture.JString (txt "/srv/blog/posts/old.md"))
           (txt "/srv/blog/posts") (txt "new") (txt "old") (txt "md") true).
  - vm_compute. discriminate.
  - vm_compute. reflexivity.
  - vm_compute. reflexivity.
  - vm_compute. reflexivity.
  - vm_compute. reflexivity.
  - vm_compute. intros Hin.
    repeat (inversion Hin as [|? ? ? Hin']; subst; clear Hin; rename Hin' into Hin).
  - vm_compute. intros Hin.
    repeat (inversion Hin as [|? ? ? Hin']; subst; clear Hin; rename Hin' into Hin).
  - vm_compute. intros Hin.
    repeat (inversion Hin as [|? ? ? Hin']; subst; clear Hin; rename Hin' into Hin).
  - discriminate.
Defined.

(** X8. [clearProject] forgets the project: the memory is left without an
    entry of that name, and the permissions file holds the rendering of
    the memory that is left. Afterwards [getProjectPermissions] gives
    [undefined] and [checkPermission] asks for every tool and input in the
    project, unless the name is one of [Object.prototype]: then the read
    gives the inherited member and [checkPermission] throws. The entries
    and the answers in every other project are what they were. *)
Theorem clearProject_forgets `{Host} (st : PermissionManager.Store)
    (projectName : jsstring) :
  let st' := PermissionManager.clearProject st projectName in
  PermissionManager.memory st' !! projectName = None
  /\ PermissionManager.getProjectPermissions st' projectName
     = (if bool_decide (projectName ∈ JsObject.inheritedNames)
        then Inherited else Undefined)
  /\ (forall toolName input,
        PermissionManager.checkPermission (PermissionManager.memory st')
          projectName toolName input
        = if bool_decide (projectName ∈ JsObject.inheritedNames)
          then Thrown (txt "TypeError: permissions.denied is not iterable")
          else Returned PermissionManager.Ask)
  /\ (forall q, q <> projectName ->
        PermissionManager.getProjectPermissions st' q
        = PermissionManager.getProjectPermissions st q)
  /\ (forall q toolName input, q <> projectName ->
        PermissionManager.checkPermission (PermissionManager.memory st') q toolName input
        = PermissionManager.checkPermission (PermissionManager.memory st) q toolName input)
  /\ files (PermissionManager.disk st') !! PermissionManager.PERMISSIONS_PATH
     = Some (JSON_stringify_memory (PermissionManager.memory st')).
Proof.
  intros st'. subst st'.
  unfold PermissionManager.clearProject, PermissionManager.getProjectPermissions,
    PermissionManager.checkPermission, PermissionManager.lookup, JsObject.get,
    JsObject.inherited, PermissionManager.save.
  cbn [PermissionManager.memory PermissionManager.disk writeFileSync files].
  split; [|split; [|split; [|split; [|split]]]].
  - apply lookup_delete_eq.
  - now rewrite lookup_delete_eq.
  - intros toolName input. rewrite lookup_delete_eq. now destruct (bool_decide _).
  - intros q Hne. now rewrite lookup_delete_ne.
  - intros q toolName input Hne. now rewrite lookup_delete_ne.
  - apply lookup_insert_eq.
Qed.

(** X9. [loadMemory] and the permissions file. When the file is there,
    nothing is written. When it is not, the memory returned is empty, the
    file is created holding an empty object, its directory exists
    afterwards, and every other file is as before. Either way the file
    exists afterwards, so that loading again writes nothing. *)
Theorem loadMemory_store `{Host} (fs : FileSystem) :
  let fs' := snd (PermissionManager.loadMemory fs) in
  (existsSync fs PermissionManager.PERMISSIONS_PATH = true -> fs' = fs)
  /\ (existsSync fs PermissionManager.PERMISSIONS_PATH = false ->
      fst (PermissionManager.loadMemory fs) = Returned ∅
      /\ readFileSync fs' PermissionManager.PERMISSIONS_PATH = Returned (txt "{}")
      /\ existsSync fs' (txt "./data") = true
      /\ forall path, path <> PermissionManager.PERMISSIONS_PATH ->
           files fs' !! path = files fs !! path)
  /\ existsSync fs' PermissionManager.PERMISSIONS_PATH = true
  /\ snd (PermissionManager.loadMemory fs') = fs'.
Proof.
  intros fs'. subst fs'.
  assert (Hkeep : forall g, existsSync g PermissionManager.PERMISSIONS_PATH = true ->
                    snd (PermissionManager.loadMemory g) = g).
  { intros g Hg. unfold PermissionManager.loadMemory. rewrite Hg. cbn [negb].
    destruct (readFileSync g _); [|reflexivity].
    destruct (JSON_parse_memory _); reflexivity. }
  assert (Hafter : existsSync (snd (PermissionManager.loadMemory fs))
                     PermissionManager.PERMISSIONS_PATH = true).
  { destruct (existsSync fs PermissionManager.PERMISSIONS_PATH) eqn:E.
    - now rewrite Hkeep.
    - unfold PermissionManager.loadMemory. rewrite E. cbn [negb snd].
      unfold existsSync, writeFileSync. cbn [files].
      rewrite lookup_insert_eq. rewrite bool_decide_eq_true_2 by eauto. reflexivity. }
  split; [exact (Hkeep fs)|]. split; [|split; [exact Hafter|now apply Hkeep]].
  intros Habsent. unfold PermissionManager.loadMemory. rewrite Habsent.
  cbn [negb fst snd]. split; [reflexivity|]. split; [|split].
  - unfold readFileSync, writeFileSync. cbn [files]. now rewrite lookup_insert_eq.
  - unfold ensureDataDir.
    change (dirname PermissionManager.PERMISSIONS_PATH) with (txt "./data").
    destruct (existsSync fs (txt "./data")) eqn:Edir; cbn [negb].
    + unfold existsSync in *. cbn [writeFileSync files dirs].
      apply orb_true_iff in Edir. apply orb_true_iff.
      destruct Edir as [Hf|Hd]; [left|right; exact Hd].
      apply bool_decide_eq_true in Hf. apply bool_decide_eq_true.
      rewrite lookup_insert_ne; [exact Hf|]. vm_compute. discriminate.
    + unfold existsSync. cbn [writeFileSync mkdirSync files dirs].
      apply orb_true_iff. right. apply bool_decide_eq_true. set_solver.
  - intros path Hne. unfold ensureDataDir.
    destruct (negb _); cbn [writeFileSync mkdirSync files];
      now rewrite lookup_insert_ne.
Qed.

Lemma loadMemory_store_witness :
  fst (PermissionManager.loadMemory (H := Fixture.host) Fixture.emptyDisk) = Returned ∅
  /\ readFileSync (snd (PermissionManager.loadMemory (H := Fixture.host) Fixture.emptyDisk))
       PermissionManager.PERMISSIONS_PATH = Returned (txt "{}")
  /\ existsSync (snd (PermissionManager.loadMemory (H := Fixture.host) Fixture.emptyDisk))
       (txt "./data") = true
  /\ forall path, path <> PermissionManager.PERMISSIONS_PATH ->
       files (snd (PermissionManager.loadMemory (H := Fixture.host) Fixture.emptyDisk))
         !! path = files Fixture.emptyDisk !! path.
Proof.
  apply (proj1 (proj2 (loadMemory_store (H := Fixture.host) Fixture.emptyDisk))).
  vm_compute. reflexivity.
Defined.

(** ** Project registry, further

    [config.projects] is a plain object: the association list holds the
    properties it owns, and the lookups see the members of
    [Object.prototype] behind them. *)

Lemma lowerChar_idem (c : ascii) : lowerChar (lowerChar c) = lowerChar c.
Proof. destruct c as [[] [] [] [] [] [] [] []]; reflexivity. Qed.

Lemma toLowerCase_idem (s : jsstring) : toLowerCase (toLowerCase s) = toLowerCase s.
Proof.
  unfold toLowerCase. induction s as [|c s IH]; [reflexivity|].
  cbn [map]. now rewrite lowerChar_idem, IH.
Qed.

Lemma listProjects_entries (cfg : ClaudeCodeConfig) :
  ProjectManager.listProjects cfg = projects cfg.
Proof.
  unfold ProjectManager.listProjects. induction (projects cfg) as [|[k v] l IH];
    [reflexivity|]. cbn [map fst snd]. now rewrite IH.
Qed.

Lemma ownProject_found (cfg : ClaudeCodeConfig) (key path : jsstring) :
  ProjectManager.ownProject cfg key = Some path -> (key, path) ∈ projects cfg.
Proof.
  unfold ProjectManager.ownProject.
  induction (projects cfg) as [|[k v] l IH]; [discriminate|].
  cbn [List.find fst]. destruct (bool_decide (k = key)) eqn:E.
  - apply bool_decide_eq_true in E. subst k. cbn. intros [= <-]. left.
  - intros Hf. right. now apply IH.
Qed.

Lemma ownProject_key (cfg : ClaudeCodeConfig) (key : jsstring) :
  is_Some (ProjectManager.ownProject cfg key)
  <-> exists path, (key, path) ∈ projects cfg.
Proof.
  split.
  - intros [path Hp]. exists path. now apply ownProject_found.
  - intros [path Hin]. unfold ProjectManager.ownProject.
    induction (projects cfg) as [|[k v] l IH]; [now apply not_elem_of_nil in Hin|].
    cbn [List.find fst]. destruct (bool_decide (k = key)) eqn:E; [cbn; eauto|].
    apply bool_decide_eq_false in E. apply elem_of_cons in Hin.
    destruct Hin as [Hin|Hin]; [congruence|now apply IH].
Qed.

Lemma ownProject_none (cfg : ClaudeCodeConfig) (key : jsstring) :
  ProjectManager.ownProject cfg key = None
  <-> forall path, (key, path) ∉ projects cfg.
Proof.
  split.
  - intros Hnone path Hin.
    assert (Hs : is_Some (ProjectManager.ownProject cfg key))
      by (apply ownProject_key; eauto).
    rewrite Hnone in Hs. now destruct Hs.
  - intros Hno. destruct (ProjectManager.ownProject cfg key) as [path|] eqn:E;
      [|reflexivity].
    apply ownProject_found in E. now destruct (Hno path).
Qed.

(** What [getProject] gives for a name. *)
Lemma getProject_cases (cfg : ClaudeCodeConfig) (name : jsstring) :
  let key := toLowerCase name in
  (forall path, ProjectManager.getProject cfg name = Own path
                <-> ProjectManager.ownProject cfg key = Some path)
  /\ (ProjectManager.getProject cfg name = Inherited
      <-> ProjectManager.ownProject cfg key = None /\ key ∈ JsObject.inheritedNames)
  /\ (ProjectManager.getProject cfg name = Undefined
      <-> ProjectManager.ownProject cfg key = None /\ key ∉ JsObject.inheritedNames).
Proof.
  intros key. unfold ProjectManager.getProject, JsObject.get, JsObject.inherited.
  fold key. destruct (ProjectManager.ownProject cfg key) as [p|].
  - split; [|split].
    + intros path. split; intros E; now injection E as ->.
    + split; [discriminate|intros [? _]; discriminate].
    + split; [discriminate|intros [? _]; discriminate].
  - case_bool_decide as Hin.
    + split; [|split].
      * intros path. split; discriminate.
      * tauto.
      * split; [discriminate|]. intros [_ Hno]. contradiction.
    + split; [|split].
      * intros path. split; discriminate.
      * split; [discriminate|]. intros [_ Hyes]. contradiction.
      * tauto.
Qed.

Lemma getProject_found (cfg : ClaudeCodeConfig) (name path : jsstring) :
  ProjectManager.getProject cfg name = Own path ->
  (toLowerCase name, path) ∈ projects cfg.
Proof.
  intros E. apply (proj1 (getProject_cases cfg name)) in E.
  now apply ownProject_found.
Qed.

Lemma projectExists_key (cfg : ClaudeCodeConfig) (name : jsstring) :
  ProjectManager.projectExists cfg name = true
  <-> (exists path, (toLowerCase name, path) ∈ projects cfg)
      \/ toLowerCase name ∈ JsObject.inheritedNames.
Proof.
  rewrite <- ownProject_key.
  unfold ProjectManager.projectExists, JsObject.has, JsObject.inherited.
  destruct (ProjectManager.ownProject cfg (toLowerCase name)) as [p|].
  - split; [intros _; left; eauto|reflexivity].
  - rewrite bool_decide_eq_true. split; [now right|].
    intros [[x Hx]|Hin]; [discriminate|exact Hin].
Qed.

(** X10. Looking a project up. [projectExists] and [getProject] see a name
    through its lower-case form only, and the letter case of the name asked
    for makes no difference. When the lower-case form is a key of the
    configuration, [getProject] gives a path configured under that key;
    when it is no key but a name of [Object.prototype], [getProject] gives
    the inherited member; otherwise it gives [undefined]. [projectExists]
    accepts the name in the first two cases and only then. *)
Theorem registry_lookup (cfg : ClaudeCodeConfig) (name : jsstring) :
  let key := toLowerCase name in
  let listed := exists path, (key, path) ∈ ProjectManager.listProjects cfg in
  (ProjectManager.projectExists cfg name = true
   <-> listed \/ key ∈ JsObject.inheritedNames)
  /\ (ProjectManager.projectExists cfg name = true
      <-> ProjectManager.getProject cfg name <> Undefined)
  /\ (forall path, ProjectManager.getProject cfg name = Own path ->
        (key, path) ∈ ProjectManager.listProjects cfg)
  /\ (listed <-> exists path, ProjectManager.getProject cfg name = Own path)
  /\ (ProjectManager.getProject cfg name = Inherited
      <-> ~ listed /\ key ∈ JsObject.inheritedNames)
  /\ (ProjectManager.getProject cfg name = Undefined
      <-> ~ listed /\ key ∉ JsObject.inheritedNames)
  /\ ProjectManager.getProject cfg (toLowerCase name) = ProjectManager.getProject cfg name
  /\ ProjectManager.projectExists cfg (toLowerCase name)
     = ProjectManager.projectExists cfg name.
Proof.
  intros key listed. subst listed. rewrite listProjects_entries.
  destruct (getProject_cases cfg name) as (Hown & Hinh & Hund). fold key in Hown, Hinh, Hund.
  assert (Hlisted : (exists path, (key, path) ∈ projects cfg)
                    <-> exists path, ProjectManager.getProject cfg name = Own path).
  { rewrite <- ownProject_key. split; intros [path Hp]; exists path; now apply Hown. }
  assert (Hnone : ProjectManager.ownProject cfg key = None
                  <-> ~ exists path, (key, path) ∈ projects cfg).
  { rewrite ownProject_none. split.
    - intros Hno [path Hin]. now apply (Hno path).
    - intros Hno path Hin. apply Hno. eauto. }
  split; [apply projectExists_key|].
  split; [|split; [|split; [exact Hlisted|split; [|split; [|split]]]]].
  - rewrite projectExists_key. fold key. rewrite Hund, Hnone. split.
    + intros [Hl|Hin] [Hno Hout]; [now apply Hno|now apply Hout].
    + intros Hnot.
      destruct (decide (key ∈ JsObject.inheritedNames)) as [Hin|Hout]; [now right|].
      left. destruct (ProjectManager.ownProject cfg key) as [path|] eqn:E.
      * exists path. now apply ownProject_found.
      * destruct Hnot. split; [|exact Hout]. now apply Hnone.
  - intros path. apply getProject_found.
  - now rewrite Hinh, Hnone.
  - now rewrite Hund, Hnone.
  - unfold ProjectManager.getProject. now rewrite toLowerCase_idem.
  - unfold ProjectManager.projectExists. now rewrite toLowerCase_idem.
Qed.

(** ** Telegram: long messages *)

Section TelegramSplit.
Import Telegram.

Lemma lastIndexUpTo_range (r : jsstring) (c : ascii) (maxLength : Z) :
  0 <= maxLength ->
  lastIndexUpTo r c maxLength = -1
  \/ (0 <= lastIndexUpTo r c maxLength <= maxLength).
Proof.
  intros Hm. unfold lastIndexUpTo.
  destruct (lastIndexOf_spec r c (Z.max maxLength 0)) as [Hr _].
  destruct Hr as [Hr|[Hr _]]; [now left|right; lia].
Qed.

(** A cut is made in the second half of the window, its end included. *)
Lemma telegram_splitIndexOf_range (r : jsstring) (maxLength : Z) :
  0 <= maxLength ->
  maxLength <= 2 * splitIndexOf r maxLength /\ splitIndexOf r maxLength <= maxLength.
Proof.
  intros Hm. unfold splitIndexOf, unusable.
  pose proof (lastIndexUpTo_range r NL maxLength Hm) as Hn.
  pose proof (lastIndexUpTo_range r SPACE maxLength Hm) as Hs.
  set (n := lastIndexUpTo r NL maxLength) in *.
  set (s := lastIndexUpTo r SPACE maxLength) in *.
  destruct (n =? -1) eqn:En; cbn [orb].
  - destruct (s =? -1) eqn:Es; cbn [orb]; [lia|].
    destruct (2 * s <? maxLength) eqn:Es2; [lia|].
    apply Z.ltb_ge in Es2. apply Z.eqb_neq in Es. lia.
  - destruct (2 * n <? maxLength) eqn:En2.
    + destruct (s =? -1) eqn:Es; cbn [orb]; [lia|].
      destruct (2 * s <? maxLength) eqn:Es2; [lia|].
      apply Z.ltb_ge in Es2. apply Z.eqb_neq in Es. lia.
    + rewrite En. cbn [orb]. rewrite En2.
      apply Z.ltb_ge in En2. apply Z.eqb_neq in En. lia.
Qed.

(** What a cut at [i] makes of a text that goes beyond [i]. *)
Lemma cut_at (r : jsstring) (i : Z) :
  0 <= i < jslength r ->
  exists c, charAt r i = Some c
    /\ r = slice r 0 i ++ c :: sliceFrom r (i + 1)
    /\ jslength (slice r 0 i) = i
    /\ (length (sliceFrom r (i + 1)) < length r)%nat.
Proof.
  intros Hi. rewrite slice_prefix by lia. rewrite sliceFrom_suffix by lia.
  rewrite charAt_nth by lia.
  replace (Z.to_nat (i + 1)) with (S (Z.to_nat i)) by lia.
  assert (Hlt : (Z.to_nat i < length r)%nat) by (unfold jslength in Hi; lia).
  destruct (nth_error r (Z.to_nat i)) as [c|] eqn:Ec.
  - exists c. split; [reflexivity|]. split; [|split].
    + rewrite <- (firstn_skipn (Z.to_nat i) r) at 1. f_equal.
      clear Hi. revert r Hlt Ec. induction (Z.to_nat i) as [|n IH]; intros r Hlt Ec.
      * destruct r; [discriminate|]. cbn in Ec. injection Ec as ->. reflexivity.
      * destruct r as [|x r]; [discriminate|]. cbn in *. apply IH; [lia|exact Ec].
    + unfold jslength. rewrite length_firstn. lia.
    + rewrite length_skipn. lia.
  - apply nth_error_None in Ec. lia.
Qed.

Lemma splitLoop_Cuts (maxLength : Z) (fuel : nat) :
  0 <= maxLength ->
  forall r, (length r < fuel)%nat ->
    exists ps ds, Cuts maxLength r ps ds
      /\ forall acc, splitLoop fuel maxLength r acc = Some (acc ++ ps).
Proof.
  intros Hm. induction fuel as [|fuel IH]; intros r Hfuel; [lia|].
  cbn [splitLoop]. destruct (0 <? jslength r) eqn:E0.
  - destruct (jslength r <=? maxLength) eqn:E1.
    + exists [r], []. split; [|reflexivity]. apply Cuts_last; lia.
    + apply Z.leb_gt in E1.
      pose proof (telegram_splitIndexOf_range r maxLength Hm) as Hi.
      destruct (cut_at r (splitIndexOf r maxLength)) as (c & Hc & _ & _ & Hshort); [lia|].
      destruct (IH (sliceFrom r (splitIndexOf r maxLength + 1))) as (ps & ds & Hcuts & Hloop);
        [lia|].
      exists (slice r 0 (splitIndexOf r maxLength) :: ps), (c :: ds). split.
      * now apply Cuts_cut.
      * intros acc. rewrite Hloop. now rewrite <- app_assoc.
  - exists [], []. split.
    + destruct r; [constructor|].
      apply Z.ltb_ge in E0. unfold jslength in E0. cbn [length] in E0. lia.
    + intros acc. now rewrite app_nil_r.
Qed.

Lemma splitMessage_Cuts (text : jsstring) (maxLength : Z) :
  0 <= maxLength ->
  exists ps ds, Cuts maxLength text ps ds /\ splitMessage text maxLength = Some ps.
Proof.
  intros Hm.
  destruct (splitLoop_Cuts maxLength (S (length text)) Hm text) as (ps & ds & Hc & Hl); [lia|].
  exists ps, ds. split; [exact Hc|]. unfold splitMessage. now rewrite Hl.
Qed.

Lemma Cuts_sizes (maxLength : Z) (r : jsstring) (ps : list jsstring) (ds : list ascii) :
  0 <= maxLength -> Cuts maxLength r ps ds ->
  Forall (fun p => jslength p <= maxLength) ps
  /\ Forall (fun p => maxLength <= 2 * jslength p) (removelast ps)
  /\ (0 < jslength r -> ps <> []).
Proof.
  intros Hm. induction 1 as [|r H0 H1|r c ps ds Hlen Hc Hrest IH].
  - split; [constructor|]. split; [constructor|]. unfold jslength. cbn. lia.
  - split; [constructor; [exact H1|constructor]|]. split; [constructor|discriminate].
  - pose proof (telegram_splitIndexOf_range r maxLength Hm) as Hi.
    destruct (cut_at r (splitIndexOf r maxLength)) as (_ & _ & _ & Hl & _); [lia|].
    destruct IH as (IH1 & IH2 & _).
    split; [constructor; [lia|exact IH1]|]. split; [|discriminate].
    destruct ps as [|p ps]; [constructor|].
    change (removelast (slice r 0 (splitIndexOf r maxLength) :: p :: ps))
      with (slice r 0 (splitIndexOf r maxLength) :: removelast (p :: ps)).
    constructor; [lia|exact IH2].
Qed.

Lemma Cuts_weave (maxLength : Z) (r : jsstring) (ps : list jsstring) (ds : list ascii) :
  0 <= maxLength -> Cuts maxLength r ps ds ->
  r = weave ps ds
  /\ (length ds <= length ps <= S (length ds))%nat
  /\ (jslength r <= maxLength <-> ds = []).
Proof.
  intros Hm. induction 1 as [|r H0 H1|r c ps ds Hlen Hc Hrest IH].
  - split; [reflexivity|]. split; [cbn; lia|]. unfold jslength. cbn. split; [reflexivity|lia].
  - split; [cbn; now rewrite app_nil_r|]. split; [cbn; lia|]. split; [reflexivity|lia].
  - pose proof (telegram_splitIndexOf_range r maxLength Hm) as Hi.
    destruct (cut_at r (splitIndexOf r maxLength)) as (c' & Hc' & Hr & _); [lia|].
    rewrite Hc in Hc'. injection Hc' as <-.
    destruct IH as (IH1 & IH2 & _). split; [|split].
    + cbn [weave]. rewrite <- IH1. exact Hr.
    + cbn [length]. lia.
    + split; [lia|discriminate].
Qed.

End TelegramSplit.

(** X11. [splitMessage] on a limit that is not negative comes to an end.
    No part is longer than the limit; every part but the last has at least
    half the limit; a text within the limit is the only part, and only the
    empty text gives no part. *)
Theorem splitMessage_sizes (text : jsstring) (maxLength : Z) :
  0 <= maxLength ->
  exists parts,
    Telegram.splitMessage text maxLength = Some parts
    /\ Forall (fun p => jslength p <= maxLength) parts
    /\ Forall (fun p => maxLength <= 2 * jslength p) (removelast parts)
    /\ (0 < jslength text <= maxLength -> parts = [text])
    /\ (parts = [] <-> text = []).
Proof.
  intros Hm. destruct (splitMessage_Cuts text maxLength Hm) as (ps & ds & Hc & Hs).
  exists ps. split; [exact Hs|].
  destruct (Cuts_sizes maxLength text ps ds Hm Hc) as (H1 & H2 & H3).
  split; [exact H1|]. split; [exact H2|]. split.
  - intros Hlen. inversion Hc; subst; [unfold jslength in Hlen; cbn in Hlen; lia
                                      |reflexivity|lia].
  - split.
    + intros ->. destruct text; [reflexivity|]. exfalso. apply H3; [|reflexivity].
      unfold jslength. cbn [length]. lia.
    + intros ->. inversion Hc; subst; [reflexivity| |];
        unfold jslength in *; cbn [length] in *; lia.
Qed.

Lemma splitMessage_sizes_witness :
  exists parts,
    Telegram.splitMessage (txt "one two three four") 8 = Some parts
    /\ Forall (fun p => jslength p <= 8) parts
    /\ Forall (fun p => 8 <= 2 * jslength p) (removelast parts)
    /\ (0 < jslength (txt "one two three four") <= 8 -> parts = [txt "one two three four"])
    /\ (parts = [] <-> txt "one two three four" = []).
Proof. apply (splitMessage_sizes (txt "one two three four") 8). lia. Defined.

(** X12. What [splitMessage] keeps of a text, on a limit that is not
    negative: the parts are pieces of the text in order, and between two
    parts, and after the last part when it was cut off too, exactly one
    character of the text is left out, whatever that character is. Putting
    the characters left out back gives the text. A text within the limit
    loses nothing, a longer one loses at least one character. *)
Theorem splitMessage_drops_one (text : jsstring) (maxLength : Z) :
  0 <= maxLength ->
  exists parts dropped,
    Telegram.splitMessage text maxLength = Some parts
    /\ text = weave parts dropped
    /\ (length dropped <= length parts <= S (length dropped))%nat
    /\ (jslength text <= maxLength <-> dropped = []).
Proof.
  intros Hm. destruct (splitMessage_Cuts text maxLength Hm) as (ps & ds & Hc & Hs).
  exists ps, ds. split; [exact Hs|]. exact (Cuts_weave maxLength text ps ds Hm Hc).
Qed.

Lemma splitMessage_drops_one_witness :
  exists parts dropped,
    Telegram.splitMessage (txt "abcdefghij") 4 = Some parts
    /\ txt "abcdefghij" = weave parts dropped
    /\ (length dropped <= length parts <= S (length dropped))%nat
    /\ (jslength (txt "abcdefghij") <= 4 <-> dropped = []).
Proof. apply (splitMessage_drops_one (txt "abcdefghij") 4). lia. Defined.

(** ** Telegram: sending *)

Section TelegramSend.
Import Telegram.

Lemma Cuts_parts_nonempty (maxLength : Z) (r : jsstring) (ps : list jsstring)
    (ds : list ascii) :
  0 < maxLength -> Cuts maxLength r ps ds -> Forall (fun p => 0 < jslength p) ps.
Proof.
  intros Hm. induction 1 as [|r H0 H1|r c ps ds Hlen Hc Hrest IH].
  - constructor.
  - constructor; [exact H0|constructor].
  - pose proof (telegram_splitIndexOf_range r maxLength ltac:(lia)) as Hi.
    destruct (cut_at r (splitIndexOf r maxLength)) as (_ & _ & _ & Hl & _); [lia|].
    constructor; [lia|exact IH].
Qed.

Lemma sendEach_calls (delivers : nat -> SendMessage -> bool) (chatId : jsstring)
    (parts : list jsstring) :
  forall n,
    map body (fst (sendEach delivers chatId n parts)) `prefix_of` parts
    /\ Forall (fun c => to c = chatId) (fst (sendEach delivers chatId n parts))
    /\ (parts <> [] -> fst (sendEach delivers chatId n parts) <> [])
    /\ (snd (sendEach delivers chatId n parts) = true ->
        map body (fst (sendEach delivers chatId n parts)) = parts)
    /\ ((forall k c, delivers k c = true) ->
        snd (sendEach delivers chatId n parts) = true).
Proof.
  induction parts as [|part rest IH]; intros n; cbn [sendEach].
  - cbn. split; [reflexivity|]. split; [constructor|]. split; [congruence|].
    split; reflexivity.
  - destruct (delivers n {| to := chatId; body := part |}) eqn:Ed.
    + destruct (IH (S n)) as (H1 & H2 & _ & H4 & H5).
      destruct (sendEach delivers chatId (S n) rest) as [calls ok]. cbn [fst snd] in *.
      split; [cbn; now apply prefix_cons|]. split; [constructor; [reflexivity|exact H2]|].
      split; [discriminate|]. split; [|exact H5].
      intros Hok. cbn. now rewrite H4.
    + cbn [fst snd]. split; [cbn; apply (prefix_cons part []), prefix_nil|].
      split; [constructor; [reflexivity|constructor]|]. split; [discriminate|].
      split; [discriminate|]. intros Hall. now rewrite Hall in Ed.
Qed.

Lemma prefix_Forall {A} (P : A -> Prop) (l k : list A) :
  l `prefix_of` k -> Forall P k -> Forall P l.
Proof. intros [m ->] Hk. apply Forall_app in Hk. tauto. Qed.

End TelegramSend.

(** X13. [sendTelegramMessage] comes to an end and makes at least one call
    of the API, all of them to the chat given. No call carries more than
    4096 characters, and none an empty text unless the text to send is
    empty. The texts of the calls are the first parts of the text as
    [splitMessage] cuts it (the text itself when it has at most 4096
    characters), all of them when no call raises. *)
Theorem sendTelegramMessage_calls (delivers : nat -> Telegram.SendMessage -> bool)
    (chatId text : jsstring) :
  exists calls ok parts,
    Telegram.sendTelegramMessage delivers chatId text = Some (calls, ok)
    /\ calls <> []
    /\ Forall (fun c => Telegram.to c = chatId
                        /\ jslength (Telegram.body c) <= Telegram.MAX_LENGTH
                        /\ (text <> [] -> Telegram.body c <> [])) calls
    /\ (if jslength text <=? Telegram.MAX_LENGTH then parts = [text]
        else Telegram.splitMessage text Telegram.MAX_LENGTH = Some parts)
    /\ map Telegram.body calls `prefix_of` parts
    /\ (ok = true -> map Telegram.body calls = parts)
    /\ ((forall n c, delivers n c = true) -> ok = true).
Proof.
  assert (Hgen : forall parts,
            parts <> [] ->
            Forall (fun p => jslength p <= Telegram.MAX_LENGTH
                             /\ (text <> [] -> p <> [])) parts ->
            let r := Telegram.sendEach delivers chatId 0 parts in
            fst r <> []
            /\ Forall (fun c => Telegram.to c = chatId
                                /\ jslength (Telegram.body c) <= Telegram.MAX_LENGTH
                                /\ (text <> [] -> Telegram.body c <> [])) (fst r)
            /\ map Telegram.body (fst r) `prefix_of` parts
            /\ (snd r = true -> map Telegram.body (fst r) = parts)
            /\ ((forall n c, delivers n c = true) -> snd r = true)).
  { intros parts Hne Hparts r. subst r.
    destruct (sendEach_calls delivers chatId parts 0%nat) as (H1 & H2 & H3 & H4 & H5).
    split; [now apply H3|]. split; [|tauto].
    pose proof (prefix_Forall _ _ _ H1 Hparts) as Hb.
    rewrite Forall_forall in H2. rewrite Forall_forall. intros c Hc.
    split; [now apply H2|].
    rewrite Forall_forall in Hb. apply (Hb (Telegram.body c)).
    apply list_elem_of_fmap. eauto. }
  unfold Telegram.sendTelegramMessage.
  destruct (jslength text <=? Telegram.MAX_LENGTH) eqn:E.
  - apply Z.leb_le in E.
    destruct (Hgen [text]) as (G1 & G2 & G3 & G4 & G5); [discriminate| |].
    { constructor; [|constructor]. split; [exact E|tauto]. }
    destruct (Telegram.sendEach delivers chatId 0 [text]) as [calls ok].
    exists calls, ok, [text]. cbn [fst snd] in *. tauto.
  - apply Z.leb_gt in E.
    destruct (splitMessage_Cuts text Telegram.MAX_LENGTH) as (ps & ds & Hc & Hs);
      [unfold Telegram.MAX_LENGTH; lia|].
    rewrite Hs.
    destruct (Cuts_sizes Telegram.MAX_LENGTH text ps ds) as (S1 & _ & S3);
      [unfold Telegram.MAX_LENGTH; lia|exact Hc|].
    pose proof (Cuts_parts_nonempty Telegram.MAX_LENGTH text ps ds
                  ltac:(unfold Telegram.MAX_LENGTH; lia) Hc) as Hpos.
    destruct (Hgen ps) as (G1 & G2 & G3 & G4 & G5).
    { apply S3. unfold Telegram.MAX_LENGTH in E. lia. }
    { rewrite Forall_forall in *. intros p Hp. split; [now apply S1|].
      intros _ ->. specialize (Hpos [] Hp). unfold jslength in Hpos. cbn in Hpos. lia. }
    destruct (Telegram.sendEach delivers chatId 0 ps) as [calls ok].
    exists calls, ok, ps. cbn [fst snd] in *. tauto.
Qed.

(** ** From the executor to Telegram *)

Section Delivery.
Import Executor.

(** A number below [10 ^ (k + 1)] is written with at most [k + 1] digits. *)
Lemma decimal_acc_length (k : nat) :
  forall fuel n acc,
    0 <= n < 10 ^ Z.of_nat (S k) ->
    (length (decimal_acc fuel n acc) <= length acc + S k)%nat.
Proof.
  induction k as [|k IH]; intros fuel n acc Hn.
  - change (10 ^ Z.of_nat 1) with 10 in Hn.
    assert (Hq : n / 10 = 0) by (apply Z.div_small; lia).
    destruct fuel; cbn [decimal_acc]; [cbn [length]; lia|].
    rewrite Hq. cbn [Z.eqb length]. lia.
  - destruct fuel; cbn [decimal_acc]; [cbn [length]; lia|].
    destruct (n / 10 =? 0) eqn:Eq; [cbn [length]; lia|].
    assert (Hq : 0 <= n / 10 < 10 ^ Z.of_nat (S k)).
    { split; [apply Z.div_pos; lia|].
      apply Z.div_lt_upper_bound; [lia|].
      replace (Z.of_nat (S (S k))) with (Z.of_nat (S k) + 1) in Hn by lia.
      rewrite Z.pow_add_r in Hn by lia. change (10 ^ 1) with 10 in Hn. lia. }
    specialize (IH fuel (n / 10) (digit (n mod 10) :: acc) Hq).
    cbn [length] in IH. lia.
Qed.

Lemma decimal_length (n : Z) :
  0 <= n < 2 ^ 53 -> jslength (decimal n) <= 16.
Proof.
  intros Hn. unfold decimal, jslength.
  pose proof (decimal_acc_length 15 (Z.to_nat n) n []) as Hd.
  cbn [length] in Hd.
  assert (Hb : 0 <= n < 10 ^ Z.of_nat 16).
  { change (10 ^ Z.of_nat 16) with 10000000000000000.
    change (2 ^ 53) with 9007199254740992 in Hn. lia. }
  specialize (Hd Hb). lia.
Qed.

Lemma Chunks_count (r : jsstring) (cs : list jsstring) :
  Chunks r cs -> (length cs <= length r)%nat.
Proof.
  induction 1 as [|r H0 H1|r cs Hlen Hrest IH].
  - reflexivity.
  - unfold jslength in H0. cbn [length]. lia.
  - destruct (length_cut_suffix r Hlen) as [_ Hshort]. cbn [length]. lia.
Qed.

Lemma partIndicator_length (i n : Z) :
  0 <= i < n -> n < 2 ^ 53 -> jslength (partIndicator i n) <= 42.
Proof.
  intros Hi Hn. unfold partIndicator. destruct (1 <? n); [|unfold jslength; cbn; lia].
  rewrite !jslength_app.
  pose proof (decimal_length (i + 1) ltac:(lia)).
  pose proof (decimal_length n ltac:(lia)).
  change (jslength (txt "[Part ")) with 6. change (jslength (txt "/")) with 1.
  change (jslength (txt "]")) with 1. change (jslength [NL; NL]) with 2. lia.
Qed.

End Delivery.

(** X14. The chunks of the executor fit Telegram. Every response that
    [sendChunkedResponse] publishes for a text (of a length below 2^53, the
    limit of the language) has at most 4042 characters, part prefix
    included; so the Telegram subscriber sends it in one call, with its
    text as it is, and cuts nothing off. *)
Theorem responses_sent_whole (delivers : nat -> Telegram.SendMessage -> bool)
    (rid cid t : jsstring) (sid : option jsstring) :
  jslength t < 2 ^ 53 ->
  exists events,
    Executor.sendChunkedResponse rid cid t sid = Some events
    /\ Forall (fun e =>
         jslength (text e) <= 4042
         /\ Telegram.sendTelegramMessage delivers (chatId e) (text e)
            = Some ([ {| Telegram.to := cid; Telegram.body := text e |} ],
                    delivers 0%nat {| Telegram.to := cid; Telegram.body := text e |}))
       events.
Proof.
  intros Hlim.
  assert (Hone : forall e, chatId e = cid -> jslength (text e) <= 4042 ->
            jslength (text e) <= 4042
            /\ Telegram.sendTelegramMessage delivers (chatId e) (text e)
               = Some ([ {| Telegram.to := cid; Telegram.body := text e |} ],
                       delivers 0%nat {| Telegram.to := cid; Telegram.body := text e |})).
  { intros e Hc Hl. split; [exact Hl|]. unfold Telegram.sendTelegramMessage.
    rewrite Hc.
    destruct (jslength (text e) <=? Telegram.MAX_LENGTH) eqn:E;
      [|apply Z.leb_gt in E; unfold Telegram.MAX_LENGTH in E; lia].
    cbn [Telegram.sendEach]. now destruct (delivers 0%nat _). }
  destruct (Z.le_gt_cases (jslength t) Executor.MAX_CHUNK_SIZE) as [Hshort|Hlong].
  - unfold Executor.sendChunkedResponse.
    apply Z.leb_le in Hshort. rewrite Hshort. apply Z.leb_le in Hshort.
    eexists. split; [reflexivity|]. constructor; [|constructor].
    apply Hone; [reflexivity|]. cbn [text]. unfold Executor.MAX_CHUNK_SIZE in Hshort. lia.
  - destruct (sendChunkedResponse_long rid cid t sid) as (cs & Hcs & Hne & Hsend); [lia|].
    exists (imap (Executor.partEvent rid cid sid (Z.of_nat (length cs))) cs).
    split; [exact Hsend|].
    pose proof (Chunks_count t cs Hcs) as Hcount.
    pose proof (Chunks_sized t cs Hcs) as Hsized.
    apply Forall_lookup. intros i e Hi. rewrite list_lookup_imap in Hi.
    destruct (cs !! i) as [c|] eqn:Hc; [|discriminate].
    cbn in Hi. injection Hi as <-.
    apply Hone; [reflexivity|]. cbn [text Executor.partEvent].
    rewrite jslength_app.
    assert (Hlt : (i < length cs)%nat) by (apply lookup_lt_is_Some; eauto).
    rewrite Forall_forall in Hsized.
    assert (Hin : c ∈ cs) by (apply list_elem_of_lookup; eauto).
    specialize (Hsized c Hin). unfold chunkSized, Executor.MAX_CHUNK_SIZE in Hsized.
    unfold jslength in Hlim.
    assert (jslength (Executor.partIndicator (Z.of_nat i) (Z.of_nat (length cs))) <= 42).
    { apply partIndicator_length; [lia|].
      change (2 ^ 53) with 9007199254740992 in *. lia. }
    lia.
Qed.

Lemma responses_sent_whole_witness :
  exists events,
    Executor.sendChunkedResponse (txt "cc-1") (txt "7") Fixture.twoLines None
    = Some events
    /\ Forall (fun e =>
         jslength (text e) <= 4042
         /\ Telegram.sendTelegramMessage (fun _ _ => true) (chatId e) (text e)
            = Some ([ {| Telegram.to := txt "7"; Telegram.body := text e |} ], true))
       events.
Proof.
  apply (responses_sent_whole (fun _ _ => true) (txt "cc-1") (txt "7")
           Fixture.twoLines None).
  vm_compute. reflexivity.
Defined.

(** ** Telegram: the permission keyboard *)

Lemma split_first (c : ascii) (a rest : jsstring) :
  c ∉ a -> split c (a ++ c :: rest) = a :: split c rest.
Proof.
  induction a as [|x a IH]; intros Hc.
  - cbn. now rewrite Ascii.eqb_refl.
  - cbn [app split]. destruct (Ascii.eqb x c) eqn:Ex.
    + apply Ascii.eqb_eq in Ex. subst x. exfalso. apply Hc. apply list_elem_of_here.
    + rewrite IH; [reflexivity|]. intros Hin. apply Hc. now apply list_elem_of_further.
Qed.

Lemma split_segments (c : ascii) (s : jsstring) :
  Forall (fun seg => c ∉ seg) (split c s).
Proof.
  induction s as [|x s IH]; cbn [split].
  - constructor; [apply not_elem_of_nil|constructor].
  - destruct (Ascii.eqb x c) eqn:Ex.
    + constructor; [apply not_elem_of_nil|exact IH].
    + destruct (split c s) as [|seg segs].
      * constructor; [|constructor]. intros Hin. apply list_elem_of_singleton in Hin.
        subst x. now rewrite Ascii.eqb_refl in Ex.
      * apply Forall_cons in IH. destruct IH as [Hseg Hsegs].
        constructor; [|exact Hsegs]. intros Hin. apply elem_of_cons in Hin.
        destruct Hin as [->|Hin]; [now rewrite Ascii.eqb_refl in Ex|contradiction].
Qed.

Lemma startsWith_prefix (p s : jsstring) :
  startsWith p s = true -> exists rest, s = p ++ rest.
Proof.
  revert s. induction p as [|a p IH]; intros s; cbn [startsWith].
  - eauto.
  - destruct s as [|b s]; [discriminate|]. intros Hs. apply andb_prop in Hs.
    destruct Hs as [Hab Hs]. apply Ascii.eqb_eq in Hab. subst b.
    destruct (IH s Hs) as [rest ->]. eauto.
Qed.

(** X15. Pressing a button of the permission keyboard answers the request
    it was made for: when the request id has no colon, the data of a
    button, taken apart by the callback handler, gives a response with
    that id, approved exactly for the action allow and to be remembered
    exactly for the choice yes. *)
Theorem callback_roundtrip (requestId action remember chatId : jsstring) :
  ":"%char ∉ requestId -> ":"%char ∉ action -> ":"%char ∉ remember ->
  Telegram.onCallbackQuery (Telegram.buttonData requestId action remember) chatId
  = Some {| resp_requestId := requestId;
            resp_chatId := chatId;
            approved := bool_decide (action = txt "allow");
            rememberChoice := bool_decide (remember = txt "yes") |}.
Proof.
  intros Hid Hact Hrem. unfold Telegram.onCallbackQuery, Telegram.buttonData.
  rewrite startsWith_app.
  change (txt "perm:" ++ requestId ++ txt ":" ++ action ++ txt ":" ++ remember)
    with (txt "perm" ++ ":"%char :: requestId ++ ":"%char :: action ++ ":"%char :: remember).
  rewrite split_first;
    [|intros Hin; repeat (apply elem_of_cons in Hin; destruct Hin as [Hin|Hin];
                          [discriminate|]); now apply not_elem_of_nil in Hin].
  rewrite (split_first ":" requestId) by exact Hid.
  rewrite (split_first ":" action) by exact Hact.
  rewrite (split_no_sep ":" remember) by exact Hrem.
  cbn. f_equal. f_equal.
  - apply bool_decide_ext. split; congruence.
  - apply bool_decide_ext. split; congruence.
Qed.

Lemma callback_roundtrip_witness :
  Telegram.onCallbackQuery
    (Telegram.buttonData (txt "perm-17-k3x") (txt "deny") (txt "yes")) (txt "7")
  = Some {| resp_requestId := txt "perm-17-k3x";
            resp_chatId := txt "7";
            approved := bool_decide (txt "deny" = txt "allow");
            rememberChoice := bool_decide (txt "yes" = txt "yes") |}.
Proof.
  apply (callback_roundtrip (txt "perm-17-k3x") (txt "deny") (txt "yes") (txt "7")).
  - intros Hin.
    repeat (apply elem_of_cons in Hin; destruct Hin as [Hin|Hin]; [discriminate|]).
    now apply not_elem_of_nil in Hin.
  - intros Hin.
    repeat (apply elem_of_cons in Hin; destruct Hin as [Hin|Hin]; [discriminate|]).
    now apply not_elem_of_nil in Hin.
  - intros Hin.
    repeat (apply elem_of_cons in Hin; destruct Hin as [Hin|Hin]; [discriminate|]).
    now apply not_elem_of_nil in Hin.
Defined.

(** X16. The callback handler publishes a response exactly for the data
    that starts with [perm:], and the request id of a response never has a
    colon: it is what lies between the first colon of the data and the
    next. The response is approved only when the third part of the data is
    [allow], and remembered only when the fourth is [yes]. *)
Theorem callback_response (data chatId : jsstring) :
  (is_Some (Telegram.onCallbackQuery data chatId)
   <-> startsWith (txt "perm:") data = true)
  /\ forall r, Telegram.onCallbackQuery data chatId = Some r ->
       resp_chatId r = chatId
       /\ (":"%char ∉ resp_requestId r)
       /\ (exists rest, data = txt "perm:" ++ resp_requestId r ++ rest
                        /\ (rest = [] \/ exists rest', rest = ":"%char :: rest'))
       /\ (approved r = true -> split ":" data !! 2%nat = Some (txt "allow"))
       /\ (rememberChoice r = true -> split ":" data !! 3%nat = Some (txt "yes")).
Proof.
  unfold Telegram.onCallbackQuery.
  destruct (startsWith (txt "perm:") data) eqn:Es.
  - destruct (startsWith_prefix _ _ Es) as [rest Hdata].
    assert (Hsplit : split ":" data = txt "perm" :: split ":" rest).
    { rewrite Hdata. change (txt "perm:" ++ rest) with (txt "perm" ++ ":"%char :: rest).
      apply split_first. intros Hin.
      repeat (apply elem_of_cons in Hin; destruct Hin as [Hin|Hin]; [discriminate|]).
      now apply not_elem_of_nil in Hin. }
    destruct (split_nonempty ":" rest) as (seg & segs & Hrest).
    pose proof (split_segments ":" rest) as Hsegs. rewrite Hrest in Hsegs.
    apply Forall_cons in Hsegs. destruct Hsegs as [Hseg _].
    rewrite Hsplit, Hrest. cbn [lookup list_lookup].
    split; [split; eauto|].
    intros r [= <-]. cbn [resp_chatId resp_requestId approved rememberChoice].
    split; [reflexivity|]. split; [exact Hseg|]. split; [|split].
    + pose proof (join_split ":" rest) as Hj. rewrite Hrest in Hj.
      destruct segs as [|seg2 segs].
      * cbn in Hj. subst rest. exists []. rewrite app_nil_r. split; [exact Hdata|now left].
      * change (join [":"%char] (seg :: seg2 :: segs))
          with (seg ++ ":"%char :: join [":"%char] (seg2 :: segs)) in Hj.
        eexists. split; [rewrite Hdata, <- Hj; reflexivity|]. right. eauto.
    + intros Ha. now apply bool_decide_eq_true in Ha.
    + intros Hr. now apply bool_decide_eq_true in Hr.
  - split; [|discriminate]. split; [intros [x Hx]; discriminate|discriminate].
Qed.

(** ** Requests to the agent runtime *)

Section RequestProperties.
Import Requests.

Lemma finalTextOf_nonempty (resultText : jsstring) (result : option jsstring) :
  finalTextOf resultText result <> [].
Proof.
  unfold finalTextOf. destruct (trim resultText); [|discriminate].
  destruct result as [[|c t]|]; discriminate.
Qed.

(** The responses of [sendChunkedResponse] for a text that is not empty. *)
Lemma sendChunkedResponse_answers (request : ClaudeCodeRequest) (t : jsstring)
    (sid : option jsstring) :
  t <> [] ->
  exists events,
    Executor.sendChunkedResponse (req_id request) (req_chatId request) t sid = Some events
    /\ events <> [] /\ Forall (answers request) events.
Proof.
  intros Ht.
  destruct (Z.le_gt_cases (jslength t) Executor.MAX_CHUNK_SIZE) as [Hshort|Hlong].
  - unfold Executor.sendChunkedResponse. apply Z.leb_le in Hshort. rewrite Hshort.
    eexists. split; [reflexivity|]. split; [discriminate|].
    constructor; [|constructor]. unfold answers.
    cbn [requestId chatId text sessionId isPartial].
    split; [reflexivity|]. split; [reflexivity|]. split; [exact Ht|discriminate].
  - destruct (sendChunkedResponse_long (req_id request) (req_chatId request) t sid)
      as (cs & Hcs & Hne & Hsend); [lia|].
    eexists. split; [exact Hsend|]. split.
    + destruct cs; [congruence|discriminate].
    + pose proof (Chunks_sized t cs Hcs) as Hsized.
      apply Forall_lookup. intros i e Hi. rewrite list_lookup_imap in Hi.
      destruct (cs !! i) as [c|] eqn:Hc; [|discriminate].
      cbn in Hi. injection Hi as <-.
      rewrite Forall_forall in Hsized.
      assert (Hin : c ∈ cs) by (apply list_elem_of_lookup; eauto).
      specialize (Hsized c Hin). unfold chunkSized in Hsized.
      unfold answers, Executor.partEvent.
      cbn [requestId chatId text sessionId isPartial].
      split; [reflexivity|]. split; [reflexivity|]. split.
      * intros Happ. apply app_eq_nil in Happ. destruct Happ as [_ ->].
        unfold jslength in Hsized. cbn in Hsized. lia.
      * destruct (Z.of_nat i =? Z.of_nat (length cs) - 1); [discriminate|reflexivity].
Qed.

(** What reading the stream does to the effects so far. *)
Lemma forAwait_progress (request : ClaudeCodeRequest) (messages : list SDKMessage) :
  forall p,
    exists p' extra,
      forAwait request p messages = Some p'
      /\ published p' = published p ++ extra
      /\ Forall (answers request) extra
      /\ (extra = [] <-> existsb isResult messages = false)
      /\ (forall key, key <> sessionKey (req_chatId request) (req_projectName request) ->
            activeSessions p' !! key = activeSessions p !! key)
      /\ activeSessions p' !! sessionKey (req_chatId request) (req_projectName request)
         = lastInit messages
             (activeSessions p !! sessionKey (req_chatId request) (req_projectName request)).
Proof.
  induction messages as [|m rest IH]; intros p.
  - exists p, []. cbn. rewrite app_nil_r. repeat split; auto.
  - cbn [forAwait]. destruct m as [sid|content|result|].
    + cbn [onMessage].
      set (p1 := {| currentSessionId := sid; resultText := resultText p;
                    activeSessions := _; published := published p |}).
      destruct (IH p1) as (p' & extra & Hf & Hp & Ha & He & Hk & Hs).
      exists p', extra. split; [exact Hf|]. split; [exact Hp|]. split; [exact Ha|].
      split; [exact He|]. split.
      * intros key Hkey. rewrite (Hk key Hkey). subst p1. cbn [activeSessions].
        destruct sid as [[|c t]|]; try reflexivity. now rewrite lookup_insert_ne.
      * rewrite Hs. subst p1. cbn [activeSessions lastInit].
        destruct sid as [[|c t]|]; try reflexivity. now rewrite lookup_insert_eq.
    + assert (Hsame : exists p1, onMessage request p (AssistantMessage content) = Some p1
                        /\ published p1 = published p
                        /\ activeSessions p1 = activeSessions p).
      { destruct content; cbn [onMessage]; eexists; split; try reflexivity;
          split; reflexivity. }
      destruct Hsame as (p1 & -> & Hpub & Hact).
      destruct (IH p1) as (p' & extra & Hf & Hp & Ha & He & Hk & Hs).
      exists p', extra. rewrite <- Hpub, <- Hact. cbn [existsb isResult orb lastInit].
      tauto.
    + cbn [onMessage].
      destruct (sendChunkedResponse_answers request
                  (finalTextOf (resultText p) result) (currentSessionId p)
                  (finalTextOf_nonempty _ _)) as (events & -> & Hne & Hev).
      set (p1 := {| currentSessionId := currentSessionId p; resultText := resultText p;
                    activeSessions := activeSessions p;
                    published := published p ++ events |}).
      destruct (IH p1) as (p' & extra & Hf & Hp & Ha & He & Hk & Hs).
      exists p', (events ++ extra). split; [exact Hf|]. split.
      { rewrite Hp. subst p1. cbn [published]. now rewrite app_assoc. }
      split; [apply Forall_app; tauto|]. split.
      { cbn [existsb isResult orb]. split; [|discriminate].
        intros Happ. apply app_eq_nil in Happ. tauto. }
      split; [exact Hk|exact Hs].
    + cbn [onMessage].
      destruct (IH p) as (p' & extra & Hf & Hp & Ha & He & Hk & Hs).
      exists p', extra. cbn [existsb isResult orb lastInit]. tauto.
Qed.

End RequestProperties.

(** X17. [executeRequest] comes to an end for every request and every
    stream of the runtime, and whatever it publishes answers the request:
    each response carries the id and the chat of the request and a text
    that is not empty, and a response that announces more parts carries no
    session id. *)
Theorem executeRequest_responses (config : ClaudeCodeConfig)
    (sessions : Requests.Sessions) (request : Requests.ClaudeCodeRequest)
    (stream : Requests.Stream) :
  exists sessions' responses,
    Requests.executeRequest config sessions request stream = Some (sessions', responses)
    /\ Forall (answers request) responses.
Proof.
  unfold Requests.executeRequest.
  assert (Hplain : forall t, t <> [] -> answers request (Requests.plainResponse request t)).
  { intros t Ht. unfold answers, Requests.plainResponse.
    cbn [requestId chatId text sessionId isPartial].
    split; [reflexivity|]. split; [reflexivity|]. split; [exact Ht|discriminate]. }
  destruct (negb (ProjectManager.isAuthorizedUser config (Requests.req_userId request))).
  { eexists _, _. split; [reflexivity|]. constructor; [|constructor].
    apply Hplain. discriminate. }
  cbv zeta.
  destruct (Requests.truthyPath
              (ProjectManager.getProject config (Requests.req_projectName request)));
    cbn [negb].
  2: eexists _, _; (split; [reflexivity|]); (constructor; [|constructor]);
     apply Hplain; discriminate.
  match goal with
  | |- context [Requests.forAwait request ?p0 _] =>
      destruct (forAwait_progress request (Requests.yielded stream) p0)
        as (p' & extra & -> & Hp & Ha & _)
  end.
  cbn [Requests.published app] in Hp.
  destruct (Requests.raised stream) as [e|]; eexists _, _; (split; [reflexivity|]).
  - rewrite Hp. apply Forall_app. split; [exact Ha|].
    constructor; [|constructor]. apply Hplain. discriminate.
  - now rewrite Hp.
Qed.

(** X18. The session table after [executeRequest]. A request that is
    turned away (its user is not the authorized one, or [getProject] gives
    nothing truthy for its project) leaves the table as it is. Otherwise only the entry of the
    request's chat and project can change, and it holds the id of the last
    init message of the stream that has one; it is as before when there is
    none, also when the stream ends in an exception. *)
Theorem executeRequest_sessions (config : ClaudeCodeConfig)
    (sessions : Requests.Sessions) (request : Requests.ClaudeCodeRequest)
    (stream : Requests.Stream) :
  exists sessions' responses,
    Requests.executeRequest config sessions request stream = Some (sessions', responses)
    /\ (forall key,
          key <> Requests.sessionKey (Requests.req_chatId request)
                   (Requests.req_projectName request) ->
          sessions' !! key = sessions !! key)
    /\ (if admitted config request
        then Requests.getActiveSession sessions' (Requests.req_chatId request)
               (Requests.req_projectName request)
             = lastInit (Requests.yielded stream)
                 (Requests.getActiveSession sessions (Requests.req_chatId request)
                    (Requests.req_projectName request))
        else sessions' = sessions).
Proof.
  unfold Requests.executeRequest, admitted.
  destruct (ProjectManager.isAuthorizedUser config (Requests.req_userId request));
    cbn [negb andb].
  2: { eexists _, _. split; [reflexivity|]. split; reflexivity. }
  cbv zeta.
  destruct (Requests.truthyPath
              (ProjectManager.getProject config (Requests.req_projectName request)));
    cbn [negb].
  2: eexists _, _; (split; [reflexivity|]); split; reflexivity.
  match goal with
  | |- context [Requests.forAwait request ?p0 _] =>
      destruct (forAwait_progress request (Requests.yielded stream) p0)
        as (p' & extra & -> & _ & _ & _ & Hk & Hs)
  end.
  cbn [Requests.activeSessions] in Hk, Hs.
  destruct (Requests.raised stream) as [e|]; eexists _, _;
    (split; [reflexivity|]); (split; [exact Hk|exact Hs]).
Qed.

(** X19. When [executeRequest] publishes nothing: exactly when the request
    is not turned away and the stream of the runtime ends, without an
    exception, having yielded no result message. Whatever text the
    assistant messages of such a stream hold is dropped. *)
Theorem executeRequest_silent (config : ClaudeCodeConfig)
    (sessions : Requests.Sessions) (request : Requests.ClaudeCodeRequest)
    (stream : Requests.Stream) :
  exists sessions' responses,
    Requests.executeRequest config sessions request stream = Some (sessions', responses)
    /\ (responses = []
        <-> admitted config request = true
            /\ existsb isResult (Requests.yielded stream) = false
            /\ Requests.raised stream = None).
Proof.
  unfold Requests.executeRequest, admitted.
  destruct (ProjectManager.isAuthorizedUser config (Requests.req_userId request));
    cbn [negb andb].
  2: { eexists _, _. split; [reflexivity|]. split; [discriminate|]. intros [? _].
       discriminate. }
  cbv zeta.
  destruct (Requests.truthyPath
              (ProjectManager.getProject config (Requests.req_projectName request)));
    cbn [negb].
  2: eexists _, _; (split; [reflexivity|]); (split; [discriminate|]);
     intros [? _]; discriminate.
  match goal with
  | |- context [Requests.forAwait request ?p0 _] =>
      destruct (forAwait_progress request (Requests.yielded stream) p0)
        as (p' & extra & -> & Hp & _ & He & _)
  end.
  cbn [Requests.published app] in Hp.
  destruct (Requests.raised stream) as [e|]; eexists _, _; (split; [reflexivity|]).
  - split; [|intros (_ & _ & ?); discriminate].
    intros Happ. apply app_eq_nil in Happ. destruct Happ as [_ ?]. discriminate.
  - rewrite Hp. split; [intros ->; tauto|]. intros (_ & Hno & _). now apply He.
Qed.

(** ** Sessions *)

Lemma sessionKey_injective (chatId chatId' p p' : jsstring) :
  ":"%char ∉ chatId -> ":"%char ∉ chatId' ->
  Requests.sessionKey chatId p = Requests.sessionKey chatId' p' ->
  chatId = chatId' /\ p = p'.
Proof.
  unfold Requests.sessionKey. change (txt ":") with [":"%char].
  revert chatId'. induction chatId as [|x c IH]; intros [|y c'] Hc Hc' Heq.
  - cbn in Heq. injection Heq as ->. tauto.
  - cbn in Heq. injection Heq as <- _. exfalso. apply Hc'. apply list_elem_of_here.
  - cbn in Heq. injection Heq as -> _. exfalso. apply Hc. apply list_elem_of_here.
  - cbn in Heq. injection Heq as -> Heq.
    destruct (IH c') as [-> ->]; [| |exact Heq|now split].
    + intros Hin. apply Hc. now apply list_elem_of_further.
    + intros Hin. apply Hc'. now apply list_elem_of_further.
Qed.

(** X20. Sessions are kept apart as long as chat ids have no colon: two
    pairs of chat and project with the same key are the same pair. So
    [clearSession] removes the session of its chat and project and leaves
    the session of every other chat and project as it is. *)
Theorem clearSession_only (sessions : Requests.Sessions)
    (chatId chatId' p p' : jsstring) :
  ":"%char ∉ chatId -> ":"%char ∉ chatId' ->
  (Requests.sessionKey chatId p = Requests.sessionKey chatId' p'
   <-> chatId = chatId' /\ p = p')
  /\ Requests.getActiveSession (Requests.clearSession sessions chatId p) chatId p = None
  /\ (~ (chatId' = chatId /\ p' = p) ->
      Requests.getActiveSession (Requests.clearSession sessions chatId p) chatId' p'
      = Requests.getActiveSession sessions chatId' p').
Proof.
  intros Hc Hc'. split; [|split].
  - split; [now apply sessionKey_injective|]. now intros [-> ->].
  - unfold Requests.getActiveSession, Requests.clearSession. apply lookup_delete_eq.
  - intros Hne. unfold Requests.getActiveSession, Requests.clearSession.
    apply lookup_delete_ne. intros Heq.
    apply sessionKey_injective in Heq; [|exact Hc|exact Hc'].
    destruct Heq as [-> ->]. now apply Hne.
Qed.

Lemma clearSession_only_witness :
  (Requests.sessionKey (txt "7") (txt "blog") = Requests.sessionKey (txt "8") (txt "blog")
   <-> txt "7" = txt "8" /\ txt "blog" = txt "blog")
  /\ Requests.getActiveSession
       (Requests.clearSession {[ txt "8:blog" := txt "s1" ]} (txt "7") (txt "blog"))
       (txt "7") (txt "blog") = None
  /\ (~ (txt "8" = txt "7" /\ txt "blog" = txt "blog") ->
      Requests.getActiveSession
        (Requests.clearSession {[ txt "8:blog" := txt "s1" ]} (txt "7") (txt "blog"))
        (txt "8") (txt "blog")
      = Requests.getActiveSession {[ txt "8:blog" := txt "s1" ]} (txt "8") (txt "blog")).
Proof.
  apply (clearSession_only {[ txt "8:blog" := txt "s1" ]}
           (txt "7") (txt "8") (txt "blog") (txt "blog")).
  - intros Hin.
    repeat (apply elem_of_cons in Hin; destruct Hin as [Hin|Hin]; [discriminate|]).
    now apply not_elem_of_nil in Hin.
  - intros Hin.
    repeat (apply elem_of_cons in Hin; destruct Hin as [Hin|Hin]; [discriminate|]).
    now apply not_elem_of_nil in Hin.
Defined.

(** X21. What a user who is not the authorized one can do with a command.
    [handleClaudeCodeCommand] leaves the permission store as it is,
    whatever the command; the only change to the session table it makes
    is that of a clear-session command, which removes the session of the
    user's own chat and the project named; and every request it publishes
    is answered by [executeRequest] with the refusal alone, the runtime not
    being asked and the session table staying as it is. *)
Theorem unauthorized_user `{Host} (config : ClaudeCodeConfig) (now : Z)
    (command : Parser.ParsedCommand) (userId chatId : jsstring)
    (sessions : Requests.Sessions) (store : PermissionManager.Store) :
  ProjectManager.isAuthorizedUser config userId = false ->
  exists sessions' effects,
    Telegram.handleClaudeCodeCommand config now command userId chatId sessions store
    = (sessions', store, effects)
    /\ (sessions' = sessions
        \/ exists projectName,
             command = Some (Parser.ClearSessionCommand projectName)
             /\ sessions' = Requests.clearSession sessions chatId projectName)
    /\ forall request, Telegram.PublishRequest request ∈ effects ->
         forall stream,
           Requests.executeRequest config sessions' request stream
           = Some (sessions',
                   [Requests.plainResponse request
                      (txt "You are not authorized to use Claude Code features.")]).
Proof.
  intros Hno. unfold Telegram.handleClaudeCodeCommand.
  destruct command as [[projectName prompt| |projectName|projectName]|].
  - eexists _, _. split; [reflexivity|]. split; [now left|].
    intros request Hin stream.
    apply elem_of_cons in Hin. destruct Hin as [Hin|Hin]; [discriminate|].
    apply list_elem_of_singleton in Hin. injection Hin as ->.
    unfold Requests.executeRequest. cbn [Requests.req_userId]. now rewrite Hno.
  - eexists _, _. split; [reflexivity|]. split; [now left|].
    intros request Hin. apply list_elem_of_singleton in Hin. discriminate.
  - eexists _, _. split; [reflexivity|]. split; [right; eauto|].
    intros request Hin. apply list_elem_of_singleton in Hin. discriminate.
  - rewrite Hno. cbn [negb]. eexists _, _. split; [reflexivity|]. split; [now left|].
    intros request Hin. apply list_elem_of_singleton in Hin. discriminate.
  - eexists _, _. split; [reflexivity|]. split; [now left|].
    intros request Hin. now apply not_elem_of_nil in Hin.
Qed.

Lemma unauthorized_user_witness :
  exists sessions' effects,
    Telegram.handleClaudeCodeCommand (H := Fixture.host) Fixture.blogConfig 1700
      (Some (Parser.ClaudeCodeCommand (txt "blog") (txt "deploy"))) (txt "13") (txt "7")
      ∅ Fixture.emptyStore
    = (sessions', Fixture.emptyStore, effects)
    /\ (sessions' = ∅
        \/ exists projectName,
             Some (Parser.ClaudeCodeCommand (txt "blog") (txt "deploy"))
             = Some (Parser.ClearSessionCommand projectName)
             /\ sessions' = Requests.clearSession ∅ (txt "7") projectName)
    /\ forall request, Telegram.PublishRequest request ∈ effects ->
         forall stream,
           Requests.executeRequest Fixture.blogConfig sessions' request stream
           = Some (sessions',
                   [Requests.plainResponse request
                      (txt "You are not authorized to use Claude Code features.")]).
Proof.
  apply (unauthorized_user (H := Fixture.host) Fixture.blogConfig 1700
           (Some (Parser.ClaudeCodeCommand (txt "blog") (txt "deploy")))
           (txt "13") (txt "7") ∅ Fixture.emptyStore).
  vm_compute. reflexivity.
Defined.

(** ** A decision remembered through the negotiation *)

(** X22. Asked once, answered from then on. When [handlePermission] has to
    ask (the store has no answer) and the user answers with the choice to
    remember, the decision goes to the store, and the same invocation in
    the same project is from then on answered at once with that decision:
    no permission request is published for it, nothing is left pending and
    no timer is armed. It holds provided the glob made for the file path
    (if any) accepts it and no rule of the list the decision goes to has a
    command pattern. *)
Theorem remembered_answer `{Host} (s : Executor.ExecutorState)
    (id id' chat chat' project toolName : jsstring) (input : ToolInput) (b : bool) :
  PermissionManager.checkPermission
    (PermissionManager.memory (Executor.store s)) project toolName input
  = Returned PermissionManager.Ask ->
  globAcceptsOwnPath toolName input ->
  Forall (fun r => commandPattern r = None)
    (listOf b (PermissionManager.memory (Executor.store s) !!! project)) ->
  let response := {| resp_requestId := id; resp_chatId := chat;
                     approved := b; rememberChoice := true |} in
  let s1 := Executor.run s [ Executor.CanUseTool id chat project toolName input;
                             Executor.PermissionResponse response ] in
  let s2 := Executor.step s1 (Executor.CanUseTool id' chat' project toolName input) in
  Executor.store s1
  = snd (PermissionManager.remember (Executor.store s) project toolName input b)
  /\ Executor.verdicts s1
     = Executor.verdicts s
       ++ [ (Some (length (Executor.promises s)),
             if b then Executor.Allow input
             else Executor.Deny (txt "User denied permission.")) ]
  /\ Executor.verdicts s2
     = Executor.verdicts s1
       ++ [ (None,
             if b then Executor.Allow input
             else Executor.Deny (txt "This action was previously denied.")) ]
  /\ Executor.asked s2 = Executor.asked s1
  /\ Executor.pendingPermissions s2 = Executor.pendingPermissions s1
  /\ Executor.timers s2 = Executor.timers s1
  /\ Executor.store s2 = Executor.store s1.
Proof.
  intros Hask Hglob Hplain response s1 s2.
  destruct (remember_decides _ _ _ _ _ _ Hglob Hplain Hask) as [Hret Hafter].
  assert (Hs1 : Executor.store s1
                = snd (PermissionManager.remember (Executor.store s) project toolName
                         input b)
                /\ Executor.verdicts s1
                   = Executor.verdicts s
                     ++ [ (Some (length (Executor.promises s)),
                           if b then Executor.Allow input
                           else Executor.Deny (txt "User denied permission.")) ]).
  { subst s1 response. unfold Executor.run. cbn [fold_left Executor.step].
    unfold Executor.handlePermission. rewrite Hask.
    unfold Executor.onPermissionResponse.
    cbn [Executor.pendingPermissions resp_requestId approved rememberChoice].
    rewrite lookup_insert_eq. unfold Executor.resolve.
    cbn [Executor.promises].
    rewrite list_lookup_middle by reflexivity.
    cbn [Executor.resolveCalls Executor.w_projectName Executor.w_toolName
         Executor.w_input].
    unfold Executor.resume, Executor.setPending.
    cbn [Executor.store Executor.verdicts Executor.res_remember Executor.res_approved
         Executor.w_projectName Executor.w_toolName Executor.w_input].
    rewrite Hret. split; [reflexivity|]. now destruct b. }
  destruct Hs1 as [Hstore Hverdicts].
  assert (Hnow : PermissionManager.checkPermission
                   (PermissionManager.memory (Executor.store s1)) project toolName input
                 = Returned (if b then PermissionManager.Allowed
                             else PermissionManager.Denied)).
  { rewrite Hstore, Hafter. now destruct b. }
  split; [exact Hstore|]. split; [exact Hverdicts|].
  subst s2. cbn [Executor.step]. unfold Executor.handlePermission. rewrite Hnow.
  destruct b; cbn [Executor.verdicts Executor.asked Executor.pendingPermissions
                   Executor.timers Executor.store]; repeat split; reflexivity.
Qed.

Lemma remembered_answer_witness :
  let s := Executor.initial (H := Fixture.host) Fixture.emptyStore in
  let response := {| resp_requestId := txt "perm-1"; resp_chatId := txt "7";
                     approved := true; rememberChoice := true |} in
  let s1 := Executor.run s [ Executor.CanUseTool (H := Fixture.host) (txt "perm-1")
                               (txt "7") (txt "blog") (txt "Bash") Fixture.runTests;
                             Executor.PermissionResponse response ] in
  let s2 := Executor.step s1 (Executor.CanUseTool (H := Fixture.host) (txt "perm-2")
                                (txt "7") (txt "blog") (txt "Bash") Fixture.runTests) in
  Executor.store s1
  = snd (PermissionManager.remember (H := Fixture.host) (Executor.store s) (txt "blog")
           (txt "Bash") Fixture.runTests true)
  /\ Executor.verdicts s1
     = Executor.verdicts s
       ++ [ (Some (length (Executor.promises s)),
             Executor.Allow (H := Fixture.host) Fixture.runTests) ]
  /\ Executor.verdicts s2
     = Executor.verdicts s1 ++ [ (None, Executor.Allow (H := Fixture.host) Fixture.runTests) ]
  /\ Executor.asked s2 = Executor.asked s1
  /\ Executor.pendingPermissions s2 = Executor.pendingPermissions s1
  /\ Executor.timers s2 = Executor.timers s1
  /\ Executor.store s2 = Executor.store s1.
Proof.
  intros s response s1 s2.
  apply (remembered_answer (H := Fixture.host) s (txt "perm-1") (txt "perm-2")
           (txt "7") (txt "7") (txt "blog") (txt "Bash") Fixture.runTests true).
  - vm_compute. reflexivity.
  - intros v pat Hv. vm_compute in Hv. discriminate.
  - vm_compute. apply List.Forall_nil.
Defined.

(** ** Command parser, further *)

Section ParserSoundness.
Import Parser.

(** *** Trimming *)

Lemma trimStart_head (s : jsstring) :
  trimStart s = [] \/ exists x m, trimStart s = x :: m /\ isWhiteSpace x = false.
Proof.
  induction s as [|c s IH]; [now left|]. cbn [trimStart].
  destruct (isWhiteSpace c) eqn:E; [exact IH|]. right. eauto.
Qed.

Lemma trimStart_fixed (x : ascii) (m : jsstring) :
  isWhiteSpace x = false -> trimStart (x :: m) = x :: m.
Proof. intros Hx. cbn [trimStart]. now rewrite Hx. Qed.

Lemma trimStart_keeps_last (a : jsstring) (c : ascii) :
  isWhiteSpace c = false -> exists a', trimStart (a ++ [c]) = a' ++ [c].
Proof.
  intros Hc. induction a as [|x a IH].
  - exists []. cbn. now rewrite Hc.
  - cbn [app trimStart]. destruct (isWhiteSpace x); [exact IH|]. now exists (x :: a).
Qed.

Lemma trimEnd_fixed (a : jsstring) (c : ascii) :
  isWhiteSpace c = false -> trimEnd (a ++ [c]) = a ++ [c].
Proof.
  intros Hc. unfold trimEnd. rewrite rev_unit, (trimStart_fixed _ _ Hc).
  cbn [rev]. now rewrite rev_involutive.
Qed.

(** The trimmed text is empty, or it begins and ends with characters that
    are not white space. *)
Lemma trim_ends (s : jsstring) :
  trim s = []
  \/ (exists x m, trim s = x :: m /\ isWhiteSpace x = false)
     /\ (exists a c, trim s = a ++ [c] /\ isWhiteSpace c = false).
Proof.
  unfold trim. destruct (trimStart_head s) as [->|(x & m & -> & Hx)]; [now left|].
  right. unfold trimEnd.
  destruct (trimStart_keeps_last (rev m) x Hx) as [a' Ha'].
  cbn [rev]. rewrite Ha'. rewrite rev_unit. split; [eauto|].
  destruct (trimStart_head (rev m ++ [x])) as [He|(y & k & Hk & Hy)].
  - rewrite Ha' in He. now destruct a'.
  - rewrite Ha' in Hk. destruct a' as [|z a'].
    + exists [], x. split; [reflexivity|exact Hx].
    + cbn in Hk. injection Hk as -> _. exists (x :: rev a'), y.
      split; [reflexivity|exact Hy].
Qed.

Lemma trim_idem (s : jsstring) : trim (trim s) = trim s.
Proof.
  destruct (trim_ends s) as [->|[(x & m & Hs & Hx) (a & c & Ha & Hc)]]; [reflexivity|].
  unfold trim at 1. rewrite Hs, (trimStart_fixed _ _ Hx), <- Hs, Ha.
  now apply trimEnd_fixed.
Qed.

(** Trimming a piece that ends where the trimmed text ends leaves
    something. *)
Lemma trim_suffix_nonempty (s pre g : jsstring) :
  trim s = pre ++ g -> g <> [] -> trim g <> [].
Proof.
  intros Hs Hg.
  destruct (trim_ends s) as [He|[_ (a & c & Ha & Hc)]].
  - rewrite He in Hs. symmetry in Hs. apply app_eq_nil in Hs. tauto.
  - destruct (exists_last Hg) as (b & c' & ->).
    rewrite Ha, app_assoc in Hs. apply app_inj_tail in Hs. destruct Hs as [_ <-].
    unfold trim. destruct (trimStart_keeps_last b c Hc) as [a' ->].
    rewrite (trimEnd_fixed _ _ Hc). now destruct a'.
Qed.

Lemma isWhiteSpace_lowerChar (c : ascii) : isWhiteSpace (lowerChar c) = isWhiteSpace c.
Proof. destruct c as [[] [] [] [] [] [] [] []]; reflexivity. Qed.

(** *** What a match says about the text *)

Lemma greedy_sound (re : RegExp) (t : Term) (ts : list Term)
    (k : jsstring -> list jsstring -> option (list jsstring)) :
  (forall s caps r, k s caps = Some r ->
     exists groups, r = rev caps ++ groups /\ Parsed re ts s groups) ->
  forall s taken caps r,
    greedy re t k s taken caps = Some r ->
    exists piece rest groups,
      s = piece ++ rest /\ piece <> []
      /\ Forall (fun c => classMatches re (cls t) c = true) piece
      /\ r = rev (record (capture t) (rev piece ++ taken) caps) ++ groups
      /\ Parsed re ts rest groups.
Proof.
  intros Hk. induction s as [|c s IH]; intros taken caps r; [discriminate|].
  cbn [greedy]. destruct (classMatches re (cls t) c) eqn:Ec; [|discriminate].
  destruct (greedy re t k s (c :: taken) caps) as [r'|] eqn:Eg.
  - intros [= <-]. destruct (IH _ _ _ Eg) as (piece & rest & groups & -> & _ & Hp & Hr & Hg).
    exists (c :: piece), rest, groups. split; [reflexivity|]. split; [discriminate|].
    split; [now constructor|]. split; [|exact Hg].
    rewrite Hr. cbn [rev]. now rewrite <- app_assoc.
  - intros Hr. destruct (Hk _ _ _ Hr) as (groups & -> & Hg).
    exists [c], s, groups. split; [reflexivity|]. split; [discriminate|].
    split; [constructor; [exact Ec|constructor]|]. split; [reflexivity|exact Hg].
Qed.

Lemma record_rev (cap : bool) (piece : jsstring) (caps groups : list jsstring) :
  rev (record cap (rev piece ++ []) caps) ++ groups
  = rev caps ++ (if cap then piece :: groups else groups).
Proof.
  unfold record. rewrite app_nil_r. destruct cap; [|reflexivity].
  cbn [rev]. now rewrite rev_involutive, <- app_assoc.
Qed.

Lemma matchTerms_sound (re : RegExp) (ts : list Term) :
  forall s caps r,
    matchTerms re ts s caps = Some r ->
    exists groups, r = rev caps ++ groups /\ Parsed re ts s groups.
Proof.
  induction ts as [|t ts IH]; intros s caps r.
  - cbn [matchTerms]. destruct s; [|discriminate]. intros [= <-].
    exists []. rewrite app_nil_r. split; [reflexivity|constructor].
  - cbn [matchTerms]. destruct (quant t) eqn:Eq.
    + destruct s as [|c s]; [discriminate|].
      destruct (classMatches re (cls t) c) eqn:Ec; [|discriminate].
      intros Hr. destruct (IH _ _ _ Hr) as (groups & -> & Hg).
      exists (if capture t then [c] :: groups else groups). split.
      * exact (record_rev (capture t) [c] caps groups).
      * apply (Parsed_cons re t ts [c] s groups); [|now rewrite Eq|exact Hg].
        constructor; [exact Ec|constructor].
    + intros Hr.
      destruct (greedy_sound re t ts _ IH _ _ _ _ Hr)
        as (piece & rest & groups & -> & Hne & Hp & -> & Hg).
      exists (if capture t then piece :: groups else groups). split.
      * apply record_rev.
      * apply Parsed_cons; [exact Hp|now rewrite Eq|exact Hg].
    + destruct (greedy re t (matchTerms re ts) s [] caps) as [r'|] eqn:Eg.
      * intros [= <-].
        destruct (greedy_sound re t ts _ IH _ _ _ _ Eg)
          as (piece & rest & groups & -> & Hne & Hp & -> & Hg).
        exists (if capture t then piece :: groups else groups). split.
        -- apply record_rev.
        -- apply Parsed_cons; [exact Hp|now rewrite Eq|exact Hg].
      * intros Hr. destruct (IH _ _ _ Hr) as (groups & -> & Hg).
        exists (if capture t then [] :: groups else groups). split.
        -- exact (record_rev (capture t) [] caps groups).
        -- apply (Parsed_cons re t ts [] s groups); [constructor|now rewrite Eq|exact Hg].
Qed.

Lemma jsmatch_sound (s : jsstring) (re : RegExp) (m : list jsstring) :
  jsmatch s re = Some m ->
  exists groups, m = s :: groups /\ Parsed re (source re) s groups.
Proof.
  unfold jsmatch. destruct (matchTerms re (source re) s []) as [g|] eqn:E; [|discriminate].
  intros [= <-]. destruct (matchTerms_sound _ _ _ _ _ E) as (groups & -> & Hg).
  exists groups. split; [reflexivity|exact Hg].
Qed.

(** A captured term taken one or more times: its group, and what
    follows. *)
Lemma Parsed_group (re : RegExp) (k : CharClass) (ts : list Term) (s : jsstring)
    (groups : list jsstring) :
  Parsed re (group k :: ts) s groups ->
  exists g rest gs,
    s = g ++ rest /\ groups = g :: gs /\ g <> []
    /\ Forall (fun c => classMatches re k c = true) g
    /\ Parsed re ts rest gs.
Proof.
  intros Hp. inversion Hp as [|t ts' piece rest gs Hc Hq Hrest]; subst.
  cbn in *. eauto 10.
Qed.

Lemma Parsed_skip (re : RegExp) (t : Term) (ts : list Term) (s : jsstring)
    (groups : list jsstring) :
  capture t = false ->
  Parsed re (t :: ts) s groups ->
  exists piece rest, s = piece ++ rest /\ Parsed re ts rest groups.
Proof.
  intros Hcap Hp. inversion Hp as [|t' ts' piece rest gs Hc Hq Hrest]; subst.
  rewrite Hcap. eauto.
Qed.

Lemma Parsed_end (re : RegExp) (s : jsstring) (groups : list jsstring) :
  Parsed re [] s groups -> s = [] /\ groups = [].
Proof. intros Hp. inversion Hp. tauto. Qed.

(** The name taken from a group of characters that are not white space. *)
Lemma parsedName_group (re : RegExp) (g : jsstring) :
  g <> [] -> Forall (fun c => classMatches re NonSpace c = true) g ->
  parsedName (toLowerCase g).
Proof.
  intros Hne Hg. unfold parsedName. split; [|split].
  - destruct g; [congruence|discriminate].
  - apply toLowerCase_idem.
  - unfold toLowerCase. apply Forall_fmap. eapply Forall_impl; [exact Hg|].
    intros c Hc. cbn in *. rewrite isWhiteSpace_lowerChar.
    now apply negb_true_iff in Hc.
Qed.

End ParserSoundness.

Section ParserForms.
Import Parser.

Ltac parsed H :=
  cbv [source ccRe clearRe permRe codeRe atRe inRe lit txt list_ascii_of_string
       map app some any one] in H;
  repeat first
    [ apply Parsed_group in H;
      destruct H as (?g & ?rest & ?gs & -> & -> & ?Hne & ?Hcls & H)
    | apply Parsed_skip in H; [destruct H as (?piece & ?rest & -> & H)|reflexivity]
    | apply Parsed_end in H; destruct H as [-> ->] ].

Lemma prompt_sound (text pre g : jsstring) :
  pre ++ g = trim text -> g <> [] -> trim g <> [] /\ trim (trim g) = trim g.
Proof.
  intros Ht Hg. split; [|apply trim_idem].
  now apply (trim_suffix_nonempty text pre g).
Qed.

Lemma firstReturn_hit (forms : list Form) (cmd : Command) :
  fst (firstReturn forms) = Returned (Some cmd) ->
  exists f, f ∈ forms /\ fst f = Some (Returned (Some cmd)).
Proof.
  induction forms as [|[[r|] out] forms IH]; cbn [firstReturn].
  - discriminate.
  - cbn. intros ->. eexists. split; [apply list_elem_of_here|reflexivity].
  - destruct (firstReturn forms) as [r out']. cbn [fst] in *. intros Hr.
    destruct (IH Hr) as (f & Hf & Hc). exists f. split; [|exact Hc].
    now apply list_elem_of_further.
Qed.

Lemma ccForm_sound (config : ClaudeCodeConfig) (text : jsstring) (cmd : Command) :
  fst (ccForm config (trim text)) = Some (Returned (Some cmd)) ->
  soundCommand config text cmd.
Proof.
  unfold ccForm. destruct (jsmatch (trim text) ccRe) as [m|] eqn:E; [|discriminate].
  apply jsmatch_sound in E. destruct E as (groups & -> & Hp).
  remember (trim text) as trimmed eqn:Ht. parsed Hp.
  destruct (ProjectManager.listProjects config) as [|[d path] others] eqn:El;
    [discriminate|].
  cbn. intros [= <-]. cbn [soundCommand].
  rewrite app_nil_r, !app_assoc in Ht.
  destruct (prompt_sound _ _ _ Ht Hne). split; [assumption|]. split; [assumption|].
  left. eauto.
Qed.

Lemma projectsForm_sound (config : ClaudeCodeConfig) (text : jsstring) (cmd : Command) :
  fst (projectsForm (trim text)) = Some (Returned (Some cmd)) ->
  soundCommand config text cmd.
Proof.
  unfold projectsForm.
  destruct (bool_decide (toLowerCase (trim text) = txt "/projects")) eqn:E;
    [|discriminate].
  cbn. intros [= <-]. now apply bool_decide_eq_true in E.
Qed.

Lemma clearForm_sound (config : ClaudeCodeConfig) (text : jsstring) (cmd : Command) :
  fst (clearForm (trim text)) = Some (Returned (Some cmd)) ->
  soundCommand config text cmd.
Proof.
  unfold clearForm. destruct (jsmatch (trim text) clearRe) as [m|] eqn:E; [|discriminate].
  apply jsmatch_sound in E. destruct E as (groups & -> & Hp).
  remember (trim text) as trimmed eqn:Ht. parsed Hp.
  cbn. intros [= <-]. cbn [soundCommand]. now apply (parsedName_group clearRe).
Qed.

Lemma permForm_sound (config : ClaudeCodeConfig) (text : jsstring) (cmd : Command) :
  fst (permForm (trim text)) = Some (Returned (Some cmd)) ->
  soundCommand config text cmd.
Proof.
  unfold permForm. destruct (jsmatch (trim text) permRe) as [m|] eqn:E; [|discriminate].
  apply jsmatch_sound in E. destruct E as (groups & -> & Hp).
  remember (trim text) as trimmed eqn:Ht. parsed Hp.
  cbn. intros [= <-]. cbn [soundCommand]. now apply (parsedName_group permRe).
Qed.

Lemma codeForm_sound (config : ClaudeCodeConfig) (text : jsstring) (cmd : Command) :
  fst (codeForm config (trim text)) = Some (Returned (Some cmd)) ->
  soundCommand config text cmd.
Proof.
  unfold codeForm. destruct (jsmatch (trim text) codeRe) as [m|] eqn:E; [|discriminate].
  apply jsmatch_sound in E. destruct E as (groups & -> & Hp).
  remember (trim text) as trimmed eqn:Ht. parsed Hp.
  cbn [withGroup nth_error].
  destruct (ProjectManager.projectExists config (toLowerCase g)) eqn:Ex; [|discriminate].
  cbn. intros [= <-]. cbn [soundCommand].
  rewrite app_nil_r, !app_assoc in Ht.
  destruct (prompt_sound _ _ _ Ht Hne0). split; [assumption|]. split; [assumption|].
  right. split; [now apply (parsedName_group codeRe)|exact Ex].
Qed.

Lemma atForm_sound (config : ClaudeCodeConfig) (text : jsstring) (cmd : Command) :
  fst (atForm config (trim text)) = Some (Returned (Some cmd)) ->
  soundCommand config text cmd.
Proof.
  unfold atForm. destruct (jsmatch (trim text) atRe) as [m|] eqn:E; [|discriminate].
  apply jsmatch_sound in E. destruct E as (groups & -> & Hp).
  remember (trim text) as trimmed eqn:Ht. parsed Hp.
  cbn [withGroup nth_error logging fst].
  destruct (ProjectManager.projectExists config (toLowerCase g)) eqn:Ex; [|discriminate].
  cbn. intros [= <-]. cbn [soundCommand].
  rewrite app_nil_r, !app_assoc in Ht.
  destruct (prompt_sound _ _ _ Ht Hne0). split; [assumption|]. split; [assumption|].
  right. split; [now apply (parsedName_group atRe)|exact Ex].
Qed.

Lemma inForm_sound (config : ClaudeCodeConfig) (text : jsstring) (cmd : Command) :
  fst (inForm config (trim text)) = Some (Returned (Some cmd)) ->
  soundCommand config text cmd.
Proof.
  unfold inForm. destruct (jsmatch (trim text) inRe) as [m|] eqn:E; [|discriminate].
  apply jsmatch_sound in E. destruct E as (groups & -> & Hp).
  remember (trim text) as trimmed eqn:Ht. parsed Hp.
  cbn [withGroup nth_error].
  destruct (ProjectManager.projectExists config (toLowerCase g)) eqn:Ex; [|discriminate].
  cbn. intros [= <-]. cbn [soundCommand].
  rewrite app_nil_r, !app_assoc in Ht.
  destruct (prompt_sound _ _ _ Ht Hne0). split; [assumption|]. split; [assumption|].
  right. split; [now apply (parsedName_group inRe)|exact Ex].
Qed.

End ParserForms.

(** X23. What a parsed command can be. A command to run a prompt never has
    an empty prompt, nor one with white space around it, and the project it
    names is the first project listed (the shorthand) or a name that
    [projectExists] accepts. The names the parser takes from the message
    are never empty, are in lower case and have no white space. The
    list-projects command is returned only for the text that is the
    command itself, up to letter case and white space around it. *)
Theorem parseClaudeCodeCommand_sound (config : ClaudeCodeConfig) (text : jsstring)
    (command : Parser.Command) :
  fst (Parser.parseClaudeCodeCommand config text) = Returned (Some command) ->
  soundCommand config text command.
Proof.
  unfold Parser.parseClaudeCodeCommand. intros Hr.
  apply firstReturn_hit in Hr. destruct Hr as (f & Hin & Hf).
  repeat (apply elem_of_cons in Hin; destruct Hin as [->|Hin]).
  - now apply ccForm_sound.
  - now apply projectsForm_sound.
  - now apply clearForm_sound.
  - now apply permForm_sound.
  - now apply codeForm_sound.
  - now apply atForm_sound.
  - now apply inForm_sound.
  - now apply not_elem_of_nil in Hin.
Qed.

Lemma parseClaudeCodeCommand_sound_witness :
  soundCommand Fixture.blogConfig (txt " in Work:  fix the build ")
    (Parser.ClaudeCodeCommand (txt "work") (txt "fix the build")).
Proof.
  apply (parseClaudeCodeCommand_sound Fixture.blogConfig (txt " in Work:  fix the build ")).
  vm_compute. reflexivity.
Defined.

Section Shorthand.
Import Parser.

(** A text that a pattern accepts begins with a character that the first
    term of the pattern accepts, when that term is taken once. *)
Lemma Parsed_first (re : RegExp) (k : CharClass) (ts : list Term) (s : jsstring)
    (groups : list jsstring) :
  Parsed re (one k :: ts) s groups ->
  exists c s', s = c :: s' /\ classMatches re k c = true.
Proof.
  intros Hp. inversion Hp as [|t ts' piece rest gs Hc Hq Hrest]; subst.
  cbn in Hq. destruct piece as [|c [|? ?]]; try discriminate.
  apply Forall_cons in Hc. destruct Hc as [Hc _]. cbn. eauto.
Qed.

Lemma first_of_match (s : jsstring) (re : RegExp) (k : CharClass) (ts : list Term) :
  source re = one k :: ts -> is_Some (jsmatch s re) ->
  exists c s', s = c :: s' /\ classMatches re k c = true.
Proof.
  intros Hsrc [m Hm]. apply jsmatch_sound in Hm. destruct Hm as (groups & _ & Hp).
  rewrite Hsrc in Hp. now apply Parsed_first in Hp.
Qed.

Lemma no_match_after_c (c : ascii) (s : jsstring) (re : RegExp) (a : ascii) (ts : list Term) :
  source re = one (Lit a) :: ts -> ignoreCase re = true ->
  sameChar ccRe "c" c = true ->
  Ascii.eqb (canonicalize a) (canonicalize "c") = false ->
  jsmatch (c :: s) re = None.
Proof.
  intros Hsrc Hi Hc Ha.
  destruct (jsmatch (c :: s) re) as [m|] eqn:E; [|reflexivity].
  destruct (first_of_match (c :: s) re (Lit a) ts Hsrc) as (c' & s' & [= <- <-] & Hm);
    [eauto|].
  cbn in Hm, Hc. unfold sameChar in Hm. rewrite Hi in Hm.
  apply Ascii.eqb_eq in Hm, Hc. rewrite Hm, <- Hc in Ha.
  now rewrite Ascii.eqb_refl in Ha.
Qed.

Lemma lowerChar_slash (c : ascii) : lowerChar c = "/"%char -> c = "/"%char.
Proof.
  destruct c as [[] [] [] [] [] [] [] []]; vm_compute; intros Hc;
    first [reflexivity|discriminate Hc].
Qed.

End Shorthand.

(** X24. The shorthand. A text that, trimmed, is [cc], white space and
    something more (in any letter case) is a command for the first project
    listed, whatever the other forms would make of it. The name is taken
    as it is listed, neither put in lower case nor looked up: when its
    lower-case form is not a key of the configuration, [getProject] finds
    no path for the project the command names; it gives [undefined], or
    the inherited member when that lower-case form is a name of
    [Object.prototype]. With no project configured such a text is no
    command, and nothing is written to the console. *)
Theorem cc_shorthand (config : ClaudeCodeConfig) (text : jsstring) :
  is_Some (Parser.jsmatch (trim text) Parser.ccRe) ->
  match ProjectManager.listProjects config with
  | (defaultProject, _) :: _ =>
      (exists prompt,
         fst (Parser.parseClaudeCodeCommand config text)
         = Returned (Some (Parser.ClaudeCodeCommand defaultProject prompt)))
      /\ ((forall path,
             (toLowerCase defaultProject, path) ∉ ProjectManager.listProjects config) ->
          ProjectManager.getProject config defaultProject
          = if bool_decide (toLowerCase defaultProject ∈ JsObject.inheritedNames)
            then Inherited else Undefined)
  | [] => Parser.parseClaudeCodeCommand config text = (Returned None, [])
  end.
Proof.
  intros Hcc.
  destruct (ProjectManager.listProjects config) as [|[d path] others] eqn:El.
  - destruct (first_of_match (trim text) Parser.ccRe (Parser.Lit "c") _ eq_refl Hcc)
      as (c & s' & Ht & Hc).
    unfold Parser.parseClaudeCodeCommand. rewrite Ht.
    unfold Parser.ccForm, Parser.projectsForm, Parser.clearForm, Parser.permForm,
      Parser.codeForm, Parser.atForm, Parser.inForm.
    rewrite El.
    rewrite (no_match_after_c c s' Parser.clearRe "/" _ eq_refl eq_refl Hc eq_refl).
    rewrite (no_match_after_c c s' Parser.permRe "/" _ eq_refl eq_refl Hc eq_refl).
    rewrite (no_match_after_c c s' Parser.codeRe "/" _ eq_refl eq_refl Hc eq_refl).
    rewrite (no_match_after_c c s' Parser.atRe "@" _ eq_refl eq_refl Hc eq_refl).
    rewrite (no_match_after_c c s' Parser.inRe "i" _ eq_refl eq_refl Hc eq_refl).
    rewrite bool_decide_eq_false_2.
    + now destruct (Parser.jsmatch (c :: s') Parser.ccRe).
    + intros Hp. cbn in Hp. injection Hp as Hp _. apply lowerChar_slash in Hp.
      subst c. discriminate.
  - split.
    + destruct Hcc as [m Hm]. unfold Parser.parseClaudeCodeCommand.
      cbn [Parser.firstReturn]. unfold Parser.ccForm at 1. rewrite Hm, El.
      pose proof (jsmatch_groups _ _ _ Hm) as Hlen.
      change (groupCount (Parser.source Parser.ccRe)) with 1%nat in Hlen.
      destruct m as [|whole [|g [|? ?]]]; try discriminate.
      cbn. eauto.
    + intros Hnone.
      assert (Hown : ProjectManager.ownProject config (toLowerCase d) = None).
      { apply ownProject_none. intros p Hin. apply (Hnone p).
        now rewrite <- El, listProjects_entries. }
      unfold ProjectManager.getProject, JsObject.get. now rewrite Hown.
Qed.

Lemma cc_shorthand_witness :
  let config := {| allowedUserId := txt "42";
                   projects := [(txt "Blog", txt "/srv/blog")] |} in
  (exists prompt,
     fst (Parser.parseClaudeCodeCommand config (txt "CC  fix the build"))
     = Returned (Some (Parser.ClaudeCodeCommand (txt "Blog") prompt)))
  /\ ((forall path, (toLowerCase (txt "Blog"), path) ∉ ProjectManager.listProjects config) ->
      ProjectManager.getProject config (txt "Blog") = Undefined).
Proof.
  intros config.
  apply (cc_shorthand config (txt "CC  fix the build")).
  vm_compute. eauto.
Defined.

Section Mention.
Import Parser.

Lemma no_match_first (c : ascii) (s : jsstring) (re : RegExp) (a : ascii) (ts : list Term) :
  source re = one (Lit a) :: ts -> sameChar re a c = false ->
  jsmatch (c :: s) re = None.
Proof.
  intros Hsrc Hc. unfold jsmatch. rewrite Hsrc. cbn. now rewrite Hc.
Qed.

(** A term taken one or more times takes the whole run of characters of
    its class when the rest of the pattern accepts what follows the run. *)
Lemma greedy_max (re : RegExp) (t : Term)
    (k : jsstring -> list jsstring -> option (list jsstring))
    (rest : jsstring) (caps : list jsstring) (r : list jsstring) :
  match rest with
  | [] => True
  | c :: _ => classMatches re (cls t) c = false
  end ->
  forall piece taken,
    piece <> [] ->
    Forall (fun c => classMatches re (cls t) c = true) piece ->
    k rest (record (capture t) (rev piece ++ taken) caps) = Some r ->
    greedy re t k (piece ++ rest) taken caps = Some r.
Proof.
  intros Hrest. induction piece as [|c piece IH]; intros taken Hne Hp Hk; [congruence|].
  apply Forall_cons in Hp. destruct Hp as [Hc Hp].
  cbn [app greedy]. rewrite Hc. destruct piece as [|c' piece].
  - cbn [app]. cbn in Hk.
    replace (greedy re t k rest (c :: taken) caps) with (@None (list jsstring));
      [exact Hk|].
    destruct rest as [|x rest]; [reflexivity|]. cbn [greedy]. now rewrite Hrest.
  - rewrite (IH (c :: taken)); [reflexivity|discriminate|exact Hp|].
    cbn [rev] in *. now rewrite <- !app_assoc in *.
Qed.

End Mention.

(** X25. The mention form. A text that, trimmed, is [@], a name without
    white space, white space, and a prompt is a command for the project of
    that name in lower case when [projectExists] accepts the name, with the
    prompt trimmed; when it does not, the text is no command at all. *)
Theorem mention_form (config : ClaudeCodeConfig) (text name ws prompt : jsstring) :
  trim text = "@"%char :: name ++ ws ++ prompt ->
  name <> [] -> Forall (fun c => isWhiteSpace c = false) name ->
  ws <> [] -> Forall (fun c => isWhiteSpace c = true) ws ->
  (exists c rest, prompt = c :: rest /\ isWhiteSpace c = false) ->
  fst (Parser.parseClaudeCodeCommand config text)
  = Returned (if ProjectManager.projectExists config name
              then Some (Parser.ClaudeCodeCommand (toLowerCase name) (trim prompt))
              else None).
Proof.
  intros Ht Hname Hns Hws Hs (c & rest & -> & Hc).
  assert (Hat : Parser.jsmatch ("@"%char :: name ++ ws ++ c :: rest) Parser.atRe
                = Some [ "@"%char :: name ++ ws ++ c :: rest; name; c :: rest ]).
  { unfold Parser.jsmatch.
    change (Parser.source Parser.atRe)
      with [Parser.one (Parser.Lit "@"); Parser.group Parser.NonSpace;
            Parser.some Parser.Space; Parser.group Parser.Dot].
    cbn [Parser.matchTerms Parser.quant Parser.one Parser.group Parser.some].
    replace (Parser.classMatches Parser.atRe (Parser.cls (Parser.one (Parser.Lit "@"))) "@")
      with true by reflexivity.
    cbn [Parser.record Parser.capture Parser.one].
    erewrite (greedy_max Parser.atRe (Parser.group Parser.NonSpace)); [reflexivity| | | |].
    - destruct ws as [|w ws]; [congruence|]. apply Forall_cons in Hs.
      destruct Hs as [Hw _]. cbn. now rewrite Hw.
    - exact Hname.
    - eapply Forall_impl; [exact Hns|]. intros x Hx. cbn. now rewrite Hx.
    - cbn [Parser.matchTerms Parser.quant Parser.some].
      erewrite (greedy_max Parser.atRe (Parser.some Parser.Space)); [reflexivity| | | |].
      + cbn. exact Hc.
      + exact Hws.
      + eapply Forall_impl; [exact Hs|]. intros x Hx. exact Hx.
      + cbn [Parser.matchTerms Parser.quant Parser.group].
        rewrite <- (app_nil_r (c :: rest)) at 1.
        erewrite (greedy_max Parser.atRe (Parser.group Parser.Dot)); [reflexivity| | | |].
        * exact I.
        * discriminate.
        * apply Forall_forall. intros x _. reflexivity.
        * cbn. rewrite ?app_nil_r, ?rev_unit, ?rev_involutive. reflexivity. }
  unfold Parser.parseClaudeCodeCommand. rewrite Ht.
  unfold Parser.ccForm, Parser.projectsForm, Parser.clearForm, Parser.permForm,
    Parser.codeForm, Parser.atForm, Parser.inForm.
  rewrite (no_match_first "@" _ Parser.ccRe "c" _ eq_refl eq_refl).
  rewrite (no_match_first "@" _ Parser.clearRe "/" _ eq_refl eq_refl).
  rewrite (no_match_first "@" _ Parser.permRe "/" _ eq_refl eq_refl).
  rewrite (no_match_first "@" _ Parser.codeRe "/" _ eq_refl eq_refl).
  rewrite (no_match_first "@" _ Parser.inRe "i" _ eq_refl eq_refl).
  rewrite Hat. rewrite bool_decide_eq_false_2 by discriminate.
  cbn [Parser.withGroup nth_error].
  replace (ProjectManager.projectExists config (toLowerCase name))
    with (ProjectManager.projectExists config name)
    by (unfold ProjectManager.projectExists; now rewrite toLowerCase_idem).
  destruct (ProjectManager.projectExists config name); reflexivity.
Qed.

Lemma mention_form_witness :
  fst (Parser.parseClaudeCodeCommand Fixture.blogConfig (txt " @Blog  add a page "))
  = Returned (if ProjectManager.projectExists Fixture.blogConfig (txt "Blog")
              then Some (Parser.ClaudeCodeCommand (toLowerCase (txt "Blog"))
                           (trim (txt "add a page")))
              else None).
Proof.
  apply (mention_form Fixture.blogConfig (txt " @Blog  add a page ")
           (txt "Blog") (txt "  ") (txt "add a page")).
  - vm_compute. reflexivity.
  - discriminate.
  - repeat (apply List.Forall_cons; [reflexivity|]). apply List.Forall_nil.
  - discriminate.
  - repeat (apply List.Forall_cons; [reflexivity|]). apply List.Forall_nil.
  - eexists _, _. split; reflexivity.
Defined.

(** ** MCP servers *)

Section McpProperties.
Context {Client Schema Input : Type}.
Import MCPClientManager.

Local Abbreviation Servers := (MCPClientManager.Servers Client Schema).
Local Abbreviation Registry := (MCPClientManager.MCPToolRegistry Client Schema).

Lemma mapSet_named (servers : Servers) (key : jsstring) (r : Registry) :
  Forall (fun e => named (snd e)) servers -> named r ->
  Forall (fun e => named (snd e)) (mapSet servers key r).
Proof.
  intros Hs Hr. induction servers as [|[k r'] rest IH]; cbn [mapSet].
  - constructor; [exact Hr|constructor].
  - apply Forall_cons in Hs. destruct Hs as [Hk Hrest].
    destruct (bool_decide (k = key)).
    + constructor; [exact Hr|exact Hrest].
    + constructor; [exact Hk|now apply IH].
Qed.

Lemma connectServer_named (servers : Servers) (configName : jsstring)
    (connection : outcome (Client * list (ListedTool Schema))) :
  Forall (fun e => named (snd e)) servers ->
  Forall (fun e => named (snd e)) (snd (connectServer servers configName connection)).
Proof.
  intros Hs. destruct connection as [[cl toolList]|e]; [|exact Hs].
  cbn [connectServer snd]. apply mapSet_named; [exact Hs|].
  intros t. cbn [toolNames tools]. rewrite elem_of_list_to_set, list_elem_of_fmap.
  split.
  - intros (x & -> & Hx). eexists. split; [apply list_elem_of_fmap; eauto|reflexivity].
  - intros (tool & Htool & <-). apply list_elem_of_fmap in Htool.
    destruct Htool as (x & -> & Hx). eauto.
Qed.

Lemma connectAll_named (attempts : list (jsstring * outcome (Client * list (ListedTool Schema)))) :
  forall servers : Servers,
    Forall (fun e => named (snd e)) servers ->
    Forall (fun e => named (snd e)) (connectAll servers attempts).
Proof.
  induction attempts as [|a attempts IH]; intros servers Hs; [exact Hs|].
  cbn [connectAll fold_left]. apply IH. now apply connectServer_named.
Qed.

Lemma hasTool_named (servers : Servers) (t : jsstring) :
  Forall (fun e => named (snd e)) servers ->
  hasTool servers t = true <-> exists tool, tool ∈ getAllTools servers /\ name tool = t.
Proof.
  intros Hs. unfold hasTool, getAllTools. rewrite existsb_elem_of. split.
  - intros (e & He & Ht). apply bool_decide_eq_true in Ht.
    rewrite Forall_forall in Hs. apply (Hs e He) in Ht.
    destruct Ht as (tool & Htool & Hname). exists tool. split; [|exact Hname].
    apply list_elem_of_In, in_concat. exists (tools (snd e)).
    split; [|now apply list_elem_of_In].
    apply in_map_iff. exists e. split; [reflexivity|now apply list_elem_of_In].
  - intros (tool & Htool & Hname). apply list_elem_of_In, in_concat in Htool.
    destruct Htool as (l & Hl & Hin). apply in_map_iff in Hl.
    destruct Hl as (e & <- & He). apply list_elem_of_In in He.
    exists e. split; [exact He|]. apply bool_decide_eq_true.
    rewrite Forall_forall in Hs. apply (Hs e He). exists tool.
    split; [now apply list_elem_of_In|exact Hname].
Qed.

Lemma find_first (servers : Servers) (t : jsstring) :
  hasTool servers t = true ->
  exists before key registry after,
    servers = before ++ (key, registry) :: after
    /\ t ∈ toolNames registry
    /\ Forall (fun e => t ∉ toolNames (snd e)) before
    /\ List.find (fun entry => bool_decide (t ∈ toolNames (snd entry))) servers
       = Some (key, registry).
Proof.
  unfold hasTool. induction servers as [|[k r] rest IH]; [discriminate|].
  cbn [existsb List.find snd].
  destruct (bool_decide (t ∈ toolNames r)) eqn:E.
  - intros _. apply bool_decide_eq_true in E.
    exists [], k, r, rest. split; [reflexivity|]. split; [exact E|].
    split; [constructor|reflexivity].
  - cbn [orb]. intros Hrest.
    destruct (IH Hrest) as (before & key & registry & after & -> & Ht & Hb & Hf).
    exists ((k, r) :: before), key, registry, after.
    split; [reflexivity|]. split; [exact Ht|]. split; [|exact Hf].
    constructor; [|exact Hb]. cbn. now apply bool_decide_eq_false in E.
Qed.

End McpProperties.

(** X26. The two views of the connected servers agree. Whatever servers
    were connected, in whatever order, some of the attempts failing and
    some names connected again: [hasTool] accepts a name exactly when
    [getAllTools] lists a tool of that name. *)
Theorem hasTool_getAllTools {Client Schema : Type}
    (attempts : list (jsstring
                      * outcome (Client * list (MCPClientManager.ListedTool Schema))))
    (toolName : jsstring) :
  let servers := MCPClientManager.connectAll [] attempts in
  MCPClientManager.hasTool servers toolName = true
  <-> exists tool,
        tool ∈ MCPClientManager.getAllTools servers
        /\ MCPClientManager.name tool = toolName.
Proof.
  intros servers. apply hasTool_named. subst servers.
  apply connectAll_named. constructor.
Qed.

(** X27. [executeTool] of the worker never raises. For a tool that no
    connected server lists it reports the unknown tool, as an error, and
    calls no server. For a tool that is listed it calls the first server,
    in the order of connection, that lists it, and only that one: the
    outcome is an error exactly when that call raises, and the search of
    [executeTool] of the manager never ends with its not-found error. *)
Theorem executeTool_dispatch {Client Schema Input : Type}
    (servers : MCPClientManager.Servers Client Schema)
    (callTool : Client -> jsstring -> Input
                -> outcome (option (list MCPClientManager.ContentPart)))
    (stringify : option (list MCPClientManager.ContentPart) -> option jsstring)
    (toolName : jsstring) (input : Input) :
  let result := Tools.executeTool servers callTool stringify toolName input in
  (MCPClientManager.hasTool servers toolName = false ->
   result = {| Tools.tool_use_id := txt "";
               Tools.result_content := Some (txt "Error: Unknown tool: " ++ toolName);
               Tools.is_error := true |})
  /\ (MCPClientManager.hasTool servers toolName = true ->
      exists before key registry after,
        servers = before ++ (key, registry) :: after
        /\ toolName ∈ MCPClientManager.toolNames registry
        /\ Forall (fun e => toolName ∉ MCPClientManager.toolNames (snd e)) before
        /\ match callTool (MCPClientManager.client registry) toolName input with
           | Returned content =>
               Tools.is_error result = false
               /\ Tools.result_content result
                  = match match content with
                          | Some parts => MCPClientManager.textParts parts
                          | None => []
                          end with
                    | _ :: _ as texts => Some (join [NL] texts)
                    | [] => stringify content
                    end
           | Thrown e =>
               Tools.is_error result = true
               /\ Tools.result_content result = Some (txt "Error: " ++ e)
           end).
Proof.
  intros result. subst result. unfold Tools.executeTool. split.
  - intros Hno. now rewrite Hno.
  - intros Hyes. rewrite Hyes.
    destruct (find_first servers toolName Hyes)
      as (before & key & registry & after & Hs & Ht & Hb & Hf).
    exists before, key, registry, after.
    split; [exact Hs|]. split; [exact Ht|]. split; [exact Hb|].
    unfold MCPClientManager.executeTool. rewrite Hf.
    destruct (callTool (MCPClientManager.client registry) toolName input)
      as [content|e]; [|split; reflexivity].
    destruct (match content with
              | Some parts => MCPClientManager.textParts parts
              | None => []
              end); split; reflexivity.
Qed.

(** ** The worker *)

Section AgentProperties.
Context {Client Schema Input : Type}.
Import ConversationStore.

Local Abbreviation Content := (Agent.Content Input).
Local Abbreviation Msg := (MessageParam Content).

Variable servers : MCPClientManager.Servers Client Schema.
Variable callTool : Client -> jsstring -> Input
                    -> outcome (option (list MCPClientManager.ContentPart)).
Variable stringify : option (list MCPClientManager.ContentPart) -> option jsstring.

Lemma list_ind2 {A : Type} (P : list A -> Prop) :
  P [] -> (forall x, P [x]) -> (forall x y l, P l -> P (x :: y :: l)) ->
  forall l, P l.
Proof.
  intros H0 H1 H2 l.
  assert (Hboth : P l /\ forall x, P (x :: l)); [|tauto].
  induction l as [|y l [IH1 IH2]]; [split; [exact H0|exact H1]|].
  split; [apply IH2|]. intros x. now apply H2.
Qed.

Lemma dialogue_even (ms : list Msg) :
  dialogue ms = true -> exists k, length ms = (2 * k)%nat.
Proof.
  induction ms as [| |u a ms IH] using list_ind2.
  - now exists 0%nat.
  - cbn. destruct (role x); discriminate.
  - cbn [dialogue]. destruct (role u); [|discriminate].
    destruct (role a); [discriminate|]. intros Hd.
    destruct (IH Hd) as [k Hk]. exists (S k). cbn [length]. lia.
Qed.

Lemma dialogue_app (d1 d2 : list Msg) :
  dialogue d1 = true -> dialogue d2 = true -> dialogue (d1 ++ d2) = true.
Proof.
  intros H1 H2. induction d1 as [| |u a d1 IH] using list_ind2.
  - exact H2.
  - cbn in H1. destruct (role x); discriminate.
  - cbn [dialogue app] in *. destruct (role u); [|discriminate].
    destruct (role a); [discriminate|]. now apply IH.
Qed.

Lemma dialogue_turns (d : list Msg) (u : Msg) :
  dialogue d = true -> role u = user -> turns (d ++ [u]) = true.
Proof.
  intros Hd Hu. induction d as [| |u0 a0 d IH] using list_ind2.
  - cbn. now rewrite Hu.
  - cbn in Hd. destruct (role x); discriminate.
  - cbn [dialogue turns app] in *. destruct (role u0); [|discriminate].
    destruct (role a0); [discriminate|]. now apply IH.
Qed.

Lemma turns_split (ms : list Msg) :
  turns ms = true ->
  exists d u, ms = d ++ [u] /\ dialogue d = true /\ role u = user.
Proof.
  induction ms as [| |u a ms IH] using list_ind2.
  - discriminate.
  - cbn. destruct (role x) eqn:Ex; [|discriminate]. intros _. now exists [], x.
  - cbn [turns]. destruct (role u) eqn:Eu; [|discriminate].
    destruct (role a) eqn:Ea; [discriminate|]. intros Ht.
    destruct (IH Ht) as (d & u' & -> & Hd & Hu').
    exists (u :: a :: d), u'. split; [reflexivity|]. split; [|exact Hu'].
    cbn [dialogue]. now rewrite Eu, Ea.
Qed.

Lemma turns_round (ms : list Msg) (a u : Msg) :
  turns ms = true -> role a = assistant -> role u = user ->
  turns (ms ++ [a; u]) = true.
Proof.
  intros Ht Ha Hu. destruct (turns_split ms Ht) as (d & u0 & -> & Hd & Hu0).
  rewrite <- app_assoc. change ([u0] ++ [a; u]) with ([u0; a] ++ [u]).
  rewrite app_assoc. apply dialogue_turns; [|exact Hu].
  apply dialogue_app; [exact Hd|]. cbn. now rewrite Hu0, Ha.
Qed.

Lemma debugInfo_nonempty (response : Agent.Message Input) (messages : list Msg) :
  Agent.debugInfo response messages <> [].
Proof. discriminate. Qed.

Lemma responseTextOf_nonempty (response : Agent.Message Input) (messages : list Msg) :
  Agent.responseTextOf response messages <> [].
Proof.
  unfold Agent.responseTextOf.
  destruct (List.find Agent.isText (Agent.response_content response)) as [[[|c t]| |]|];
    try apply debugInfo_nonempty. discriminate.
Qed.

(** The loop ends exactly on a script that holds a final reply; the text
    it returns is not empty, and what it sends to the API are messages in
    turn, each array the one before with one round of tool use added. *)
Lemma toolLoop_spec (replies : list (outcome (Agent.Message Input))) :
  forall messages sent,
    (is_Some (Agent.toolLoop servers callTool stringify replies messages sent)
     <-> existsb finalReply replies = true)
    /\ forall r sent',
         Agent.toolLoop servers callTool stringify replies messages sent = Some (r, sent') ->
         (forall text, r = Returned text -> text <> [])
         /\ (exists more, sent' = sent ++ messages :: more
               /\ (turns messages = true -> Forall (fun m => turns m = true) more)
               /\ Forall (fun m => messages `prefix_of` m) more).
Proof.
  induction replies as [|reply replies IH]; intros messages sent.
  - cbn. split; [split; [intros [x Hx]; discriminate|discriminate]|discriminate].
  - cbn [Agent.toolLoop existsb finalReply]. destruct reply as [response|e].
    + destruct (List.filter Agent.isToolUse (Agent.response_content response))
        as [|b bs] eqn:Ef.
      * replace (finalReply (Returned response)) with true
          by (unfold finalReply; now rewrite Ef).
        cbn [orb]. split; [split; [reflexivity|intros _; eexists; reflexivity]|].
        intros r sent' [= <- <-]. split.
        -- intros text [= <-]. apply responseTextOf_nonempty.
        -- exists []. split; [reflexivity|]. split; constructor.
      * replace (finalReply (Returned response)) with false
          by (unfold finalReply; now rewrite Ef).
        cbn [orb].
        set (next := messages ++ _).
        destruct (IH next (sent ++ [messages])) as [Hiff Hres].
        split; [exact Hiff|]. intros r sent' Hloop.
        destruct (Hres r sent' Hloop) as (Htext & more & -> & Hturns & Hpre).
        split; [exact Htext|]. exists (next :: more).
        split; [now rewrite <- app_assoc|]. split.
        -- intros Hm.
           assert (Hn : turns next = true) by (subst next; now apply turns_round).
           constructor; [exact Hn|now apply Hturns].
        -- constructor; [subst next; now apply prefix_app_r|].
           eapply Forall_impl; [exact Hpre|]. intros m Hm. cbn in Hm.
           etransitivity; [|exact Hm]. subst next. now apply prefix_app_r.
    + cbn [orb]. split; [split; [reflexivity|intros _; eexists; reflexivity]|].
      intros r sent' [= <- <-]. split; [discriminate|].
      exists []. split; [reflexivity|]. split; constructor.
Qed.

Lemma getHistory_historyOf (conversations : gmap jsstring (ConversationEntry Content))
    (now : Z) (chatId : jsstring) :
  historyOf (snd (getHistory conversations now chatId)) chatId
  = fst (getHistory conversations now chatId)
  /\ (fst (getHistory conversations now chatId) = historyOf conversations chatId
      \/ fst (getHistory conversations now chatId) = [])
  /\ forall q, q <> chatId ->
       snd (getHistory conversations now chatId) !! q = conversations !! q.
Proof.
  unfold getHistory, historyOf.
  destruct (conversations !! chatId) as [entry|] eqn:E.
  - destruct (MAX_AGE_MS <? now - lastUpdated entry); cbn [fst snd].
    + rewrite lookup_delete_eq. split; [reflexivity|]. split; [now right|].
      intros q Hq. now apply lookup_delete_ne.
    + rewrite E. split; [reflexivity|]. split; [now left|]. reflexivity.
  - cbn [fst snd]. rewrite E. split; [reflexivity|]. split; [now left|]. reflexivity.
Qed.

Lemma historyOf_push (conversations : gmap jsstring (ConversationEntry Content))
    (now : Z) (chatId : jsstring) (m : Msg) :
  historyOf (push (ensureConversation conversations now chatId) now chatId m) chatId
  = truncated (historyOf conversations chatId ++ [m]).
Proof. unfold historyOf at 1. now rewrite push_entry. Qed.

(** An exchange added to a conversation of exchanges. *)
Lemma exchange_kept (ms : list Msg) (u a : Msg) :
  dialogue ms = true -> (length ms <= 20)%nat ->
  role u = user -> role a = assistant ->
  exists earlier,
    truncated (truncated (ms ++ [u]) ++ [a]) = earlier ++ [u; a]
    /\ earlier `suffix_of` ms
    /\ dialogue (earlier ++ [u; a]) = true
    /\ (length (earlier ++ [u; a]) <= 20)%nat.
Proof.
  intros Hd Hl Hu Ha. destruct (dialogue_even ms Hd) as [k Hk].
  assert (Hpair : dialogue [u; a] = true) by (cbn; now rewrite Hu, Ha).
  destruct (le_lt_dec (length ms) 18) as [Hsmall|Hbig].
  - exists ms. rewrite (truncated_small (ms ++ [u])) by (rewrite length_app; cbn; lia).
    rewrite truncated_small by (rewrite !length_app; cbn; lia).
    rewrite <- app_assoc. split; [reflexivity|]. split; [reflexivity|].
    split; [now apply dialogue_app|]. rewrite length_app. cbn. lia.
  - assert (Hlen : length ms = 20%nat) by lia.
    destruct ms as [|m0 [|m1 rest]]; try (cbn in Hlen; lia).
    cbn [dialogue] in Hd. destruct (role m0) eqn:E0; [|discriminate].
    destruct (role m1) eqn:E1; [discriminate|].
    exists rest.
    assert (H1 : truncated ((m0 :: m1 :: rest) ++ [u]) = rest ++ [u]).
    { rewrite truncated_large by (rewrite length_app; cbn in *; lia).
      rewrite length_app. cbn [length] in *.
      replace (S (S (length rest)) + 1 - 20)%nat with 1%nat by lia.
      cbn [app skipn shiftToUser]. rewrite E1.
      destruct rest as [|m2 rest]; cbn [app shiftToUser]; [now rewrite Hu|].
      cbn [dialogue] in Hd. destruct (role m2); [reflexivity|discriminate]. }
    rewrite H1. rewrite truncated_small by (rewrite !length_app; cbn in *; lia).
    rewrite <- app_assoc. split; [reflexivity|]. split.
    + now apply suffix_cons_r, suffix_cons_r.
    + split; [now apply dialogue_app|]. rewrite length_app. cbn in *. lia.
Qed.

End AgentProperties.

(** X28. The worker answers. The subscriber of incoming messages comes to
    an end exactly when the message is the clear command or the model
    sends a final reply (one without tool use, or an exception) after
    finitely many rounds of tool use. It then publishes one response, for
    the message and its chat, with a text that is not empty, to Telegram
    exactly when the message came from there; and it leaves the
    conversations of all other chats as they are. *)
Theorem agent_answers {Client Schema Input : Type}
    (servers : MCPClientManager.Servers Client Schema)
    (callTool : Client -> jsstring -> Input
                -> outcome (option (list MCPClientManager.ContentPart)))
    (stringify : option (list MCPClientManager.ContentPart) -> option jsstring)
    (conversations : gmap jsstring
                       (ConversationStore.ConversationEntry (Agent.Content Input)))
    (t0 t1 t2 : Z) (message : Agent.IncomingMessage)
    (replies : list (outcome (Agent.Message Input))) :
  (is_Some (Agent.onIncoming servers callTool stringify conversations t0 t1 t2
              message replies)
   <-> trim (toLowerCase (Agent.msg_text message)) = txt "/clear"
       \/ existsb finalReply replies = true)
  /\ forall conversations' response sent,
       Agent.onIncoming servers callTool stringify conversations t0 t1 t2 message replies
       = Some (conversations', response, sent) ->
       Agent.messageId response = Agent.msg_id message
       /\ Agent.out_chatId response = Agent.msg_chatId message
       /\ Agent.out_text response <> []
       /\ (Agent.toTelegram response = true <-> Agent.msg_source message = Agent.telegram)
       /\ forall q, q <> Agent.msg_chatId message ->
            conversations' !! q = conversations !! q.
Proof.
  unfold Agent.onIncoming.
  assert (Hsource : (match Agent.msg_source message with
                     | Agent.telegram => true
                     | _ => false
                     end) = true <-> Agent.msg_source message = Agent.telegram).
  { destruct (Agent.msg_source message); split; congruence. }
  destruct (bool_decide (trim (toLowerCase (Agent.msg_text message)) = txt "/clear"))
    eqn:Ec.
  { apply bool_decide_eq_true in Ec. split; [split; eauto|].
    intros conversations' response sent [= <- <- <-].
    cbn [Agent.messageId Agent.out_chatId Agent.out_text Agent.toTelegram].
    split; [reflexivity|]. split; [reflexivity|]. split; [discriminate|].
    split; [exact Hsource|]. intros q Hq. now apply lookup_delete_ne. }
  apply bool_decide_eq_false in Ec.
  unfold Agent.processWithTools.
  destruct (getHistory_historyOf conversations t0 (Agent.msg_chatId message))
    as (_ & _ & Hother).
  destruct (ConversationStore.getHistory conversations t0 (Agent.msg_chatId message))
    as [history conversations0].
  cbn [snd] in Hother.
  set (messages := history ++ _).
  destruct (toolLoop_spec servers callTool stringify replies messages []) as [Hiff Hres].
  destruct (Agent.toolLoop servers callTool stringify replies messages [])
    as [[[text|e] sent0]|] eqn:El.
  - split; [split; [intros _; right; apply Hiff; eauto|eauto]|].
    intros conversations' response sent [= <- <- <-].
    cbn [Agent.messageId Agent.out_chatId Agent.out_text Agent.toTelegram].
    destruct (Hres _ _ eq_refl) as [Htext _].
    split; [reflexivity|]. split; [reflexivity|]. split; [now apply Htext|].
    split; [exact Hsource|]. intros q Hq.
    unfold ConversationStore.addAssistantMessage, ConversationStore.addUserMessage.
    rewrite !push_other by exact Hq. now apply Hother.
  - split; [split; [intros _; right; apply Hiff; eauto|eauto]|].
    intros conversations' response sent [= <- <- <-].
    cbn [Agent.messageId Agent.out_chatId Agent.out_text Agent.toTelegram].
    split; [reflexivity|]. split; [reflexivity|]. split; [discriminate|].
    split; [exact Hsource|]. exact Hother.
  - split; [|discriminate]. split; [intros [x Hx]; discriminate|].
    intros [Hclear|Hfinal]; [contradiction|].
    apply Hiff in Hfinal. destruct Hfinal as [x Hx]. discriminate.
Qed.

(** X29. The conversations the worker keeps are exchanges. When the
    history of a chat is made of at most 20 messages, user and assistant
    in turn, then after [processWithTools] it still is: on a reply it is
    what was kept of the history, a suffix of it, followed by the user
    message and the text returned, the tool use in between leaving no
    trace; on an exception it is the history, or nothing when the history
    was stale. *)
Theorem exchange_recorded {Client Schema Input : Type}
    (servers : MCPClientManager.Servers Client Schema)
    (callTool : Client -> jsstring -> Input
                -> outcome (option (list MCPClientManager.ContentPart)))
    (stringify : option (list MCPClientManager.ContentPart) -> option jsstring)
    (conversations : gmap jsstring
                       (ConversationStore.ConversationEntry (Agent.Content Input)))
    (t0 t1 t2 : Z) (chatId userMessage : jsstring)
    (replies : list (outcome (Agent.Message Input))) :
  dialogue (historyOf conversations chatId) = true ->
  (length (historyOf conversations chatId) <= 20)%nat ->
  match Agent.processWithTools servers callTool stringify conversations t0 t1 t2
          chatId userMessage replies with
  | Some (result, conversations', _) =>
      dialogue (historyOf conversations' chatId) = true
      /\ (length (historyOf conversations' chatId) <= 20)%nat
      /\ match result with
         | Returned text =>
             exists earlier,
               historyOf conversations' chatId
               = earlier
                 ++ [ {| ConversationStore.role := ConversationStore.user;
                         ConversationStore.content := Agent.Text userMessage |};
                      {| ConversationStore.role := ConversationStore.assistant;
                         ConversationStore.content := Agent.Text text |} ]
               /\ earlier `suffix_of` historyOf conversations chatId
         | Thrown _ =>
             historyOf conversations' chatId = historyOf conversations chatId
             \/ historyOf conversations' chatId = []
         end
  | None => True
  end.
Proof.
  intros Hd Hl. unfold Agent.processWithTools.
  destruct (getHistory_historyOf conversations t0 chatId) as (Hh & Hcases & _).
  destruct (ConversationStore.getHistory conversations t0 chatId)
    as [history conversations0].
  cbn [fst snd] in Hh, Hcases.
  assert (Hd0 : dialogue (historyOf conversations0 chatId) = true
                /\ (length (historyOf conversations0 chatId) <= 20)%nat
                /\ historyOf conversations0 chatId `suffix_of` historyOf conversations chatId).
  { rewrite Hh. destruct Hcases as [->| ->].
    - split; [exact Hd|]. split; [exact Hl|reflexivity].
    - split; [reflexivity|]. split; [cbn; lia|apply suffix_nil]. }
  destruct Hd0 as (Hd0 & Hl0 & Hs0).
  destruct (Agent.toolLoop servers callTool stringify replies _ [])
    as [[[text|e] sent0]|]; [| |exact I].
  - unfold ConversationStore.addAssistantMessage, ConversationStore.addUserMessage.
    rewrite !historyOf_push.
    destruct (exchange_kept (historyOf conversations0 chatId)
                {| ConversationStore.role := ConversationStore.user;
                   ConversationStore.content := Agent.Text userMessage |}
                {| ConversationStore.role := ConversationStore.assistant;
                   ConversationStore.content := Agent.Text text |}
                Hd0 Hl0 eq_refl eq_refl) as (earlier & -> & Hsuf & Hdia & Hlen).
    split; [exact Hdia|]. split; [exact Hlen|]. exists earlier.
    split; [reflexivity|]. now transitivity (historyOf conversations0 chatId).
  - split; [exact Hd0|]. split; [exact Hl0|]. rewrite Hh.
    destruct Hcases as [->| ->]; [now left|now right].
Qed.

Lemma exchange_recorded_witness :
  match Agent.processWithTools (Client := unit) (Schema := unit) (Input := unit)
          [] (fun _ _ _ => Returned None) (fun _ => None) ∅ 0 1 2
          (txt "7") (txt "what is due today?")
          [ Returned {| Agent.response_content :=
                          [Agent.ToolUseBlock (txt "t1") (txt "list_tasks") tt];
                        Agent.stop_reason := Some (txt "tool_use") |};
            Returned {| Agent.response_content := [Agent.TextBlock (txt "Nothing is due.")];
                        Agent.stop_reason := Some (txt "end_turn") |} ] with
  | Some (result, conversations', _) =>
      dialogue (historyOf conversations' (txt "7")) = true
      /\ (length (historyOf conversations' (txt "7")) <= 20)%nat
      /\ match result with
         | Returned text =>
             exists earlier,
               historyOf conversations' (txt "7")
               = earlier
                 ++ [ {| ConversationStore.role := ConversationStore.user;
                         ConversationStore.content := Agent.Text (txt "what is due today?") |};
                      {| ConversationStore.role := ConversationStore.assistant;
                         ConversationStore.content := Agent.Text text |} ]
               /\ earlier `suffix_of` historyOf (Content := Agent.Content unit) ∅ (txt "7")
         | Thrown _ =>
             historyOf conversations' (txt "7")
             = historyOf (Content := Agent.Content unit) ∅ (txt "7")
             \/ historyOf conversations' (txt "7") = []
         end
  | None => True
  end.
Proof.
  apply (exchange_recorded (Client := unit) (Schema := unit) (Input := unit)
           [] (fun _ _ _ => Returned None) (fun _ => None) ∅ 0 1 2
           (txt "7") (txt "what is due today?")).
  - reflexivity.
  - vm_compute. lia.
Defined.

(** X30. What the worker sends to the API. When the history of the chat is
    made of exchanges, every array of messages handed to the API holds
    user and assistant messages in turn, beginning and ending with a user
    message. The first array is the history read (nothing when it was
    stale) followed by the user message, and every later one extends it. *)
Theorem requests_in_turn {Client Schema Input : Type}
    (servers : MCPClientManager.Servers Client Schema)
    (callTool : Client -> jsstring -> Input
                -> outcome (option (list MCPClientManager.ContentPart)))
    (stringify : option (list MCPClientManager.ContentPart) -> option jsstring)
    (conversations : gmap jsstring
                       (ConversationStore.ConversationEntry (Agent.Content Input)))
    (t0 t1 t2 : Z) (chatId userMessage : jsstring)
    (replies : list (outcome (Agent.Message Input))) :
  dialogue (historyOf conversations chatId) = true ->
  match Agent.processWithTools servers callTool stringify conversations t0 t1 t2
          chatId userMessage replies with
  | Some (_, _, sent) =>
      exists more,
        let first := fst (ConversationStore.getHistory conversations t0 chatId)
                     ++ [ {| ConversationStore.role := ConversationStore.user;
                             ConversationStore.content := Agent.Text userMessage |} ] in
        sent = first :: more
        /\ Forall (fun m => turns m = true) sent
        /\ Forall (fun m => first `prefix_of` m) more
  | None => True
  end.
Proof.
  intros Hd. unfold Agent.processWithTools.
  destruct (getHistory_historyOf conversations t0 chatId) as (_ & Hcases & _).
  destruct (ConversationStore.getHistory conversations t0 chatId)
    as [history conversations0].
  cbn [fst snd] in *.
  set (messages := history ++ _).
  assert (Hturns : turns messages = true).
  { subst messages. apply dialogue_turns; [|reflexivity].
    destruct Hcases as [->| ->]; [exact Hd|reflexivity]. }
  destruct (toolLoop_spec servers callTool stringify replies messages []) as [_ Hres].
  destruct (Agent.toolLoop servers callTool stringify replies messages [])
    as [[r sent0]|]; [|exact I].
  destruct (Hres r sent0 eq_refl) as (_ & more & -> & Hmore & Hpre).
  assert (Hgoal : exists more0,
            [] ++ messages :: more = messages :: more0
            /\ Forall (fun m => turns m = true) ([] ++ messages :: more)
            /\ Forall (fun m => messages `prefix_of` m) more0).
  { exists more. split; [reflexivity|]. split; [|exact Hpre].
    constructor; [exact Hturns|now apply Hmore]. }
  destruct r; exact Hgoal.
Qed.

Lemma requests_in_turn_witness :
  match Agent.processWithTools (Client := unit) (Schema := unit) (Input := unit)
          [] (fun _ _ _ => Returned None) (fun _ => None) ∅ 0 1 2
          (txt "7") (txt "what is due today?")
          [ Returned {| Agent.response_content :=
                          [Agent.ToolUseBlock (txt "t1") (txt "list_tasks") tt];
                        Agent.stop_reason := Some (txt "tool_use") |};
            Returned {| Agent.response_content := [Agent.TextBlock (txt "Nothing is due.")];
                        Agent.stop_reason := Some (txt "end_turn") |} ] with
  | Some (_, _, sent) =>
      exists more,
        let first := fst (ConversationStore.getHistory
                            (Content := Agent.Content unit) ∅ 0 (txt "7"))
                     ++ [ {| ConversationStore.role := ConversationStore.user;
                             ConversationStore.content :=
                               Agent.Text (txt "what is due today?") |} ] in
        sent = first :: more
        /\ Forall (fun m => turns m = true) sent
        /\ Forall (fun m => first `prefix_of` m) more
  | None => True
  end.
Proof.
  apply (requests_in_turn (Client := unit) (Schema := unit) (Input := unit)
           [] (fun _ _ _ => Returned None) (fun _ => None) ∅ 0 1 2
           (txt "7") (txt "what is due today?")).
  reflexivity.
Defined.
